(** * pathlib: the buffered transfer engine and the Path operations built on it

    A shallow embedding of [pathlib.go].  The Go standard library pieces the
    package calls ([bufio.Reader], [bufio.Writer], [bytes.Reader],
    [bytes.Buffer], [errors.Is], the [path/filepath] functions of a Unix
    build and the [os] file primitives) are modelled next to it, since the
    behaviour of [buffedCopy] is decided by them. *)

From Stdlib Require Import ZArith List Lia Strings.Byte Strings.Ascii.
From stdpp Require Import base option list strings gmap.

Local Open Scope Z_scope.
Local Open Scope nat_scope.

(** ** Errors *)

(** The [syscall.Errno] values that occur in the model. *)
Inductive Errno : Type :=
| ENOENT | EEXIST | ENOTEMPTY | ENOTDIR | EISDIR | EACCES | EPERM | EBADF | EIO | ENOSPC.

(** Go [error] values: the two [io] sentinels, a [fs.PathError] wrapping an
    errno, and any other error ([errors.New]). *)
Inductive error : Type :=
| EOF
| ErrShortWrite
| PathError (op path : string) (errno : Errno)
| ErrorString (msg : string).

(** The [io/fs] sentinels that [errors.Is] is asked about. *)
Inductive fsError : Type := ErrNotExist | ErrExist | ErrPermission.

(** [syscall.Errno.Is]. *)
Definition Errno_Is (e : Errno) (target : fsError) : bool :=
  match target, e with
  | ErrPermission, (EACCES | EPERM) => true
  | ErrExist, (EEXIST | ENOTEMPTY) => true
  | ErrNotExist, ENOENT => true
  | _, _ => false
  end.

(** [errors.Is err target] for a target among the [fs] sentinels: [nil] is no
    sentinel, a [PathError] unwraps to its errno, the [io] sentinels and
    [errors.New] values are neither equal to the target nor wrap anything. *)
Definition errors_Is (err : option error) (target : fsError) : bool :=
  match err with
  | Some (PathError _ _ errno) => Errno_Is errno target
  | _ => false
  end.

(** [os.IsNotExist], used by the older revision of the package. *)
Definition os_IsNotExist (err : option error) : bool :=
  match err with
  | Some (PathError _ _ errno) => Errno_Is errno ErrNotExist
  | _ => false
  end.

(** [err == io.EOF]. *)
Definition is_EOF (e : error) : bool :=
  match e with EOF => true | _ => false end.

(** ** Outcomes of a call

    A call returns, panics (a slice bound or a nil dereference), or is still
    running when the fuel given to the model is used up. *)
Inductive Outcome (A : Type) : Type :=
| Ret (a : A)
| Panic
| OutOfFuel.
Arguments Ret {A} a.
Arguments Panic {A}.
Arguments OutOfFuel {A}.

#[global] Instance Outcome_ret : MRet Outcome := @Ret.
#[global] Instance Outcome_bind : MBind Outcome := fun A B k m =>
  match m with
  | Ret a => k a
  | Panic => Panic
  | OutOfFuel => OutOfFuel
  end.

(** ** [io.Reader] and [io.Writer]

    A stream object has a state of its own ([R], [W]: an offset, the bytes
    held) and may act on a shared world [Σ] (the file system).  [Read r n σ]
    is [r.Read(p)] with [len(p) = n]: it returns the bytes stored into
    [p[:nr]] and the error.  [Write w p σ] returns the count and the error. *)
Class Reader (Σ R : Type) := Read : R → nat → Σ → (list byte * option error) * R * Σ.
Class Writer (Σ W : Type) := Write : W → list byte → Σ → (nat * option error) * W * Σ.

(** ** [bufio] *)

Definition defaultBufSize : nat := 4096.

(** [bufio.Reader]: [r_buf] is [b.buf[b.r:b.w]], the bytes read ahead. *)
Record bufio_Reader (R : Type) : Type :=
  mkbufio_Reader { rd : R; r_buf : list byte; r_err : option error }.
Arguments mkbufio_Reader {R}.
Arguments rd {R}.
Arguments r_buf {R}.
Arguments r_err {R}.

Definition bufio_NewReader {R} (reader : R) : bufio_Reader R :=
  mkbufio_Reader reader [] None.

(** [Read] of [bufio.Reader].  A count above the length of the slice handed to
    the underlying reader makes [p[n-1]] or [b.buf[b.r:b.w]] panic. *)
Definition bufio_Read {Σ R} `{!Reader Σ R} (b : bufio_Reader R) (n : nat) (σ : Σ)
    : Outcome ((list byte * option error) * bufio_Reader R * Σ) :=
  if n =? 0 then
    if 0 <? length (r_buf b) then Ret (([], None), b, σ)
    else Ret (([], r_err b), mkbufio_Reader (rd b) (r_buf b) None, σ)
  else
    match r_buf b with
    | [] =>
        match r_err b with
        | Some e => Ret (([], Some e), mkbufio_Reader (rd b) [] None, σ)
        | None =>
            if defaultBufSize <=? n then
              (* Large read, empty buffer: read directly into p. *)
              let '((bs, e), rd', σ') := Read (rd b) n σ in
              if n <? length bs then Panic
              else Ret ((bs, e), mkbufio_Reader rd' [] None, σ')
            else
              (* One read into b.buf. *)
              let '((bs, e), rd', σ') := Read (rd b) defaultBufSize σ in
              if defaultBufSize <? length bs then Panic
              else if length bs =? 0 then Ret (([], e), mkbufio_Reader rd' [] None, σ')
              else Ret ((take n bs, None), mkbufio_Reader rd' (drop n bs) e, σ')
        end
    | buf => Ret ((take n buf, None), mkbufio_Reader (rd b) (drop n buf) (r_err b), σ)
    end.

(** [bufio.Writer]: [w_buf] is [b.buf[:b.n]], the bytes not yet flushed. *)
Record bufio_Writer (W : Type) : Type :=
  mkbufio_Writer { wr : W; w_buf : list byte; w_err : option error }.
Arguments mkbufio_Writer {W}.
Arguments wr {W}.
Arguments w_buf {W}.
Arguments w_err {W}.

Definition bufio_NewWriter {W} (writer : W) : bufio_Writer W :=
  mkbufio_Writer writer [] None.

Definition Available {W} (b : bufio_Writer W) : nat :=
  defaultBufSize - length (w_buf b).

(** [Flush] of [bufio.Writer]. *)
Definition bufio_Flush {Σ W} `{!Writer Σ W} (b : bufio_Writer W) (σ : Σ)
    : option error * bufio_Writer W * Σ :=
  match w_err b with
  | Some e => (Some e, b, σ)
  | None =>
      if length (w_buf b) =? 0 then (None, b, σ)
      else
        let '((n, err), wr', σ') := Write (wr b) (w_buf b) σ in
        let err :=
          match err with
          | None => if n <? length (w_buf b) then Some ErrShortWrite else None
          | Some e => Some e
          end in
        match err with
        | Some e => (Some e, mkbufio_Writer wr' (drop n (w_buf b)) (Some e), σ')
        | None => (None, mkbufio_Writer wr' [] None, σ')
        end
  end.

(** [Write] of [bufio.Writer]: the loop runs while [len(p) > b.Available()] and
    [b.err == nil]; [nn] is the count so far.  [p = p[n:]] panics when the
    underlying writer reports more than it was given. *)
Fixpoint bufio_Write {Σ W} `{!Writer Σ W} (fuel : nat) (b : bufio_Writer W)
    (p : list byte) (nn : nat) (σ : Σ)
    : Outcome ((nat * option error) * bufio_Writer W * Σ) :=
  match w_err b with
  | Some e => Ret ((nn, Some e), b, σ)
  | None =>
      if Available b <? length p then
        match fuel with
        | O => OutOfFuel
        | S fuel' =>
            if length (w_buf b) =? 0 then
              (* Large write, empty buffer: write directly from p. *)
              let '((n, e), wr', σ') := Write (wr b) p σ in
              if length p <? n then Panic
              else bufio_Write fuel' (mkbufio_Writer wr' [] e) (drop n p) (nn + n) σ'
            else
              let n := Nat.min (Available b) (length p) in
              let '(_, b', σ') :=
                bufio_Flush (mkbufio_Writer (wr b) (w_buf b ++ take n p) None) σ in
              bufio_Write fuel' b' (drop n p) (nn + n) σ'
        end
      else Ret ((nn + length p, None), mkbufio_Writer (wr b) (w_buf b ++ p) None, σ)
  end.

(** ** [buffedCopy] *)

(** [copiedSize] is a [uint64]. *)
Definition wrap64 (z : Z) : Z := (z mod 2 ^ 64)%Z.

(** The calls the loop makes on its buffered reader and writer, in order:
    a log kept beside the run, which the code's results do not depend on. *)
Inductive event : Type :=
| EvRead (size nr : nat) (err : option error)
| EvWrite (nr nw : nat) (err : option error)
| EvFlush (err : option error).

(** What a call of [buffedCopy] leaves behind: its two results, the log, the
    underlying reader and writer objects, and the world. *)
Record Run (Σ R W : Type) : Type := mkRun {
  copiedSize : Z;
  run_err : option error;
  run_trace : list event;
  run_reader : R;
  run_writer : W;
  run_world : Σ
}.
Arguments mkRun {Σ R W}.
Arguments copiedSize {Σ R W}.
Arguments run_err {Σ R W}.
Arguments run_trace {Σ R W}.
Arguments run_reader {Σ R W}.
Arguments run_writer {Σ R W}.
Arguments run_world {Σ R W}.

(** The [for] loop of [buffedCopy]; [fuel] bounds its iterations and [wfuel]
    those of each [bufferWriter.Write]. *)
Fixpoint buffedCopy_loop {Σ R W} `{!Reader Σ R} `{!Writer Σ W} (wfuel fuel : nat)
    (bufferSize : nat) (bufferReader : bufio_Reader R) (bufferWriter : bufio_Writer W)
    (copied : Z) (trace : list event) (σ : Σ) : Outcome (Run Σ R W) :=
  match fuel with
  | O => OutOfFuel
  | S fuel' =>
      '((bs, err), bufferReader, σ) ← bufio_Read bufferReader bufferSize σ;
      let nr := length bs in
      let trace := trace ++ [EvRead bufferSize nr err] in
      if match err with Some e => negb (is_EOF e) | None => false end
      then Ret (mkRun copied err trace (rd bufferReader) (wr bufferWriter) σ)
      else if nr =? 0 then
        let '(ferr, bufferWriter, σ) := bufio_Flush bufferWriter σ in
        Ret (mkRun copied None (trace ++ [EvFlush ferr])
               (rd bufferReader) (wr bufferWriter) σ)
      else
        '((nw, err), bufferWriter, σ) ← bufio_Write wfuel bufferWriter bs 0 σ;
        let trace := trace ++ [EvWrite nr nw err] in
        match err with
        | Some e =>
            Ret (mkRun copied (Some e) trace (rd bufferReader) (wr bufferWriter) σ)
        | None =>
            if negb (nr =? nw)
            then Ret (mkRun copied (Some ErrShortWrite) trace
                        (rd bufferReader) (wr bufferWriter) σ)
            else buffedCopy_loop wfuel fuel' bufferSize bufferReader bufferWriter
                   (wrap64 (copied + Z.of_nat nw)) trace σ
        end
  end.

(** [buffedCopy reader writer bufferSize]: [buffer] is [make([]byte,
    bufferSize)], of which only [buffer[:nr]] is ever used; the named result
    [err] is never assigned (the loop declares its own), so the [return]
    after the loop yields [nil]. *)
Definition buffedCopy {Σ R W} `{!Reader Σ R} `{!Writer Σ W} (fuel : nat)
    (reader : R) (writer : W) (bufferSize : nat) (σ : Σ) : Outcome (Run Σ R W) :=
  buffedCopy_loop fuel fuel bufferSize (bufio_NewReader reader) (bufio_NewWriter writer)
    0%Z [] σ.

(** ** The stream objects the package hands to [buffedCopy] *)

(** [bytes.Reader]: the slice [s] and the read index [i]. *)
Record bytes_Reader : Type := mkbytes_Reader { br_s : list byte; br_i : nat }.

Definition bytes_NewReader (b : list byte) : bytes_Reader := mkbytes_Reader b 0.

(** [Read] of [bytes.Reader]: [io.EOF] once [r.i >= len(r.s)], else
    [n = copy(b, r.s[r.i:])]. *)
Definition bytes_Reader_Read (r : bytes_Reader) (n : nat) : (list byte * option error) * bytes_Reader :=
  if length (br_s r) <=? br_i r then (([], Some EOF), r)
  else
    let bs := take n (drop (br_i r) (br_s r)) in
    ((bs, None), mkbytes_Reader (br_s r) (br_i r + length bs)).

#[global] Instance bytes_Reader_Reader {Σ} : Reader Σ bytes_Reader := fun r n σ =>
  let '(res, r') := bytes_Reader_Read r n in (res, r', σ).

(** [strings.Reader] reads the bytes of its string the same way. *)
Record strings_Reader : Type := mkstrings_Reader { sr_s : string; sr_i : nat }.

Definition strings_NewReader (s : string) : strings_Reader := mkstrings_Reader s 0.

Definition strings_Reader_Read (r : strings_Reader) (n : nat) : (list byte * option error) * strings_Reader :=
  let s := String.list_byte_of_string (sr_s r) in
  if length s <=? sr_i r then (([], Some EOF), r)
  else
    let bs := take n (drop (sr_i r) s) in
    ((bs, None), mkstrings_Reader (sr_s r) (sr_i r + length bs)).

#[global] Instance strings_Reader_Reader {Σ} : Reader Σ strings_Reader := fun r n σ =>
  let '(res, r') := strings_Reader_Read r n in (res, r', σ).

(** [bytes.Buffer], written to and never read from: [Bytes()] is all of it. *)
Record bytes_Buffer : Type := mkbytes_Buffer { Bytes : list byte }.

#[global] Instance bytes_Buffer_Writer {Σ} : Writer Σ bytes_Buffer := fun w p σ =>
  ((length p, None), mkbytes_Buffer (Bytes w ++ p), σ).

(** [[]byte(s)]. *)
Definition bytes_of (s : string) : list byte := String.list_byte_of_string s.

(** Two stand-ins for streams the package does not construct itself.

    A source that may return short reads: each call delivers at most the
    next bound of [cr_bounds] plus one byte (so at least one), and whole
    reads once the bounds are used up. *)
Record ChunkedReader : Type := mkChunkedReader { cr_data : list byte; cr_bounds : list nat }.

#[global] Instance ChunkedReader_Reader {Σ} : Reader Σ ChunkedReader := fun r n σ =>
  match cr_data r with
  | [] => (([], Some EOF), r, σ)
  | data =>
      let k := match cr_bounds r with [] => n | c :: _ => Nat.min n (S c) end in
      ((take k data, None), mkChunkedReader (drop k data) (tail (cr_bounds r)), σ)
  end.

(** A destination that follows a script: each call takes the next entry
    [(k, e)], accepts at most [k] bytes and reports [e]; with the script used
    up it accepts everything. *)
Record ScriptedWriter : Type :=
  mkScriptedWriter { sw_data : list byte; sw_script : list (nat * option error) }.

#[global] Instance ScriptedWriter_Writer {Σ} : Writer Σ ScriptedWriter := fun w p σ =>
  match sw_script w with
  | [] => ((length p, None), mkScriptedWriter (sw_data w ++ p) [], σ)
  | (k, e) :: script =>
      let n := Nat.min k (length p) in
      ((n, e), mkScriptedWriter (sw_data w ++ take n p) script, σ)
  end.


(** ** Well-behaved streams

    [Streams inv src dst] describes a source and a destination that do not
    interfere, as long as [inv] holds of the reader, the writer and the
    world: [src r σ] is what is still to be read from [r], [dst w σ] what
    has been delivered to [w].  A read of [n > 0] bytes returns a prefix of
    [src] of at most [n] bytes, not empty unless the source is exhausted,
    with no error but [io.EOF], which it gives when it returns nothing and
    may give with the last bytes; a write accepts all it is given. *)
Record Streams {Σ R W} `{!Reader Σ R} `{!Writer Σ W} (inv : R → W → Σ → Prop)
    (src : R → Σ → list byte) (dst : W → Σ → list byte) : Prop := {
  read_ok : ∀ r w σ n bs e r' σ',
    inv r w σ → 0 < n → Read r n σ = ((bs, e), r', σ') →
    inv r' w σ' ∧ src r σ = bs ++ src r' σ' ∧ length bs ≤ n ∧
    (src r σ ≠ [] → bs ≠ []) ∧ (bs = [] → e = Some EOF) ∧
    (e = None ∨ (e = Some EOF ∧ src r' σ' = [])) ∧
    dst w σ' = dst w σ;
  write_ok : ∀ r w σ p n e w' σ',
    inv r w σ → Write w p σ = ((n, e), w', σ') →
    inv r w' σ' ∧ n = length p ∧ e = None ∧
    dst w' σ' = dst w σ ++ p ∧ src r σ' = src r σ
}.

(** The buffered reader over a source: an error it keeps for later is
    [io.EOF], kept once the source has nothing left; [pending] is what it
    holds followed by what the source still has. *)
Definition reader_inv {Σ R} (src : R → Σ → list byte) (b : bufio_Reader R) (σ : Σ) : Prop :=
  r_err b = None ∨ (r_err b = Some EOF ∧ src (rd b) σ = []).

Definition pending {Σ R} (src : R → Σ → list byte) (b : bufio_Reader R) (σ : Σ) : list byte :=
  r_buf b ++ src (rd b) σ.

(** What a [bytes.Reader] has not returned yet. *)
Definition bytes_left (r : bytes_Reader) : list byte := drop (br_i r) (br_s r).

(** ** Logs of complete runs

    [written t] adds up the sizes of the buffered write calls of a log that
    reported no error, [delivered t] the counts of all of them: the bytes
    the buffered writer took in. *)
Definition event_written (ev : event) : Z :=
  match ev with EvWrite _ nw None => Z.of_nat nw | _ => 0%Z end.

Definition event_delivered (ev : event) : Z :=
  match ev with EvWrite _ nw _ => Z.of_nat nw | _ => 0%Z end.

Definition written (t : list event) : Z := foldr (λ ev z, (event_written ev + z)%Z) 0%Z t.
Definition delivered (t : list event) : Z := foldr (λ ev z, (event_delivered ev + z)%Z) 0%Z t.

(** [loop_log t c c' err]: [t] is the log of a loop that starts with
    [copiedSize = c] and returns [c'] and [err].  The four ways an iteration
    can go: the read fails, the read returns nothing, the buffered write
    reports an error, the buffered write takes in all that was read and the
    loop goes on. *)
Inductive loop_log : list event → Z → Z → option error → Prop :=
| log_read_error size nr e c :
    is_EOF e = false →
    loop_log [EvRead size nr (Some e)] c c (Some e)
| log_end size e ferr c :
    (e = None ∨ e = Some EOF) →
    loop_log [EvRead size 0 e; EvFlush ferr] c c None
| log_write_error size nr e nw e' c :
    (e = None ∨ e = Some EOF) → nr ≠ 0 → nw ≤ nr →
    loop_log [EvRead size nr e; EvWrite nr nw (Some e')] c c (Some e')
| log_step size nr e t c c' err :
    (e = None ∨ e = Some EOF) → nr ≠ 0 →
    loop_log t (wrap64 (c + Z.of_nat nr)) c' err →
    loop_log (EvRead size nr e :: EvWrite nr nr None :: t) c c' err.

(** ** [path/filepath] on a Unix build

    Paths are Go strings; [Separator] is the slash and there are no volume
    names.  The functions work on the characters of the string. *)

Definition chars (s : string) : list ascii := String.list_ascii_of_string s.
Definition str (cs : list ascii) : string := String.string_of_list_ascii cs.

Definition is_sep (c : ascii) : bool := Ascii.eqb c "/"%char.

(** The fields of a path between its separators, empty ones included:
    the fields of ["/a//b"] are [""], ["a"], [""], ["b"]. *)
Fixpoint fields (cs : list ascii) : list (list ascii) :=
  match cs with
  | [] => [[]]
  | c :: cs' =>
      if is_sep c then [] :: fields cs'
      else match fields cs' with
           | f :: fs => (c :: f) :: fs
           | [] => [[c]]
           end
  end.

Definition rooted (cs : list ascii) : bool :=
  match cs with c :: _ => is_sep c | [] => false end.

Definition dot : list ascii := ["."%char].
Definition dotdot : list ascii := ["."%char; "."%char].

Definition chars_eqb (a b : list ascii) : bool := String.eqb (str a) (str b).

(** One element of the path in [filepath.Clean]: [out] holds the elements
    kept so far, the last one first.  An empty element and [.] are dropped;
    [..] removes the element before it when there is one that is no [..],
    is kept at the start of a path that is not rooted, and is dropped at the
    root. *)
Definition clean_step (is_rooted : bool) (out : list (list ascii)) (f : list ascii)
    : list (list ascii) :=
  if chars_eqb f [] || chars_eqb f dot then out
  else if chars_eqb f dotdot then
    match out with
    | top :: out' =>
        if chars_eqb top dotdot then f :: out else out'
    | [] => if is_rooted then out else [f]
    end
  else f :: out.

Fixpoint join_sep (fs : list (list ascii)) : list ascii :=
  match fs with
  | [] => []
  | [f] => f
  | f :: fs' => f ++ "/"%char :: join_sep fs'
  end.

(** [filepath.Clean]. *)
Definition filepath_Clean (path : string) : string :=
  let cs := chars path in
  match cs with
  | [] => "."
  | _ =>
      let out := rev (foldl (clean_step (rooted cs)) [] (fields cs)) in
      if rooted cs then str ("/"%char :: join_sep out)
      else match out with
           | [] => "."
           | _ => str (join_sep out)
           end
  end.

(** [strings.Join(elem, "/")]. *)
Fixpoint strings_Join_sep (elem : list string) : string :=
  match elem with
  | [] => ""
  | [e] => e
  | e :: elem' => e +:+ "/" +:+ strings_Join_sep elem'
  end.

(** [filepath.Join]: the elements from the first non-empty one on, joined
    and cleaned; the empty string when there is none. *)
Fixpoint filepath_Join (elem : list string) : string :=
  match elem with
  | [] => ""
  | e :: elem' =>
      if String.eqb e "" then filepath_Join elem'
      else filepath_Clean (strings_Join_sep elem)
  end.

Fixpoint strip_trailing_seps_rev (rcs : list ascii) : list ascii :=
  match rcs with
  | c :: rcs' => if is_sep c then strip_trailing_seps_rev rcs' else rcs
  | [] => []
  end.

(** The characters after the last separator (all of them without one),
    and those up to and including it. *)
Fixpoint until_sep (rcs : list ascii) : list ascii :=
  match rcs with
  | c :: rcs' => if is_sep c then [] else c :: until_sep rcs'
  | [] => []
  end.
Fixpoint from_sep (rcs : list ascii) : list ascii :=
  match rcs with
  | c :: rcs' => if is_sep c then rcs else from_sep rcs'
  | [] => []
  end.
Definition after_last_sep (cs : list ascii) : list ascii := rev (until_sep (rev cs)).
Definition upto_last_sep (cs : list ascii) : list ascii := rev (from_sep (rev cs)).

(** [filepath.Base]. *)
Definition filepath_Base (path : string) : string :=
  match chars path with
  | [] => "."
  | cs =>
      let cs := rev (strip_trailing_seps_rev (rev cs)) in
      match after_last_sep cs with
      | [] => "/"
      | b => str b
      end
  end.

(** [filepath.Dir]. *)
Definition filepath_Dir (path : string) : string :=
  filepath_Clean (str (upto_last_sep (chars path))).

(** [filepath.IsAbs]. *)
Definition filepath_IsAbs (path : string) : bool := rooted (chars path).

(** ** The [os] package, as the interface the package consumes *)

(** [fs.FileInfo], as far as it is looked at. *)
Record FileInfo : Type := mkFileInfo { fi_Name : string; fi_Size : nat; fi_IsDir : bool }.

(** Flags of [os.OpenFile] (Linux values) and the package's permission bits. *)
Definition O_RDONLY : Z := 0.
Definition O_WRONLY : Z := 1.
Definition O_RDWR : Z := 2.
Definition O_CREATE : Z := 64.
Definition O_EXCL : Z := 128.
Definition O_TRUNC : Z := 512.
Definition O_APPEND : Z := 1024.
Definition DEFAULT_PERM : Z := 493. (* 0755 *)

Definition has_flag (flag bit : Z) : bool := negb (Z.land flag bit =? 0)%Z.
Definition accmode (flag : Z) : Z := Z.land flag 3.

(** The primitives of the operating system over a world [World], with open
    files [File].  [os_Stat] returns either the info or the error, as
    [os.Stat] returns [(info, nil)] or [(nil, err)]. *)
Class OS (World File : Type) := {
  os_Stat : string → World → FileInfo + error;
  os_Getwd : World → string + error;
  os_MkdirAll : string → Z → World → option error * World;
  os_OpenFile : string → Z → Z → World → (File + error) * World;
  File_Close : File → World → option error * World;
  File_Reader :: Reader World File;
  File_Writer :: Writer World File
}.

(** [os.Open] and [os.Create]. *)
Definition os_Open `{OS World File} (name : string) (w : World) : (File + error) * World :=
  os_OpenFile name O_RDONLY 0 w.
Definition os_Create `{OS World File} (name : string) (w : World) : (File + error) * World :=
  os_OpenFile name (Z.lor O_RDWR (Z.lor O_CREATE O_TRUNC)) 438 w.

(** [filepath.Abs]. *)
Definition filepath_Abs `{OS World File} (path : string) (w : World) : string * option error :=
  if filepath_IsAbs path then (filepath_Clean path, None)
  else match os_Getwd w with
       | inl wd => (filepath_Join [wd; path], None)
       | inr e => ("", Some e)
       end.

(** ** An in-memory file system

    The nodes of the tree by the list of names that leads to them from the
    root; every node is accessible (no permission bits), and there are no
    links. *)
Inductive node : Type :=
| RegFile (data : list byte)
| Directory.

Record MemFS : Type := mkMemFS { cwd : list string; nodes : gmap (list string) node }.

(** The names of a path, without the empty ones. *)
Definition names (path : string) : list string :=
  str <$> filter (λ f, f ≠ []) (fields (chars path)).

Definition trailing_sep (path : string) : bool :=
  match rev (chars path) with c :: _ => is_sep c | [] => false end.

(** Path resolution from the directory [cur] along [rest].  A name that is
    missing gives [ENOENT]; passing through a regular file gives [ENOTDIR]. *)
Fixpoint walk (m : gmap (list string) node) (cur rest : list string)
    : Errno + (list string * node) :=
  match m !! cur with
  | None => inl ENOENT
  | Some n =>
      match rest with
      | [] => inr (cur, n)
      | c :: rest' =>
          match n with
          | RegFile _ => inl ENOTDIR
          | Directory =>
              if String.eqb c "." then walk m cur rest'
              else if String.eqb c ".." then walk m (removelast cur) rest'
              else walk m (cur ++ [c]) rest'
          end
      end
  end.

Definition start_dir (w : MemFS) (path : string) : list string :=
  if rooted (chars path) then [] else cwd w.

(** The node a path names. *)
Definition resolve (w : MemFS) (path : string) : Errno + (list string * node) :=
  if String.eqb path "" then inl ENOENT
  else
    match walk (nodes w) (start_dir w path) (names path) with
    | inr (key, RegFile d) =>
        if trailing_sep path then inl ENOTDIR else inr (key, RegFile d)
    | r => r
    end.

(** Where a path that names nothing yet would be created: in the directory
    its other names lead to, under its last name. *)
Definition resolve_new (w : MemFS) (path : string) : Errno + list string :=
  match rev (names path) with
  | [] => inl ENOENT
  | last :: rinit =>
      match walk (nodes w) (start_dir w path) (rev rinit) with
      | inl e => inl e
      | inr (_, RegFile _) => inl ENOTDIR
      | inr (dir, Directory) =>
          if String.eqb last "." || String.eqb last ".." then inl ENOENT
          else if trailing_sep path then inl EISDIR
          else match nodes w !! (dir ++ [last]) with
               | None => inr (dir ++ [last])
               | Some _ => inl EEXIST
               end
      end
  end.

Definition MemFS_Stat (path : string) (w : MemFS) : FileInfo + error :=
  match resolve w path with
  | inl errno => inr (PathError "stat" path errno)
  | inr (_, RegFile d) => inl (mkFileInfo (filepath_Base path) (length d) false)
  | inr (_, Directory) => inl (mkFileInfo (filepath_Base path) 0 true)
  end.

Definition MemFS_Getwd (w : MemFS) : string + error :=
  match nodes w !! cwd w with
  | Some Directory => inl (str ("/"%char :: chars (strings_Join_sep (cwd w))))
  | _ => inr (PathError "getwd" "" ENOENT)
  end.

(** [os.MkdirAll]: the directories along the path, made where missing. *)
Fixpoint mkdir_walk (m : gmap (list string) node) (cur rest : list string)
    : Errno + gmap (list string) node :=
  match m !! cur with
  | None => inl ENOENT
  | Some (RegFile _) => inl ENOTDIR
  | Some Directory =>
      match rest with
      | [] => inr m
      | c :: rest' =>
          if String.eqb c "." then mkdir_walk m cur rest'
          else if String.eqb c ".." then mkdir_walk m (removelast cur) rest'
          else
            match m !! (cur ++ [c]) with
            | None => mkdir_walk (<[cur ++ [c] := Directory]> m) (cur ++ [c]) rest'
            | Some _ => mkdir_walk m (cur ++ [c]) rest'
            end
      end
  end.

Definition MemFS_MkdirAll (path : string) (perm : Z) (w : MemFS) : option error * MemFS :=
  if String.eqb path "" then (Some (PathError "mkdir" path ENOENT), w)
  else
    match mkdir_walk (nodes w) (start_dir w path) (names path) with
    | inl errno => (Some (PathError "mkdir" path errno), w)
    | inr m => (None, mkMemFS (cwd w) m)
    end.

(** An open file: the node it is open on, the flags and the offset. *)
Record MemFile : Type :=
  mkMemFile { f_name : string; f_key : list string; f_flag : Z; f_off : nat }.

Definition MemFS_OpenFile (name : string) (flag perm : Z) (w : MemFS)
    : (MemFile + error) * MemFS :=
  match resolve w name with
  | inr (key, Directory) =>
      if negb (accmode flag =? O_RDONLY)%Z || has_flag flag O_CREATE
      then (inr (PathError "open" name EISDIR), w)
      else (inl (mkMemFile name key flag 0), w)
  | inr (key, RegFile d) =>
      if has_flag flag O_CREATE && has_flag flag O_EXCL
      then (inr (PathError "open" name EEXIST), w)
      else if has_flag flag O_TRUNC
      then (inl (mkMemFile name key flag 0),
            mkMemFS (cwd w) (<[key := RegFile []]> (nodes w)))
      else (inl (mkMemFile name key flag 0), w)
  | inl ENOENT =>
      if has_flag flag O_CREATE then
        match resolve_new w name with
        | inr key =>
            (inl (mkMemFile name key flag 0),
             mkMemFS (cwd w) (<[key := RegFile []]> (nodes w)))
        | inl errno => (inr (PathError "open" name errno), w)
        end
      else (inr (PathError "open" name ENOENT), w)
  | inl errno => (inr (PathError "open" name errno), w)
  end.

(** [Read] of [os.File]: nothing for an empty slice, [io.EOF] at the end of
    the file, else the bytes from the offset on. *)
Definition MemFile_Read (f : MemFile) (n : nat) (w : MemFS)
    : (list byte * option error) * MemFile * MemFS :=
  if (accmode (f_flag f) =? O_WRONLY)%Z
  then (([], Some (PathError "read" (f_name f) EBADF)), f, w)
  else
    match nodes w !! f_key f with
    | Some (RegFile d) =>
        if n =? 0 then (([], None), f, w)
        else
          let bs := take n (drop (f_off f) d) in
          if length bs =? 0 then (([], Some EOF), f, w)
          else ((bs, None), mkMemFile (f_name f) (f_key f) (f_flag f) (f_off f + length bs), w)
    | Some Directory => (([], Some (PathError "read" (f_name f) EISDIR)), f, w)
    | None => (([], Some (PathError "read" (f_name f) EBADF)), f, w)
    end.

(** [Write] of [os.File]: at the end of the file under [O_APPEND], else at
    the offset, over what is there (zeros fill a gap). *)
Definition MemFile_Write (f : MemFile) (p : list byte) (w : MemFS)
    : (nat * option error) * MemFile * MemFS :=
  if (accmode (f_flag f) =? O_RDONLY)%Z
  then ((0, Some (PathError "write" (f_name f) EBADF)), f, w)
  else
    match nodes w !! f_key f with
    | Some (RegFile d) =>
        let pos := if has_flag (f_flag f) O_APPEND then length d else f_off f in
        let d' := take pos d ++ replicate (pos - length d) x00 ++ p
                    ++ drop (pos + length p) d in
        ((length p, None),
         mkMemFile (f_name f) (f_key f) (f_flag f) (pos + length p),
         mkMemFS (cwd w) (<[f_key f := RegFile d']> (nodes w)))
    | Some Directory => ((0, Some (PathError "write" (f_name f) EISDIR)), f, w)
    | None => ((0, Some (PathError "write" (f_name f) EBADF)), f, w)
    end.

#[global] Instance MemFS_OS : OS MemFS MemFile := {|
  os_Stat := MemFS_Stat;
  os_Getwd := MemFS_Getwd;
  os_MkdirAll := MemFS_MkdirAll;
  os_OpenFile := MemFS_OpenFile;
  File_Close := λ f w, (None, w);
  File_Reader := MemFile_Read;
  File_Writer := MemFile_Write
|}.

(** [os.ReadFile], to look at what a path holds. *)
Definition MemFS_ReadFile (path : string) (w : MemFS) : list byte + error :=
  match resolve w path with
  | inr (_, RegFile d) => inl d
  | inr (_, Directory) => inr (PathError "read" path EISDIR)
  | inl errno => inr (PathError "open" path errno)
  end.

(** [extends m m']: every node of [m] is still there in [m'], as a node of
    the same kind (the data of a regular file may differ). *)
Definition is_dir (n : node) : bool :=
  match n with Directory => true | RegFile _ => false end.

Definition extends (m m' : gmap (list string) node) : Prop :=
  ∀ k n, m !! k = Some n → ∃ n', m' !! k = Some n' ∧ is_dir n' = is_dir n.

(** What is left to read from an open file, what a file holds, and the
    part of it before the offset of an open file. *)
Definition file_left (r : MemFile) (σ : MemFS) : list byte :=
  match nodes σ !! f_key r with
  | Some (RegFile d) => drop (f_off r) d
  | _ => []
  end.

Definition file_data (w : MemFile) (σ : MemFS) : list byte :=
  match nodes σ !! f_key w with
  | Some (RegFile d) => d
  | _ => []
  end.

Definition file_written (w : MemFile) (σ : MemFS) : list byte :=
  take (f_off w) (file_data w σ).

(** An open file that is read: the regular file at [kp], holding [d0]. *)
Definition reading (kp : list string) (d0 : list byte) (r : MemFile) (σ : MemFS) : Prop :=
  f_key r = kp ∧ accmode (f_flag r) ≠ O_WRONLY ∧ nodes σ !! kp = Some (RegFile d0).

(** An open file that is written at its offset: the regular file at [kd],
    which held [old] when it was opened; past the offset it still does. *)
Definition writing (kd : list string) (old : list byte) (w : MemFile) (σ : MemFS) : Prop :=
  f_key w = kd ∧ accmode (f_flag w) ≠ O_RDONLY ∧ has_flag (f_flag w) O_APPEND = false ∧
  ∃ d, nodes σ !! kd = Some (RegFile d) ∧ f_off w ≤ length d ∧
       drop (f_off w) d = drop (f_off w) old.

(** The world of a transfer: it extends [m0], with the working directory [c0]. *)
Definition world_of (m0 : gmap (list string) node) (c0 : list string) (σ : MemFS) : Prop :=
  extends m0 (nodes σ) ∧ cwd σ = c0.

(** The invariants of the three kinds of transfer: file to file (two
    different files), memory to file, file to memory. *)
Definition file_inv (m0 : gmap (list string) node) (c0 kp kd : list string)
    (d0 old : list byte) (r w : MemFile) (σ : MemFS) : Prop :=
  reading kp d0 r σ ∧ writing kd old w σ ∧ kp ≠ kd ∧ world_of m0 c0 σ.

Definition write_inv (m0 : gmap (list string) node) (c0 kd : list string)
    (old : list byte) (r : bytes_Reader) (w : MemFile) (σ : MemFS) : Prop :=
  writing kd old w σ ∧ world_of m0 c0 σ.

Definition read_inv (m0 : gmap (list string) node) (c0 kp : list string)
    (d0 : list byte) (r : MemFile) (w : bytes_Buffer) (σ : MemFS) : Prop :=
  reading kp d0 r σ ∧ world_of m0 c0 σ.

(** ** The package: [type Path string] *)

Definition Path : Type := string.
Definition String (p : Path) : string := p.

Section Package.
Context {World File : Type} `{!OS World File}.

Definition pathWrapper (r : string * option error) : Path * option error := r.

Definition Abs (p : Path) (w : World) : Path * option error :=
  pathWrapper (filepath_Abs (String p) w).

Definition Base (p : Path) : string := filepath_Base (String p).
Definition Clean (p : Path) : Path := filepath_Clean (String p).
Definition Dir (p : Path) : Path := filepath_Dir (String p).

(** [elements[0] = p.String()], then the arguments. *)
Definition Join (p : Path) (element : list string) : Path :=
  filepath_Join (String p :: element).

Definition MkdirAll (p : Path) (perm : Z) (w : World) : option error * World :=
  os_MkdirAll (String p) perm w.
Definition Create (p : Path) (w : World) : (File + error) * World := os_Create (String p) w.
Definition Open (p : Path) (w : World) : (File + error) * World := os_Open (String p) w.
Definition OpenFile (p : Path) (flag perm : Z) (w : World) : (File + error) * World :=
  os_OpenFile (String p) flag perm w.
Definition Stat (p : Path) (w : World) : FileInfo + error := os_Stat (String p) w.

(** [IsExist]: [!errors.Is(err, fs.ErrNotExist)]. *)
Definition IsExist (p : Path) (w : World) : bool :=
  let err := match Stat p w with inl _ => None | inr e => Some e end in
  negb (errors_Is err ErrNotExist).

(** [IsDir]: [false] unless [errors.Is(err, fs.ErrExist)]; past the test
    [info.IsDir()] is called, on the nil [info] that comes with an error. *)
Definition IsDir (p : Path) (w : World) : Outcome bool :=
  match Stat p w with
  | inl info =>
      if negb (errors_Is None ErrExist) then Ret false else Ret (fi_IsDir info)
  | inr e =>
      if negb (errors_Is (Some e) ErrExist) then Ret false else Panic
  end.

(** [CopyToFile]; the deferred [Close] calls run last, the destination's
    first, and their errors go nowhere. *)
Definition CopyToFile (fuel : nat) (p destinationPath : Path) (bufferSize : nat) (w : World)
    : Outcome (Z * option error * World) :=
  let '(err, w) := MkdirAll (Dir destinationPath) DEFAULT_PERM w in
  if match err with Some _ => negb (errors_Is err ErrExist) | None => false end
  then Ret (0%Z, err, w)
  else
    match Open p w with
    | (inr err, w) => Ret (0%Z, Some err, w)
    | (inl source, w) =>
        match Create destinationPath w with
        | (inr err, w) =>
            let '(_, w) := File_Close source w in
            Ret (0%Z, Some err, w)
        | (inl destination, w) =>
            run ← buffedCopy fuel source destination bufferSize w;
            let '(_, w) := File_Close (run_writer run) (run_world run) in
            let '(_, w) := File_Close (run_reader run) w in
            Ret (copiedSize run, run_err run, w)
        end
    end.

Definition CopyToDirectory (fuel : nat) (p directoryPath : Path) (bufferSize : nat) (w : World)
    : Outcome (Path * Z * option error * World) :=
  let destinationPath := Join directoryPath [Base p] in
  '(copiedSize, err, w) ← CopyToFile fuel p destinationPath bufferSize w;
  Ret (destinationPath, copiedSize, err, w).

Definition AppendFile (fuel : nat) (p : Path) (data : string) (bufferSize : nat) (w : World)
    : Outcome (Z * option error * World) :=
  let reader := strings_NewReader data in
  match OpenFile p (Z.lor O_WRONLY (Z.lor O_CREATE O_APPEND)) DEFAULT_PERM w with
  | (inr err, w) => Ret (0%Z, Some err, w)
  | (inl file, w) =>
      run ← buffedCopy fuel reader file bufferSize w;
      let '(_, w) := File_Close (run_writer run) (run_world run) in
      Ret (copiedSize run, run_err run, w)
  end.

Definition BuffedReadFile (fuel : nat) (p : Path) (bufferSize : nat) (w : World)
    : Outcome (list byte * Z * option error * World) :=
  let writer := mkbytes_Buffer [] in
  match OpenFile p (Z.lor O_RDONLY O_CREATE) DEFAULT_PERM w with
  | (inr err, w) => Ret ([], 0%Z, Some err, w)
  | (inl file, w) =>
      run ← buffedCopy fuel file writer bufferSize w;
      let '(_, w) := File_Close (run_reader run) (run_world run) in
      Ret (Bytes (run_writer run), copiedSize run, run_err run, w)
  end.

Definition BuffedWriteFile (fuel : nat) (p : Path) (data : list byte) (bufferSize : nat)
    (w : World) : Outcome (Z * option error * World) :=
  let reader := bytes_NewReader data in
  match OpenFile p (Z.lor O_WRONLY O_CREATE) DEFAULT_PERM w with
  | (inr err, w) => Ret (0%Z, Some err, w)
  | (inl file, w) =>
      run ← buffedCopy fuel reader file bufferSize w;
      let '(_, w) := File_Close (run_writer run) (run_world run) in
      Ret (copiedSize run, run_err run, w)
  end.

End Package.

(** ** The older revision of the package (the first part of the file) *)

Module Legacy.
Section Package.
Context {World File : Type} `{!OS World File}.

(** [pathString, _ := filepath.Abs(string(path))]. *)
Definition Abs (path : Path) (w : World) : Path :=
  let '(pathString, _) := filepath_Abs path w in pathString.

Definition open (path : Path) (w : World) : FileInfo + error := os_Stat path w.

Definition IsExist (path : Path) (w : World) : bool :=
  let err := match open path w with inl _ => None | inr e => Some e end in
  negb (os_IsNotExist err).

(** [info, _ := path.open(); return info.IsDir()] when the path exists. *)
Definition IsDir (path : Path) (w : World) : Outcome bool :=
  if IsExist path w then
    match open path w with
    | inl info => Ret (fi_IsDir info)
    | inr _ => Panic
    end
  else Ret false.

End Package.
End Legacy.

(** ** A small world for the examples

    The root, the directory [/src] and the file [/src/report.txt] holding
    eleven bytes; the working directory is the root. *)
Definition demo_fs : MemFS :=
  mkMemFS []
    (<[ ["src"; "report.txt"] := RegFile (bytes_of "hello world") ]>
       (<[ ["src"] := Directory ]> {[ [] := Directory ]})).

(** The same tree seen from a working directory that has been removed. *)
Definition orphan_fs : MemFS := mkMemFS ["gone"] (nodes demo_fs).

(** ** More of the package: splitting a path and renaming its file *)

(** [filepath.Ext]: from the end of the path back to the last separator, the
    part from the last dot on.  [rcs] is the path read backwards, [acc] what
    has been passed. *)
Fixpoint ext_from (rcs acc : list ascii) : list ascii :=
  match rcs with
  | [] => []
  | c :: rcs' =>
      if is_sep c then []
      else if Ascii.eqb c "."%char then c :: acc
      else ext_from rcs' (c :: acc)
  end.

Definition filepath_Ext (path : string) : string := str (ext_from (rev (chars path)) []).

(** [filepath.Split]: the path up to and including its last separator, and
    the rest. *)
Definition filepath_Split (path : string) : string * string :=
  (str (upto_last_sep (chars path)), str (after_last_sep (chars path))).

(** [strings.HasSuffix] and [strings.TrimSuffix]. *)
Definition strings_HasSuffix (s suffix : string) : bool :=
  (String.length suffix <=? String.length s)
  && String.eqb (str (drop (String.length s - String.length suffix) (chars s))) suffix.

Definition strings_TrimSuffix (s suffix : string) : string :=
  if strings_HasSuffix s suffix
  then str (take (String.length s - String.length suffix) (chars s))
  else s.

Definition Ext (p : Path) : string := filepath_Ext (String p).

Definition Split (p : Path) : Path * string := filepath_Split (String p).

(** [SplitAll]: the directory, the file name without its extension, and the
    extension. *)
Definition SplitAll (p : Path) : Path * string * string :=
  let '(dir, filename) := Split p in
  let ext := filepath_Ext filename in
  (dir, strings_TrimSuffix filename ext, ext).

Definition AddPrefix (p : Path) (prefix : string) : Path :=
  let '(dir, filename) := Split p in
  Join dir [prefix +:+ filename].

Definition AddPostfix (p : Path) (postfix : string) : Path :=
  let '(dir, filename, ext) := SplitAll p in
  Join dir [filename +:+ postfix +:+ ext].

(** ** More stand-ins and invariants *)

(** A source that follows a script: each call takes the next entry
    [(bs, e)], returns at most as many of the bytes [bs] as it is asked for,
    and reports [e]; with the script used up it reports [io.EOF]. *)
Record ScriptedReader : Type :=
  mkScriptedReader { sr_script : list (list byte * option error) }.

#[global] Instance ScriptedReader_Reader {Σ} : Reader Σ ScriptedReader := fun r n σ =>
  match sr_script r with
  | [] => (([], Some EOF), r, σ)
  | (bs, e) :: script => ((take n bs, e), mkScriptedReader script, σ)
  end.

(** The bytes that the read calls of a log returned. *)
Definition event_read (ev : event) : nat :=
  match ev with EvRead _ nr _ => nr | _ => 0 end.

Definition read_total (t : list event) : nat := foldr (λ ev n, event_read ev + n) 0 t.

Definition is_flush (ev : event) : bool :=
  match ev with EvFlush _ => true | _ => false end.

(** What a [strings.Reader] has not returned yet. *)
Definition strings_left (r : strings_Reader) : list byte :=
  drop (sr_i r) (bytes_of (sr_s r)).

(** A transfer from memory to the end of the regular file at [kd], in the
    world [c0], [m0] where only that file changes. *)
Definition append_inv (m0 : gmap (list string) node) (c0 kd : list string)
    (r : strings_Reader) (w : MemFile) (σ : MemFS) : Prop :=
  f_key w = kd ∧ accmode (f_flag w) ≠ O_RDONLY ∧ has_flag (f_flag w) O_APPEND = true ∧
  cwd σ = c0 ∧ ∃ d, nodes σ = <[kd := RegFile d]> m0.

(** A transfer from the regular file at [kp] to memory, in a world that
    stays [w0]. *)
Definition load_inv (w0 : MemFS) (kp : list string) (d0 : list byte)
    (r : MemFile) (w : bytes_Buffer) (σ : MemFS) : Prop :=
  reading kp d0 r σ ∧ σ = w0.

(** A transfer from memory to the regular file at [kd], written at the
    offset, in the world [c0], [m0] where only that file changes. *)
Definition store_inv (m0 : gmap (list string) node) (c0 kd : list string)
    (old : list byte) (r : bytes_Reader) (w : MemFile) (σ : MemFS) : Prop :=
  writing kd old w σ ∧ cwd σ = c0 ∧ ∃ d, nodes σ = <[kd := RegFile d]> m0.

(** [grows σ σ']: the tree of [σ'] has every node of [σ], as a node of the
    same kind, and the working directory is the same. *)
Definition grows (σ σ' : MemFS) : Prop := extends (nodes σ) (nodes σ') ∧ cwd σ' = cwd σ.

(** A file name that [filepath.Clean] keeps as it is: not empty, without a
    separator, and neither [.] nor [..]. *)
Definition plain_name (s : string) : bool :=
  forallb (λ c, negb (is_sep c)) (chars s)
  && negb (String.eqb s "") && negb (String.eqb s ".") && negb (String.eqb s "..").

(** The stack of the loop of [filepath.Clean], the last element first, holds
    names without a separator that are neither empty nor [.]; [..] stands
    only over other [..], in a path that is not rooted. *)
Definition plain (f : list ascii) : Prop :=
  Forall (λ c, is_sep c = false) f ∧
  chars_eqb f [] = false ∧ chars_eqb f dot = false ∧ chars_eqb f dotdot = false.

Inductive canonical (r : bool) : list (list ascii) → Prop :=
| canonical_nil : canonical r []
| canonical_dotdot out :
    r = false → Forall (λ f, f = dotdot) out → canonical r (dotdot :: out)
| canonical_plain f out :
    plain f → canonical r out → canonical r (f :: out).

Definition IsAbs (p : Path) : bool := filepath_IsAbs (String p).

(** A transfer from the regular file at [kp] to the regular file at [kd],
    another one, written at the offset, in the world [c0], [m0] where only
    the second file changes. *)
Definition copy_inv (m0 : gmap (list string) node) (c0 kp kd : list string)
    (d0 old : list byte) (r w : MemFile) (σ : MemFS) : Prop :=
  reading kp d0 r σ ∧ writing kd old w σ ∧ kp ≠ kd ∧
  cwd σ = c0 ∧ ∃ d, nodes σ = <[kd := RegFile d]> m0.

(** ** [SplitList]

    [filepath.SplitList] on a Unix build: no path for the empty string, else
    [strings.Split(path, ":")], the parts between the colons. *)
Definition ListSeparator : ascii := ":"%char.

Fixpoint list_fields (cs : list ascii) : list (list ascii) :=
  match cs with
  | [] => [[]]
  | c :: cs' =>
      if Ascii.eqb c ListSeparator then [] :: list_fields cs'
      else match list_fields cs' with
           | f :: fs => (c :: f) :: fs
           | [] => [[c]]
           end
  end.

Definition filepath_SplitList (path : string) : list string :=
  if String.eqb path "" then [] else str <$> list_fields (chars path).

(** [SplitList]: [resultPaths] is [make([]Path, len(paths))], filled by the
    loop at the indices of [paths]. *)
Definition SplitList (path : string) : list Path :=
  let paths := filepath_SplitList path in
  let resultPaths := replicate (length paths) ("" : Path) in
  foldl (λ resultPaths ip, <[ip.1 := (ip.2 : Path)]> resultPaths) resultPaths
    (zip (seq 0 (length paths)) paths).

(** [strings.Join]. *)
Fixpoint strings_Join (elems : list string) (sep : string) : string :=
  match elems with
  | [] => ""
  | [e] => e
  | e :: elems' => e +:+ sep +:+ strings_Join elems' sep
  end.

(** * Properties *)

(** ** The buffered reader and writer over well-behaved streams *)

Section Lawful.
Context {Σ R W : Type} `{!Reader Σ R} `{!Writer Σ W}.
Context (inv : R → W → Σ → Prop) (src : R → Σ → list byte) (dst : W → Σ → list byte).
Hypothesis lawful : Streams inv src dst.

Lemma bufio_Write_nil (fuel : nat) (b : bufio_Writer W) nn (σ : Σ) :
  w_err b = None →
  bufio_Write fuel b [] nn σ
  = Ret ((nn + 0, None), mkbufio_Writer (wr b) (w_buf b ++ []) None, σ).
Proof.
  intros Herr.
  destruct fuel; cbn [bufio_Write length]; rewrite Herr;
    by replace (Available b <? 0) with false by (symmetry; apply Nat.ltb_ge; lia).
Qed.

Lemma bufio_Flush_lawful (r : R) (b : bufio_Writer W) (σ : Σ) :
  inv r (wr b) σ → w_err b = None →
  ∃ b' σ', bufio_Flush b σ = (None, b', σ') ∧ inv r (wr b') σ' ∧
    w_err b' = None ∧ w_buf b' = [] ∧
    dst (wr b') σ' = dst (wr b) σ ++ w_buf b ∧ src r σ' = src r σ.
Proof.
  intros Hinv Herr. unfold bufio_Flush. rewrite Herr.
  destruct (length (w_buf b) =? 0) eqn:Hbuf.
  - apply Nat.eqb_eq, nil_length_inv in Hbuf.
    exists b, σ. rewrite Hbuf, app_nil_r. repeat split; auto.
  - destruct (Write (wr b) (w_buf b) σ) as [[[n e] w'] σ'] eqn:Hw.
    destruct (write_ok _ _ _ lawful _ _ _ _ _ _ _ _ Hinv Hw) as (Hinv' & -> & -> & Hd & Hs).
    rewrite Nat.ltb_irrefl. eexists _, _. split; [reflexivity|]. simpl.
    repeat split; auto.
Qed.

Lemma bufio_Write_lawful_empty (fuel : nat) (r : R) (b : bufio_Writer W)
    (p : list byte) nn (σ : Σ) :
  1 ≤ fuel → inv r (wr b) σ → w_err b = None → w_buf b = [] →
  ∃ b' σ', bufio_Write fuel b p nn σ = Ret ((nn + length p, None), b', σ') ∧
    inv r (wr b') σ' ∧ w_err b' = None ∧ length (w_buf b') ≤ defaultBufSize ∧
    dst (wr b') σ' ++ w_buf b' = dst (wr b) σ ++ p ∧ src r σ' = src r σ.
Proof.
  intros Hfuel Hinv Herr Hbuf. destruct fuel as [|fuel]; [lia|].
  cbn [bufio_Write]. rewrite Herr. unfold Available. rewrite Hbuf. cbn [length].
  rewrite Nat.sub_0_r.
  destruct (defaultBufSize <? length p) eqn:Hlt.
  - cbn [Nat.eqb].
    destruct (Write (wr b) p σ) as [[[n e] w'] σ'] eqn:Hw.
    destruct (write_ok _ _ _ lawful _ _ _ _ _ _ _ _ Hinv Hw) as (Hinv' & -> & -> & Hd & Hs).
    rewrite Nat.ltb_irrefl, drop_all, bufio_Write_nil by done.
    eexists _, _. split; [rewrite Nat.add_0_r; reflexivity|].
    simpl. rewrite app_nil_r. repeat split; auto; lia.
  - apply Nat.ltb_ge in Hlt.
    eexists _, _. split; [reflexivity|]. simpl. repeat split; auto.
Qed.

Lemma bufio_Write_lawful (fuel : nat) (r : R) (b : bufio_Writer W)
    (p : list byte) nn (σ : Σ) :
  2 ≤ fuel → inv r (wr b) σ → w_err b = None → length (w_buf b) ≤ defaultBufSize →
  ∃ b' σ', bufio_Write fuel b p nn σ = Ret ((nn + length p, None), b', σ') ∧
    inv r (wr b') σ' ∧ w_err b' = None ∧ length (w_buf b') ≤ defaultBufSize ∧
    dst (wr b') σ' ++ w_buf b' = dst (wr b) σ ++ w_buf b ++ p ∧
    src r σ' = src r σ.
Proof.
  intros Hfuel Hinv Herr Hlen.
  destruct (length (w_buf b) =? 0) eqn:Hbuf.
  { apply Nat.eqb_eq, nil_length_inv in Hbuf. rewrite Hbuf.
    apply bufio_Write_lawful_empty; auto. lia. }
  destruct fuel as [|fuel]; [lia|].
  cbn [bufio_Write]. rewrite Herr, Hbuf.
  destruct (Available b <? length p) eqn:Hlt.
  - apply Nat.ltb_lt in Hlt. rewrite Nat.min_l by lia.
    set (b1 := mkbufio_Writer (wr b) (w_buf b ++ take (Available b) p) None).
    destruct (bufio_Flush_lawful r b1 σ Hinv eq_refl)
      as (b' & σ' & Hf & Hinv' & He' & Hb' & Hd & Hs).
    rewrite Hf.
    destruct (bufio_Write_lawful_empty fuel r b' (drop (Available b) p)
                (nn + Available b) σ')
      as (b2 & σ2 & Hw & Hinv2 & He2 & Hl2 & Hd2 & Hs2); auto; [lia|].
    exists b2, σ2. split.
    { rewrite Hw. rewrite length_drop. do 4 f_equal. lia. }
    repeat split; auto.
    + rewrite Hd2, Hd. subst b1. simpl. rewrite <- !app_assoc.
      by rewrite take_drop.
    + by rewrite Hs2, Hs.
  - apply Nat.ltb_ge in Hlt. unfold Available in Hlt.
    eexists _, _. split; [reflexivity|]. simpl.
    repeat split; auto. rewrite length_app. lia.
Qed.

(** The buffered reader over a well-behaved source. *)
Lemma bufio_Read_lawful (b : bufio_Reader R) (w : W) (n : nat) (σ : Σ) :
  1 ≤ n → inv (rd b) w σ → reader_inv src b σ →
  ∃ bs e b' σ', bufio_Read b n σ = Ret ((bs, e), b', σ') ∧
    inv (rd b') w σ' ∧ reader_inv src b' σ' ∧ pending src b σ = bs ++ pending src b' σ' ∧
    (e = None ∨ e = Some EOF) ∧ (bs = [] → pending src b σ = []) ∧
    dst w σ' = dst w σ.
Proof.
  intros Hn Hi Hinv. unfold bufio_Read, pending.
  destruct (n =? 0) eqn:Hn0; [apply Nat.eqb_eq in Hn0; lia|].
  destruct (r_buf b) as [|x buf] eqn:Hbuf.
  - destruct Hinv as [Hinv|[Hinv Hsrc]]; rewrite Hinv.
    + assert (Hsize : 0 < defaultBufSize) by (unfold defaultBufSize; lia).
      assert (Hpos : 0 < n) by lia.
      destruct (defaultBufSize <=? n) eqn:Hbig.
      * destruct (Read (rd b) n σ) as [[[bs e] r'] σ'] eqn:Hr.
        destruct (read_ok _ _ _ lawful _ _ _ _ _ _ _ _ Hi Hpos Hr)
          as (Hi' & Hpre & Hle & Hprog & Hnil & He & Hframe).
        replace (n <? length bs) with false by (symmetry; apply Nat.ltb_ge; lia).
        exists bs, e, (mkbufio_Reader r' [] None), σ'. simpl.
        split; [done|]. split; [done|]. split; [by left|]. split; [done|].
        split; [destruct He as [?|[? _]]; auto|]. split; [|done].
        intros ->. destruct (src (rd b) σ); [done|]. by destruct Hprog.
      * destruct (Read (rd b) defaultBufSize σ) as [[[bs e] r'] σ'] eqn:Hr.
        destruct (read_ok _ _ _ lawful _ _ _ _ _ _ _ _ Hi Hsize Hr)
          as (Hi' & Hpre & Hle & Hprog & Hnil & He & Hframe).
        replace (defaultBufSize <? length bs) with false
          by (symmetry; apply Nat.ltb_ge; lia).
        destruct (length bs =? 0) eqn:Hbs.
        -- apply Nat.eqb_eq, nil_length_inv in Hbs. subst bs.
           exists [], e, (mkbufio_Reader r' [] None), σ'. simpl.
           split; [done|]. split; [done|]. split; [by left|]. split; [done|].
           split; [destruct He as [?|[? _]]; auto|]. split; [|done].
           intros _. destruct (src (rd b) σ); [done|]. by destruct Hprog.
        -- exists (take n bs), None, (mkbufio_Reader r' (drop n bs) e), σ'. simpl.
           split; [done|]. split; [done|].
           split; [unfold reader_inv; simpl; tauto|].
           split; [by rewrite app_assoc, take_drop|].
           split; [by left|]. split; [|done].
           intros Ht. apply Nat.eqb_neq in Hbs. destruct bs; [done|].
           destruct n; [lia|done].
    + exists [], (Some EOF), (mkbufio_Reader (rd b) [] None), σ. simpl.
      split; [done|]. split; [done|]. split; [by left|]. split; [done|].
      split; [by right|]. done.
  - exists (take n (x :: buf)), None,
      (mkbufio_Reader (rd b) (drop n (x :: buf)) (r_err b)), σ. simpl.
    split; [done|]. split; [done|]. split; [done|].
    split; [by rewrite app_assoc, take_drop|].
    split; [by left|]. split; [|done].
    destruct n; [lia|done].
Qed.

(** The loop over well-behaved streams ends after at most one iteration per
    pending byte plus the one that sees the end of the source. *)
Lemma buffedCopy_loop_lawful (wfuel fuel bufferSize : nat) (bR : bufio_Reader R)
    (bW : bufio_Writer W) (copied : Z) (trace : list event) (σ : Σ) :
  1 ≤ bufferSize → 2 ≤ wfuel → length (pending src bR σ) < fuel →
  inv (rd bR) (wr bW) σ →
  reader_inv src bR σ → w_err bW = None → length (w_buf bW) ≤ defaultBufSize →
  (0 ≤ copied < 2 ^ 64)%Z →
  ∃ run, buffedCopy_loop wfuel fuel bufferSize bR bW copied trace σ = Ret run ∧
    copiedSize run = wrap64 (copied + Z.of_nat (length (pending src bR σ))) ∧
    run_err run = None ∧
    inv (run_reader run) (run_writer run) (run_world run) ∧
    dst (run_writer run) (run_world run) = dst (wr bW) σ ++ w_buf bW ++ pending src bR σ ∧
    src (run_reader run) (run_world run) = [].
Proof.
  intros HB Hwf. revert bR bW copied trace σ.
  induction fuel as [|fuel IH];
    intros bR bW copied trace σ Hfuel Hi Hinv Hwerr Hwlen Hcopied; [lia|].
  cbn [buffedCopy_loop].
  destruct (bufio_Read_lawful bR (wr bW) bufferSize σ HB Hi Hinv)
    as (bs & e & bR' & σ1 & Hread & Hi1 & Hinv' & Hpend & He & Hnil & Hframe).
  rewrite Hread. cbn [mbind Outcome_bind].
  assert (He' : match e with Some e0 => negb (is_EOF e0) | None => false end = false)
    by (destruct He as [->| ->]; done).
  rewrite He'.
  destruct (length bs =? 0) eqn:Hbs.
  - apply Nat.eqb_eq, nil_length_inv in Hbs. subst bs.
    rewrite (Hnil eq_refl) in *. simpl in Hpend.
    destruct (bufio_Flush_lawful (rd bR') bW σ1 Hi1 Hwerr)
      as (bW' & σ2 & Hf & Hi2 & _ & _ & Hd & Hs).
    rewrite Hf. eexists. split; [reflexivity|]. simpl.
    rewrite Z.add_0_r, app_nil_r, Hd, Hframe.
    split; [|split; [done|split; [done|split; [done|]]]].
    + unfold wrap64. by rewrite Z.mod_small.
    + rewrite Hs. symmetry in Hpend. apply app_eq_nil in Hpend as [_ Hsrc].
      exact Hsrc.
  - destruct (bufio_Write_lawful wfuel (rd bR') bW bs 0 σ1 Hwf Hi1 Hwerr Hwlen)
      as (bW' & σ2 & Hw & Hi2 & Hwerr' & Hwlen' & Hd & Hs).
    rewrite Hw. cbn [mbind Outcome_bind]. rewrite Nat.add_0_l, Nat.eqb_refl.
    cbn [negb].
    assert (Hpend' : pending src bR' σ2 = pending src bR' σ1) by (unfold pending; by rewrite Hs).
    apply Nat.eqb_neq in Hbs.
    destruct (IH bR' bW' (wrap64 (copied + Z.of_nat (length bs)))
                (((trace ++ [EvRead bufferSize (length bs) e])
                    ++ [EvWrite (length bs) (length bs) None])) σ2)
      as (run & Hrun & Hsize & Herr & Hifin & Hdst & Hsrc).
    + rewrite Hpend'. rewrite Hpend, length_app in Hfuel. lia.
    + done.
    + destruct Hinv' as [?|[? ?]]; [by left|right]. by rewrite Hs.
    + done.
    + done.
    + unfold wrap64. apply Z.mod_pos_bound. lia.
    + exists run. split; [done|]. rewrite Hsize, Herr, Hdst, Hsrc, Hpend'.
      split; [|split; [done|split; [done|split; [|done]]]].
      * rewrite Hpend, length_app, Nat2Z.inj_add. unfold wrap64.
        rewrite Zplus_mod_idemp_l. f_equal. lia.
      * rewrite Hpend. rewrite app_assoc, Hd, Hframe. by rewrite <- !app_assoc.
Qed.

(** Total correctness of [buffedCopy] on well-behaved streams, for any
    length of the source. *)
Lemma buffedCopy_lawful (fuel bufferSize : nat) (reader : R) (writer : W) (σ : Σ) :
  inv reader writer σ →
  1 ≤ bufferSize → length (src reader σ) + 2 ≤ fuel →
  ∃ run, buffedCopy fuel reader writer bufferSize σ = Ret run ∧
    copiedSize run = wrap64 (Z.of_nat (length (src reader σ))) ∧
    run_err run = None ∧
    inv (run_reader run) (run_writer run) (run_world run) ∧
    dst (run_writer run) (run_world run) = dst writer σ ++ src reader σ ∧
    src (run_reader run) (run_world run) = [].
Proof.
  intros Hinv HB Hfuel. unfold buffedCopy.
  destruct (buffedCopy_loop_lawful fuel fuel bufferSize (bufio_NewReader reader)
              (bufio_NewWriter writer) 0%Z [] σ) as (run & Hrun & Hrest); auto.
  - lia.
  - unfold pending. simpl. lia.
  - by left.
  - simpl. lia.
  - lia.
  - exists run. split; [done|]. by rewrite Z.add_0_l in Hrest.
Qed.

End Lawful.

(** ** Every run: the log of the loop *)

Section Runs.
Context {Σ R W : Type} `{!Reader Σ R} `{!Writer Σ W}.

(** A buffered write never reports more than it was given, and reports all
    of it when it reports no error. *)
Lemma bufio_Write_count (fuel : nat) (b : bufio_Writer W) (p : list byte) nn (σ : Σ)
    nw err b' σ' :
  bufio_Write fuel b p nn σ = Ret ((nw, err), b', σ') →
  nw ≤ nn + length p ∧ (err = None → nw = nn + length p).
Proof.
  revert b p nn σ.
  induction fuel as [|fuel IH]; intros b p nn σ; cbn [bufio_Write].
  - destruct (w_err b); [intros [= <- <- <- <-]; split; [lia|done]|].
    destruct (Available b <? length p); [done|].
    intros [= <- <- <- <-]. split; [lia|done].
  - destruct (w_err b); [intros [= <- <- <- <-]; split; [lia|done]|].
    destruct (Available b <? length p) eqn:Hlt;
      [|intros [= <- <- <- <-]; split; [lia|done]].
    destruct (length (w_buf b) =? 0).
    + destruct (Write (wr b) p σ) as [[[n e] w1] σ1].
      destruct (length p <? n) eqn:Hn; [done|].
      apply Nat.ltb_ge in Hn. intros Hrec. apply IH in Hrec as [Hle Hfull].
      rewrite length_drop in Hle, Hfull. split; [lia|]. intros He.
      specialize (Hfull He). lia.
    + destruct (bufio_Flush _ σ) as [[ferr b1] σ1].
      intros Hrec. apply IH in Hrec as [Hle Hfull].
      rewrite length_drop in Hle, Hfull. apply Nat.ltb_lt in Hlt.
      split; [lia|]. intros He. specialize (Hfull He). lia.
Qed.

Lemma buffedCopy_loop_log (wfuel fuel bufferSize : nat) (bR : bufio_Reader R)
    (bW : bufio_Writer W) (copied : Z) (trace : list event) (σ : Σ) run :
  buffedCopy_loop wfuel fuel bufferSize bR bW copied trace σ = Ret run →
  ∃ t, run_trace run = trace ++ t ∧ loop_log t copied (copiedSize run) (run_err run).
Proof.
  revert bR bW copied trace σ.
  induction fuel as [|fuel IH]; intros bR bW copied trace σ; cbn [buffedCopy_loop]; [done|].
  destruct (bufio_Read bR bufferSize σ) as [[[[bs e] bR'] σ1]| |]; [|done..].
  cbn [mbind Outcome_bind].
  destruct (match e with Some e0 => negb (is_EOF e0) | None => false end) eqn:He.
  { intros [= <-]. simpl. destruct e as [e|]; [|done].
    eexists. split; [done|]. constructor. by destruct (is_EOF e). }
  assert (He' : e = None ∨ e = Some EOF).
  { destruct e as [[]|]; simpl in He; auto; done. }
  destruct (length bs =? 0) eqn:Hbs.
  { destruct (bufio_Flush bW σ1) as [[ferr bW'] σ2]. intros [= <-]. simpl.
    apply Nat.eqb_eq in Hbs. rewrite Hbs.
    exists [EvRead bufferSize 0 e; EvFlush ferr]. split; [by rewrite <- app_assoc|].
    by constructor. }
  apply Nat.eqb_neq in Hbs.
  destruct (bufio_Write wfuel bW bs 0 σ1) as [[[[nw werr] bW'] σ2]| |] eqn:Hw; [|done..].
  cbn [mbind Outcome_bind].
  apply bufio_Write_count in Hw as [Hle Hfull]. simpl in Hle, Hfull.
  destruct werr as [e'|].
  { intros [= <-]. simpl.
    exists [EvRead bufferSize (length bs) e; EvWrite (length bs) nw (Some e')].
    split; [by rewrite <- app_assoc|]. by constructor. }
  rewrite (Hfull eq_refl), Nat.eqb_refl. cbn [negb].
  intros Hrec. apply IH in Hrec as (t & Ht & Hlog).
  exists (EvRead bufferSize (length bs) e :: EvWrite (length bs) (length bs) None :: t).
  split; [by rewrite Ht, <- !app_assoc|]. by constructor.
Qed.

Lemma buffedCopy_log (fuel bufferSize : nat) (reader : R) (writer : W) (σ : Σ) run :
  buffedCopy fuel reader writer bufferSize σ = Ret run →
  loop_log (run_trace run) 0 (copiedSize run) (run_err run).
Proof.
  intros Hrun. apply buffedCopy_loop_log in Hrun as (t & -> & Hlog). done.
Qed.

End Runs.

(** What a log says about the count. *)
Lemma written_nonneg (t : list event) : (0 ≤ written t)%Z.
Proof.
  induction t as [|[| ? ? []|] t IH]; simpl; lia.
Qed.

Lemma written_le_delivered (t : list event) : (written t ≤ delivered t)%Z.
Proof.
  induction t as [|[| ? ? []|] t IH]; simpl; lia.
Qed.

Lemma loop_log_count (t : list event) (c c' : Z) (err : option error) :
  loop_log t c c' err → (0 ≤ c < 2 ^ 64)%Z →
  c' = wrap64 (c + written t).
Proof.
  induction 1 as [size nr e c Heof|size e ferr c He|size nr e nw e' c He Hnr Hle
                 |size nr e t c c' err He Hnr Hlog IH]; intros Hc.
  - simpl. unfold wrap64. rewrite Z.add_0_r, Z.mod_small; lia.
  - simpl. unfold wrap64. rewrite Z.add_0_r, Z.mod_small; lia.
  - simpl. unfold wrap64. rewrite Z.add_0_r, Z.mod_small; lia.
  - rewrite IH by (unfold wrap64; apply Z.mod_pos_bound; lia).
    simpl. unfold wrap64. rewrite Zplus_mod_idemp_l. f_equal. lia.
Qed.

Lemma loop_log_errors (t : list event) (c c' : Z) (err : option error) :
  loop_log t c c' err →
  ∀ ev, ev ∈ t →
    match ev with
    | EvRead _ _ (Some e) => is_EOF e = false → err = Some e
    | EvWrite _ _ (Some e) => err = Some e
    | _ => True
    end.
Proof.
  induction 1 as [size nr e c Heof|size e ferr c He|size nr e nw e' c He Hnr Hle
                 |size nr e t c c' err He Hnr Hlog IH]; intros ev Hev.
  - apply list_elem_of_singleton in Hev as ->. done.
  - apply elem_of_cons in Hev as [->|Hev].
    + destruct He as [->| ->]; done.
    + apply list_elem_of_singleton in Hev as ->. done.
  - apply elem_of_cons in Hev as [->|Hev].
    + destruct He as [->| ->]; done.
    + apply list_elem_of_singleton in Hev as ->. done.
  - apply elem_of_cons in Hev as [->|Hev].
    { destruct He as [->| ->]; done. }
    apply elem_of_cons in Hev as [->|Hev]; [done|]. by apply IH.
Qed.

(** A buffered write of the loop that takes in fewer bytes than were read
    comes with an error, is the last call of the run, and its error is the
    error of the run. *)
Lemma loop_log_short_write (t : list event) (c c' : Z) (err : option error) :
  loop_log t c c' err →
  ∀ nr nw e, EvWrite nr nw e ∈ t → nw ≠ nr →
    e = err ∧ (∃ e', err = Some e') ∧ last t = Some (EvWrite nr nw e).
Proof.
  induction 1 as [size nr0 e0 c Heof|size e0 ferr c He|size nr0 e0 nw0 e' c He Hnr Hle
                 |size nr0 e0 t c c' err He Hnr Hlog IH]; intros nr nw e Hev Hne.
  - by apply list_elem_of_singleton in Hev.
  - apply elem_of_cons in Hev as [?|Hev]; [done|].
    by apply list_elem_of_singleton in Hev.
  - apply elem_of_cons in Hev as [?|Hev]; [done|].
    apply list_elem_of_singleton in Hev as [= -> -> ->]. eauto.
  - apply elem_of_cons in Hev as [?|Hev]; [done|].
    apply elem_of_cons in Hev as [[= -> -> ->]|Hev]; [done|].
    destruct (IH nr nw e Hev Hne) as (-> & Herr & Hlast).
    split; [done|]. split; [done|].
    destruct t; [done|]. exact Hlast.
Qed.

(** ** The streams of the package are well-behaved *)

Lemma take_drop_length {A} (n : nat) (l : list A) :
  drop (length (take n l)) l = drop n l.
Proof.
  rewrite length_take. destruct (Nat.le_gt_cases n (length l)).
  - by rewrite Nat.min_l.
  - rewrite Nat.min_r by lia. by rewrite !drop_ge by lia.
Qed.

Lemma bytes_streams {Σ} :
  Streams (Σ:=Σ) (λ _ _ _, True) (λ r _, bytes_left r) (λ w _, Bytes w).
Proof.
  split.
  - intros r w σ n bs e r' σ' _ Hn. unfold Read, bytes_Reader_Reader, bytes_Reader_Read.
    unfold bytes_left.
    destruct (length (br_s r) <=? br_i r) eqn:Hend.
    + apply Nat.leb_le in Hend. intros [= <- <- <- <-].
      rewrite drop_ge by done. repeat split; auto. simpl. lia.
    + apply Nat.leb_gt in Hend. intros [= <- <- <- <-]. simpl.
      split; [done|]. split.
      { rewrite <- drop_drop, take_drop_length. by rewrite take_drop. }
      split; [rewrite length_take; lia|].
      split.
      { intros _. destruct (drop (br_i r) (br_s r)) eqn:Hd.
        - apply (f_equal length) in Hd. rewrite length_drop in Hd. simpl in Hd. lia.
        - destruct n; [lia|done]. }
      split; [|by auto].
      intros Ht. apply (f_equal length) in Ht. rewrite length_take, length_drop in Ht.
      simpl in Ht. lia.
  - intros r w σ p n e w' σ' _. unfold Write, bytes_Buffer_Writer.
    intros [= <- <- <- <-]. auto.
Qed.

Lemma chunked_streams {Σ} :
  Streams (Σ:=Σ) (λ _ _ _, True) (λ (r : ChunkedReader) _, cr_data r) (λ w _, Bytes w).
Proof.
  split.
  - intros r w σ n bs e r' σ' _ Hn. unfold Read, ChunkedReader_Reader.
    destruct (cr_data r) as [|x data] eqn:Hdata.
    + intros [= <- <- <- <-]. rewrite Hdata. repeat split; auto. simpl. lia.
    + set (k := match cr_bounds r with [] => n | c :: _ => n `min` S c end).
      assert (Hk : 1 ≤ k ≤ n) by (subst k; destruct (cr_bounds r); lia).
      intros [= <- <- <- <-]. cbn [cr_data].
      split; [done|]. split; [by rewrite take_drop|].
      split; [rewrite length_take; lia|].
      destruct k as [|k]; [lia|]. cbn [take].
      split; [done|]. split; [done|]. split; [by left|done].
  - intros r w σ p n e w' σ' _. unfold Write, bytes_Buffer_Writer.
    intros [= <- <- <- <-]. auto.
Qed.

(** A source whose reads return nothing and an error: the loop ends in its
    first iteration, with the error unless it is [io.EOF]. *)
Lemma buffedCopy_first_read {Σ R W : Type} `{!Reader Σ R} `{!Writer Σ W}
    (fuel bufferSize : nat) (reader : R) (writer : W) (σ : Σ) (e : error) :
  1 ≤ bufferSize →
  (∀ n, 0 < n → Read reader n σ = (([], Some e), reader, σ)) →
  buffedCopy (S fuel) reader writer bufferSize σ
  = Ret (mkRun 0%Z (if is_EOF e then None else Some e)
           (EvRead bufferSize 0 (Some e) :: if is_EOF e then [EvFlush None] else [])
           reader writer σ).
Proof.
  intros HB Hread. unfold buffedCopy. cbn [buffedCopy_loop].
  unfold bufio_Read, bufio_NewReader. cbn [r_buf r_err rd].
  destruct bufferSize as [|B]; [lia|]. cbn [Nat.eqb].
  destruct (defaultBufSize <=? S B).
  - rewrite Hread by lia. cbn. by destruct (is_EOF e).
  - rewrite Hread by (unfold defaultBufSize; lia). cbn. by destruct (is_EOF e).
Qed.

(** ** Claims about the transfer engine *)



(** C2.  For every run of [buffedCopy] that returns, with or without an
    error, the count is the sum of the sizes of the buffered write calls
    that reported no error (as a [uint64]; the sum itself while it is below
    [2^64]), and it is at most the number of bytes the buffered writer took
    in. *)
Theorem buffedCopy_count_is_written {Σ R W : Type} `{!Reader Σ R} `{!Writer Σ W}
    (fuel bufferSize : nat) (reader : R) (writer : W) (σ : Σ) (run : Run Σ R W) :
  buffedCopy fuel reader writer bufferSize σ = Ret run →
  copiedSize run = wrap64 (written (run_trace run)) ∧
  ((written (run_trace run) < 2 ^ 64)%Z → copiedSize run = written (run_trace run)) ∧
  (copiedSize run ≤ delivered (run_trace run))%Z.
Proof.
  intros Hrun. apply buffedCopy_log in Hrun.
  apply loop_log_count in Hrun; [|lia]. rewrite Z.add_0_l in Hrun.
  pose proof (written_nonneg (run_trace run)) as Hpos.
  pose proof (written_le_delivered (run_trace run)) as Hle.
  split; [done|]. rewrite Hrun. unfold wrap64. split.
  - intros Hlt. apply Z.mod_small. lia.
  - pose proof (Z.mod_le (written (run_trace run)) (2 ^ 64) Hpos ltac:(lia)). lia.
Qed.

Lemma buffedCopy_count_is_written_witness :
  ∃ run, buffedCopy 10 (bytes_NewReader (replicate 4500 x00 ++ replicate 4500 x00))
           (mkScriptedWriter [] [(4500, None); (100, Some (ErrorString "disk full"))]) 4500 ()
         = Ret run ∧
    (run_err run = Some (ErrorString "disk full") ∧ copiedSize run = 4500%Z ∧
     delivered (run_trace run) = 4600%Z) ∧
    copiedSize run = wrap64 (written (run_trace run)) ∧
    ((written (run_trace run) < 2 ^ 64)%Z → copiedSize run = written (run_trace run)) ∧
    (copiedSize run ≤ delivered (run_trace run))%Z.
Proof.
  eexists. split; [vm_compute; reflexivity|]. split; [by vm_compute|].
  apply (buffedCopy_count_is_written 10 4500
           (bytes_NewReader (replicate 4500 x00 ++ replicate 4500 x00))
           (mkScriptedWriter [] [(4500, None); (100, Some (ErrorString "disk full"))]) ()).
  vm_compute. reflexivity.
Defined.

(** With a buffer of size zero the first read returns [(0, nil)] before the
    source is asked for anything, the loop flushes an empty buffer and
    breaks: nothing is read, nothing written. *)
Lemma buffedCopy_zero {Σ R W : Type} `{!Reader Σ R} `{!Writer Σ W}
    (fuel : nat) (reader : R) (writer : W) (σ : Σ) :
  buffedCopy (S fuel) reader writer 0 σ
  = Ret (mkRun 0%Z None [EvRead 0 0 None; EvFlush None] reader writer σ).
Proof. reflexivity. Qed.

(** C3, as amended.  With buffer size 0, [buffedCopy] returns at once with
    the count 0 and no error, whatever the source holds, and leaves source,
    destination and world as they were; so each caller returns the count 0,
    and no error once its files are open (an error of opening them apart). *)
Theorem buffedCopy_zero_buffer_returns_nil {World File : Type} `{!OS World File}
    (fuel : nat) (p q : Path) (data : list byte) (text : string) (w : World) :
  (∀ (Σ R W : Type) (HR : Reader Σ R) (HW : Writer Σ W) (reader : R) (writer : W) (σ : Σ),
     buffedCopy (S fuel) reader writer 0 σ
     = Ret (mkRun 0%Z None [EvRead 0 0 None; EvFlush None] reader writer σ)) ∧
  BuffedWriteFile (S fuel) p data 0 w
  = match OpenFile p (Z.lor O_WRONLY O_CREATE) DEFAULT_PERM w with
    | (inr err, w) => Ret (0%Z, Some err, w)
    | (inl file, w) => Ret (0%Z, None, snd (File_Close file w))
    end ∧
  BuffedReadFile (S fuel) p 0 w
  = match OpenFile p (Z.lor O_RDONLY O_CREATE) DEFAULT_PERM w with
    | (inr err, w) => Ret ([], 0%Z, Some err, w)
    | (inl file, w) => Ret ([], 0%Z, None, snd (File_Close file w))
    end ∧
  AppendFile (S fuel) p text 0 w
  = match OpenFile p (Z.lor O_WRONLY (Z.lor O_CREATE O_APPEND)) DEFAULT_PERM w with
    | (inr err, w) => Ret (0%Z, Some err, w)
    | (inl file, w) => Ret (0%Z, None, snd (File_Close file w))
    end ∧
  CopyToFile (S fuel) p q 0 w
  = (let '(err, w) := MkdirAll (Dir q) DEFAULT_PERM w in
     if match err with Some _ => negb (errors_Is err ErrExist) | None => false end
     then Ret (0%Z, err, w)
     else match Open p w with
          | (inr err, w) => Ret (0%Z, Some err, w)
          | (inl source, w) =>
              match Create q w with
              | (inr err, w) => Ret (0%Z, Some err, snd (File_Close source w))
              | (inl destination, w) =>
                  Ret (0%Z, None, snd (File_Close source (snd (File_Close destination w))))
              end
          end).
Proof.
  split; [intros; apply buffedCopy_zero|].
  split; [|split; [|split]].
  - unfold BuffedWriteFile. destruct (OpenFile p _ _ w) as [[file|err] w1]; [|done].
    rewrite buffedCopy_zero. simpl. by destruct (File_Close file w1).
  - unfold BuffedReadFile. destruct (OpenFile p _ _ w) as [[file|err] w1]; [|done].
    rewrite buffedCopy_zero. simpl. by destruct (File_Close file w1).
  - unfold AppendFile. destruct (OpenFile p _ _ w) as [[file|err] w1]; [|done].
    rewrite buffedCopy_zero. simpl. by destruct (File_Close file w1).
  - unfold CopyToFile.
    destruct (MkdirAll (Dir q) DEFAULT_PERM w) as [merr w1].
    destruct (match merr with Some _ => negb (errors_Is merr ErrExist) | None => false end);
      [done|].
    destruct (Open p w1) as [[source|e] w2]; [|done].
    destruct (Create q w2) as [[destination|e] w3].
    2:{ by destruct (File_Close source w3). }
    rewrite buffedCopy_zero. simpl.
    destruct (File_Close destination w3) as [? w4]. simpl.
    by destruct (File_Close source w4) as [? w5].
Qed.

(** C3, the claim as stated fails: a source of eleven bytes and buffer size 0
    give count 0 and no error, an empty destination, and a source that has
    not been read. *)
Lemma buffedCopy_zero_buffer_counterexample :
  buffedCopy 10 (bytes_NewReader (bytes_of "hello world")) (mkbytes_Buffer []) 0 ()
  = Ret (mkRun 0%Z None [EvRead 0 0 None; EvFlush None]
           (bytes_NewReader (bytes_of "hello world")) (mkbytes_Buffer []) ()).
Proof. reflexivity. Qed.

(** C4, the code at the failing inputs.  First: a destination that takes 3
    of the 11 bytes it is offered without reporting an error; the buffered
    writer takes in every write of the loop, the destination is reached by
    the final flush only, and the result of that flush, [io.ErrShortWrite],
    is dropped: the transfer reports 11 bytes and no error while the
    destination holds 3.  Second: the same with a destination that reports
    the disk full.  Third: 4500 bytes are read and offered to a destination
    that takes 100 of them without an error; the buffered writer, its
    buffer being smaller, passes the write on and then offers the rest
    again, so the short write is retried and the transfer goes on to report
    all 4500 bytes and no error. *)
Lemma buffedCopy_short_write_unreported :
  buffedCopy 10 (bytes_NewReader (bytes_of "hello world"))
    (mkScriptedWriter [] [(3, None)]) 4 ()
  = Ret (mkRun 11%Z None
           [EvRead 4 4 None; EvWrite 4 4 None; EvRead 4 4 None; EvWrite 4 4 None;
            EvRead 4 3 None; EvWrite 3 3 None; EvRead 4 0 (Some EOF);
            EvFlush (Some ErrShortWrite)]
           (mkbytes_Reader (bytes_of "hello world") 11)
           (mkScriptedWriter (bytes_of "hel") []) ()) ∧
  buffedCopy 10 (bytes_NewReader (bytes_of "hello world"))
    (mkScriptedWriter [] [(3, Some (PathError "write" "/mnt/out" ENOSPC))]) 4 ()
  = Ret (mkRun 11%Z None
           [EvRead 4 4 None; EvWrite 4 4 None; EvRead 4 4 None; EvWrite 4 4 None;
            EvRead 4 3 None; EvWrite 3 3 None; EvRead 4 0 (Some EOF);
            EvFlush (Some (PathError "write" "/mnt/out" ENOSPC))]
           (mkbytes_Reader (bytes_of "hello world") 11)
           (mkScriptedWriter (bytes_of "hel") []) ()) ∧
  ∃ run, buffedCopy 10 (bytes_NewReader (replicate 4500 x00))
           (mkScriptedWriter [] [(100, None)]) 4500 ()
         = Ret run ∧
    copiedSize run = 4500%Z ∧ run_err run = None ∧
    run_trace run = [EvRead 4500 4500 None; EvWrite 4500 4500 None;
                     EvRead 4500 0 (Some EOF); EvFlush None] ∧
    run_writer run = mkScriptedWriter (replicate 4500 x00) [].
Proof.
  split; [vm_compute; reflexivity|]. split; [vm_compute; reflexivity|].
  eexists. split; [vm_compute; reflexivity|]. repeat split; vm_compute; reflexivity.
Qed.

(** C6, as amended.  Every error other than [io.EOF] that a read of the
    loop returns, and every error that a buffered write of the loop
    returns, is the error of the run; and the transfer operations return
    the error of opening or creating their file, and of [MkdirAll] unless
    it is an "already exists". *)
Theorem transfer_errors_are_returned {World File : Type} `{!OS World File}
    {Σ R W : Type} `{!Reader Σ R} `{!Writer Σ W}
    (fuel bufferSize : nat) (reader : R) (writer : W) (σ : Σ) (run : Run Σ R W) :
  buffedCopy fuel reader writer bufferSize σ = Ret run →
  (∀ size nr e, EvRead size nr (Some e) ∈ run_trace run → is_EOF e = false →
                run_err run = Some e) ∧
  (∀ nr nw e, EvWrite nr nw (Some e) ∈ run_trace run → run_err run = Some e) ∧
  (∀ (p : Path) data (w w' : World) e,
     OpenFile p (Z.lor O_WRONLY O_CREATE) DEFAULT_PERM w = (inr e, w') →
     BuffedWriteFile fuel p data bufferSize w = Ret (0%Z, Some e, w')) ∧
  (∀ (p : Path) (w w' : World) e,
     OpenFile p (Z.lor O_RDONLY O_CREATE) DEFAULT_PERM w = (inr e, w') →
     BuffedReadFile fuel p bufferSize w = Ret ([], 0%Z, Some e, w')) ∧
  (∀ (p : Path) text (w w' : World) e,
     OpenFile p (Z.lor O_WRONLY (Z.lor O_CREATE O_APPEND)) DEFAULT_PERM w = (inr e, w') →
     AppendFile fuel p text bufferSize w = Ret (0%Z, Some e, w')) ∧
  (∀ (p q : Path) (w w' : World) e,
     MkdirAll (Dir q) DEFAULT_PERM w = (Some e, w') → errors_Is (Some e) ErrExist = false →
     CopyToFile fuel p q bufferSize w = Ret (0%Z, Some e, w')) ∧
  (∀ (p q : Path) (w w1 w' : World) e,
     MkdirAll (Dir q) DEFAULT_PERM w = (None, w1) → Open p w1 = (inr e, w') →
     CopyToFile fuel p q bufferSize w = Ret (0%Z, Some e, w')) ∧
  (∀ (p q : Path) (w w1 w2 w' : World) source e,
     MkdirAll (Dir q) DEFAULT_PERM w = (None, w1) → Open p w1 = (inl source, w2) →
     Create q w2 = (inr e, w') →
     CopyToFile fuel p q bufferSize w = Ret (0%Z, Some e, snd (File_Close source w'))).
Proof.
  intros Hrun. apply buffedCopy_log in Hrun.
  pose proof (loop_log_errors _ _ _ _ Hrun) as Herrs.
  split; [intros size nr e Hev; apply (Herrs _ Hev)|].
  split; [intros nr nw e Hev; apply (Herrs _ Hev)|].
  split; [intros p data w w' e Ho; unfold BuffedWriteFile; by rewrite Ho|].
  split; [intros p w w' e Ho; unfold BuffedReadFile; by rewrite Ho|].
  split; [intros p text w w' e Ho; unfold AppendFile; by rewrite Ho|].
  split; [intros p q w w' e Hm He; unfold CopyToFile; by rewrite Hm, He|].
  split; [intros p q w w1 w' e Hm Ho; unfold CopyToFile; by rewrite Hm, Ho|].
  intros p q w w1 w2 w' source e Hm Ho Hc. unfold CopyToFile.
  rewrite Hm, Ho, Hc. by destruct (File_Close source w').
Qed.

Lemma transfer_errors_are_returned_witness :
  ∃ run, buffedCopy 10 (bytes_NewReader (replicate 4500 x00 ++ replicate 4500 x00))
           (mkScriptedWriter [] [(4500, None); (100, Some (PathError "write" "/mnt/out" EIO))])
           4500 ()
         = Ret run ∧
    run_err run = Some (PathError "write" "/mnt/out" EIO) ∧
    ∀ nr nw e, EvWrite nr nw (Some e) ∈ run_trace run → run_err run = Some e.
Proof.
  eexists. split; [vm_compute; reflexivity|]. split; [reflexivity|].
  apply (transfer_errors_are_returned (World:=MemFS) (File:=MemFile) 10 4500
           (bytes_NewReader (replicate 4500 x00 ++ replicate 4500 x00))
           (mkScriptedWriter [] [(4500, None); (100, Some (PathError "write" "/mnt/out" EIO))])
           ()).
  vm_compute. reflexivity.
Defined.

(** C6, the claim as stated fails.  Errors that do not reach the caller:
    [IsExist] turns the "not a directory" of [Stat] into [true]; the older
    [Abs] drops the error of [filepath.Abs] that the present one returns;
    and [buffedCopy] drops the error of the final flush, here of a
    destination that accepts nothing, and reports eleven bytes copied. *)
Lemma errors_not_returned_counterexample :
  (Stat "/src/report.txt/x" demo_fs = inr (PathError "stat" "/src/report.txt/x" ENOTDIR) ∧
   IsExist "/src/report.txt/x" demo_fs = true) ∧
  (Abs "report.txt" orphan_fs = ("", Some (PathError "getwd" "" ENOENT)) ∧
   Legacy.Abs "report.txt" orphan_fs = "") ∧
  buffedCopy 10 (bytes_NewReader (bytes_of "hello world"))
    (mkScriptedWriter [] [(0, Some (PathError "write" "/dev/full" ENOSPC))]) 4 ()
  = Ret (mkRun 11%Z None
           [EvRead 4 4 None; EvWrite 4 4 None; EvRead 4 4 None; EvWrite 4 4 None;
            EvRead 4 3 None; EvWrite 3 3 None; EvRead 4 0 (Some EOF);
            EvFlush (Some (PathError "write" "/dev/full" ENOSPC))]
           (mkbytes_Reader (bytes_of "hello world") 11)
           (mkScriptedWriter [] []) ()).
Proof. repeat split; vm_compute; reflexivity. Qed.

(** ** The in-memory file system *)

Lemma extends_refl (m : gmap (list string) node) : extends m m.
Proof. intros k n Hk. eauto. Qed.

Lemma extends_trans (m1 m2 m3 : gmap (list string) node) :
  extends m1 m2 → extends m2 m3 → extends m1 m3.
Proof.
  intros H12 H23 k n Hk. destruct (H12 k n Hk) as (n2 & Hk2 & Hd2).
  destruct (H23 k n2 Hk2) as (n3 & Hk3 & Hd3). exists n3. split; [done|congruence].
Qed.

Lemma extends_insert_fresh (m : gmap (list string) node) (k : list string) (n : node) :
  m !! k = None → extends m (<[k := n]> m).
Proof.
  intros Hk k' n' Hk'. exists n'. split; [|done].
  rewrite lookup_insert_ne; [done|]. intros ->. congruence.
Qed.

Lemma extends_insert_file (m : gmap (list string) node) (k : list string) (d d' : list byte) :
  m !! k = Some (RegFile d) → extends m (<[k := RegFile d']> m).
Proof.
  intros Hk k' n' Hk'. destruct (decide (k = k')) as [<-|Hne].
  - rewrite lookup_insert_eq. exists (RegFile d'). split; [done|]. by simplify_eq.
  - rewrite lookup_insert_ne by done. eauto.
Qed.

Lemma walk_lookup (m : gmap (list string) node) (cur rest key : list string) (n : node) :
  walk m cur rest = inr (key, n) → m !! key = Some n.
Proof.
  revert cur. induction rest as [|c rest IH]; intros cur; cbn [walk];
    destruct (m !! cur) as [n0|] eqn:Hcur; try done.
  - by intros [= <- <-].
  - destruct n0; [done|].
    destruct (String.eqb c "."); [apply IH|].
    destruct (String.eqb c ".."); apply IH.
Qed.

Lemma walk_extends (m m' : gmap (list string) node) (cur rest key : list string) (n : node) :
  extends m m' → walk m cur rest = inr (key, n) →
  ∃ n', walk m' cur rest = inr (key, n') ∧ is_dir n' = is_dir n.
Proof.
  intros Hext. revert cur. induction rest as [|c rest IH]; intros cur; cbn [walk];
    destruct (m !! cur) as [n0|] eqn:Hcur; try done;
    destruct (Hext _ _ Hcur) as (n0' & -> & Hd).
  - intros [= <- <-]. eauto.
  - destruct n0; [done|]. destruct n0'; [done|].
    destruct (String.eqb c "."); [apply IH|].
    destruct (String.eqb c ".."); apply IH.
Qed.

Lemma walk_app (m : gmap (list string) node) (cur r1 r2 dir : list string) :
  walk m cur r1 = inr (dir, Directory) → walk m cur (r1 ++ r2) = walk m dir r2.
Proof.
  revert cur. induction r1 as [|c r1 IH]; intros cur; cbn [walk app].
  - destruct (m !! cur) as [n0|] eqn:Hcur; [|done]. intros [= <- ->].
    destruct r2; cbn [walk]; by rewrite Hcur.
  - destruct (m !! cur) as [[]|] eqn:Hcur; try done.
    destruct (String.eqb c "."); [apply IH|].
    destruct (String.eqb c ".."); apply IH.
Qed.

Lemma names_nonempty (path : string) : names path ≠ [] → String.eqb path "" = false.
Proof. destruct path; [done|]. by intros _. Qed.

(** A path that [resolve_new] places at [key] resolves to the empty file
    put there. *)
Lemma resolve_after_create (w : MemFS) (path : string) (key : list string) :
  resolve_new w path = inr key →
  nodes w !! key = None ∧
  resolve (mkMemFS (cwd w) (<[key := RegFile []]> (nodes w))) path = inr (key, RegFile []).
Proof.
  unfold resolve_new, resolve.
  destruct (rev (names path)) as [|last rinit] eqn:Hrev; [done|].
  assert (Hnames : names path = rev rinit ++ [last]).
  { rewrite <- (rev_involutive (names path)), Hrev. done. }
  destruct (walk (nodes w) (start_dir w path) (rev rinit)) as [e|[dir [d|]]] eqn:Hwalk;
    try done.
  destruct (String.eqb last "." || String.eqb last "..") eqn:Hdots; [done|].
  destruct (trailing_sep path) eqn:Htrail; [done|].
  destruct (nodes w !! (dir ++ [last])) eqn:Hfresh; [done|].
  intros [= <-]. split; [done|].
  rewrite names_nonempty by (rewrite Hnames; by destruct (rev rinit)).
  unfold start_dir in *. cbn [cwd nodes].
  destruct (walk_extends _ (<[dir ++ [last] := RegFile []]> (nodes w)) _ _ _ _
              (extends_insert_fresh _ _ _ Hfresh) Hwalk) as (n' & Hwalk' & Hd).
  destruct n'; [done|].
  rewrite Hnames, (walk_app _ _ _ _ _ Hwalk').
  apply walk_lookup in Hwalk'. cbn [walk]. rewrite Hwalk'.
  apply orb_false_elim in Hdots as [-> ->].
  by rewrite lookup_insert_eq.
Qed.

Lemma resolve_extends (w w' : MemFS) (path : string) (key : list string) (n : node) :
  extends (nodes w) (nodes w') → cwd w' = cwd w →
  resolve w path = inr (key, n) →
  ∃ n', resolve w' path = inr (key, n') ∧ nodes w' !! key = Some n' ∧ is_dir n' = is_dir n.
Proof.
  intros Hext Hcwd. unfold resolve, start_dir. rewrite Hcwd.
  destruct (String.eqb path ""); [done|].
  destruct (walk (nodes w) _ (names path)) as [e|[k n0]] eqn:Hwalk; [by destruct e|].
  destruct (walk_extends _ _ _ _ _ _ Hext Hwalk) as (n' & Hwalk' & Hd).
  rewrite Hwalk'. pose proof (walk_lookup _ _ _ _ _ Hwalk') as Hk.
  destruct n0 as [d|], n' as [d'|]; try done.
  - destruct (trailing_sep path); [done|]. intros [= <- <-]. eauto.
  - intros [= <- <-]. eauto.
Qed.

(** Opening for reading changes nothing and names a node that exists. *)
Lemma Open_MemFS (w w' : MemFS) (p : Path) (f : MemFile) :
  Open p w = (inl f, w') →
  w' = w ∧ f = mkMemFile p (f_key f) O_RDONLY 0 ∧ ∃ n, resolve w p = inr (f_key f, n).
Proof.
  unfold Open, os_Open, os_OpenFile, String. cbn [MemFS_OS]. unfold MemFS_OpenFile.
  destruct (resolve w p) as [errno|[key [d|]]].
  - destruct errno; cbn; done.
  - cbn. intros [= <- <-]. eauto.
  - cbn. intros [= <- <-]. eauto.
Qed.

(** Creating leaves an empty regular file where the path resolves to. *)
Lemma Create_MemFS (w w' : MemFS) (q : Path) (f : MemFile) :
  Create q w = (inl f, w') →
  f = mkMemFile q (f_key f) (Z.lor O_RDWR (Z.lor O_CREATE O_TRUNC)) 0 ∧
  w' = mkMemFS (cwd w) (<[f_key f := RegFile []]> (nodes w)) ∧
  resolve w' q = inr (f_key f, RegFile []) ∧
  extends (nodes w) (nodes w').
Proof.
  unfold Create, os_Create, os_OpenFile, String. cbn [MemFS_OS]. unfold MemFS_OpenFile.
  destruct (resolve w q) as [errno|[key [d|]]] eqn:Hres.
  - destruct errno; try (cbn; done).
    change (has_flag (Z.lor O_RDWR (Z.lor O_CREATE O_TRUNC)) O_CREATE) with true. cbn iota.
    destruct (resolve_new w q) as [e|key] eqn:Hnew; [done|].
    intros [= <- <-]. cbn [f_key].
    destruct (resolve_after_create w q key Hnew) as [Hfresh Hres'].
    repeat split; try done. by apply extends_insert_fresh.
  - change (has_flag (Z.lor O_RDWR (Z.lor O_CREATE O_TRUNC)) O_CREATE
            && has_flag (Z.lor O_RDWR (Z.lor O_CREATE O_TRUNC)) O_EXCL) with false.
    change (has_flag (Z.lor O_RDWR (Z.lor O_CREATE O_TRUNC)) O_TRUNC) with true. cbn iota.
    intros [= <- <-]. cbn [f_key].
    assert (Hk : nodes w !! key = Some (RegFile d)).
    { unfold resolve in Hres. destruct (String.eqb q ""); [done|].
      destruct (walk (nodes w) _ _) as [?|[k [d1|]]] eqn:Hwalk; try done.
      destruct (trailing_sep q); [done|]. simplify_eq. by apply walk_lookup in Hwalk. }
    assert (Hext : extends (nodes w) (<[key := RegFile []]> (nodes w)))
      by (by eapply extends_insert_file).
    repeat split; try done.
    destruct (resolve_extends w (mkMemFS (cwd w) (<[key := RegFile []]> (nodes w))) q key
                (RegFile d) Hext eq_refl Hres) as (n' & Hres' & Hk' & _).
    cbn [nodes] in Hk'. rewrite lookup_insert_eq in Hk'. by simplify_eq.
  - cbn. done.
Qed.

(** Reading an open regular file, and writing one at its offset. *)
Lemma MemFile_Read_regular (kp : list string) (d0 : list byte) (r : MemFile) (n : nat)
    (σ : MemFS) bs e r' σ' :
  reading kp d0 r σ → 0 < n → Read r n σ = ((bs, e), r', σ') →
  σ' = σ ∧ reading kp d0 r' σ ∧
  file_left r σ = bs ++ file_left r' σ ∧ length bs ≤ n ∧
  (file_left r σ ≠ [] → bs ≠ []) ∧ (bs = [] → e = Some EOF) ∧
  (e = None ∨ (e = Some EOF ∧ file_left r' σ = [])).
Proof.
  intros (Hkr & Hrm & Hp) Hn.
  unfold Read, File_Reader. cbn [MemFS_OS]. unfold MemFile_Read, file_left, reading.
  rewrite (proj2 (Z.eqb_neq _ _) Hrm), Hkr, Hp.
  destruct n as [|n]; [lia|]. cbn [Nat.eqb].
  destruct (length (take (S n) (drop (f_off r) d0)) =? 0) eqn:Hlen.
  - intros [= <- <- <- <-]. rewrite Hkr, Hp.
    apply Nat.eqb_eq in Hlen. rewrite length_take in Hlen.
    assert (Hnil : drop (f_off r) d0 = []) by (apply nil_length_inv; lia).
    rewrite Hnil. repeat split; auto; simpl; lia.
  - intros [= <- <- <- <-]. cbn [f_key f_off f_flag]. rewrite ?Hkr, Hp.
    apply Nat.eqb_neq in Hlen.
    split; [done|]. split; [done|].
    split; [by rewrite <- drop_drop, take_drop_length, take_drop|].
    split; [rewrite length_take; lia|].
    split; [intros _ Hbs; by rewrite Hbs in Hlen|].
    split; [intros Hbs; by rewrite Hbs in Hlen|].
    by left.
Qed.

Lemma MemFile_Write_regular (kd : list string) (old : list byte) (w : MemFile)
    (p : list byte) (σ : MemFS) n e w' σ' :
  writing kd old w σ → Write w p σ = ((n, e), w', σ') →
  n = length p ∧ e = None ∧ writing kd old w' σ' ∧
  file_written w' σ' = file_written w σ ++ p ∧
  cwd σ' = cwd σ ∧ extends (nodes σ) (nodes σ') ∧
  ∀ k, k ≠ kd → nodes σ' !! k = nodes σ !! k.
Proof.
  intros (Hkw & Hwm & Happ & d & Hd & Hoff & Hold).
  unfold Write, File_Writer. cbn [MemFS_OS].
  unfold MemFile_Write, file_written, file_data, writing.
  rewrite (proj2 (Z.eqb_neq _ _) Hwm), Hkw, Hd, Happ.
  replace (f_off w - length d) with 0 by lia. cbn [replicate app].
  intros [= <- <- <- <-]. cbn [f_key f_flag f_off nodes cwd].
  rewrite !lookup_insert_eq.
  assert (Htake : take (f_off w + length p) (take (f_off w) d ++ p ++ drop (f_off w + length p) d)
                  = take (f_off w) d ++ p).
  { rewrite app_assoc. apply take_app_length'. rewrite length_app, length_take. lia. }
  split; [done|]. split; [done|]. split; [|split; [done|split; [done|split]]].
  - split; [done|]. split; [done|]. split; [done|].
    eexists. split; [done|]. split.
    + rewrite !length_app, length_take, length_drop. lia.
    + rewrite app_assoc, drop_app_length'
        by (rewrite length_app, length_take; lia).
      by rewrite <- !drop_drop, Hold.
  - by eapply extends_insert_file.
  - intros k Hk. by rewrite lookup_insert_ne.
Qed.

(** A file written from its start holds what was written, then what it held
    before past that length. *)
Lemma writing_data (kd : list string) (old : list byte) (w : MemFile) (σ : MemFS) :
  writing kd old w σ →
  nodes σ !! kd = Some (RegFile (file_written w σ ++ drop (length (file_written w σ)) old)).
Proof.
  intros (Hkw & _ & _ & d & Hd & Hoff & Hold). unfold file_written, file_data.
  rewrite Hkw, Hd, length_take, Nat.min_l by done.
  by rewrite <- Hold, take_drop.
Qed.

Lemma world_of_extends (m0 : gmap (list string) node) (c0 : list string) (σ σ' : MemFS) :
  world_of m0 c0 σ → cwd σ' = cwd σ → extends (nodes σ) (nodes σ') → world_of m0 c0 σ'.
Proof.
  intros [Hext Hcwd] Hc He. split; [by eapply extends_trans|congruence].
Qed.

(** The three kinds of transfer are between well-behaved streams. *)
Lemma file_streams (m0 : gmap (list string) node) (c0 kp kd : list string)
    (d0 old : list byte) :
  Streams (file_inv m0 c0 kp kd d0 old) file_left file_written.
Proof.
  split.
  - intros r w σ n bs e r' σ' (Hr & Hw & Hne & Hworld) Hn Hread.
    destruct (MemFile_Read_regular kp d0 r n σ bs e r' σ' Hr Hn Hread)
      as (-> & Hr' & Hrest).
    split; [done|]. destruct Hrest as (? & ? & ? & ? & ?). done.
  - intros r w σ p n e w' σ' (Hr & Hw & Hne & Hworld) Hwrite.
    destruct (MemFile_Write_regular kd old w p σ n e w' σ' Hw Hwrite)
      as (-> & -> & Hw' & Hdst & Hcwd & Hext & Hother).
    destruct Hr as (Hkr & Hrm & Hp).
    assert (Hp' : nodes σ' !! kp = nodes σ !! kp) by (by apply Hother).
    split; [|split; [done|split; [done|split; [done|]]]].
    + split; [|split; [done|split; [done|by eapply world_of_extends]]].
      split; [done|]. split; [done|]. by rewrite Hp'.
    + unfold file_left. by rewrite Hkr, Hp'.
Qed.

Lemma write_streams (m0 : gmap (list string) node) (c0 kd : list string) (old : list byte) :
  Streams (write_inv m0 c0 kd old) (λ r _, bytes_left r) file_written.
Proof.
  split.
  - intros r w σ n bs e r' σ' Hinv Hn Hread.
    assert (σ' = σ) as ->.
    { revert Hread. unfold Read, bytes_Reader_Reader.
      destruct (bytes_Reader_Read r n). by intros [= _ _ <-]. }
    destruct (read_ok _ _ _ (bytes_streams (Σ:=MemFS)) r (mkbytes_Buffer []) σ n bs e r' σ
                I Hn Hread) as (_ & Hrest).
    split; [done|]. destruct Hrest as (? & ? & ? & ? & ? & _). done.
  - intros r w σ p n e w' σ' (Hw & Hworld) Hwrite.
    destruct (MemFile_Write_regular kd old w p σ n e w' σ' Hw Hwrite)
      as (-> & -> & Hw' & Hdst & Hcwd & Hext & Hother).
    split; [|done]. split; [done|]. by eapply world_of_extends.
Qed.

Lemma read_streams (m0 : gmap (list string) node) (c0 kp : list string) (d0 : list byte) :
  Streams (read_inv m0 c0 kp d0) file_left (λ w _, Bytes w).
Proof.
  split.
  - intros r w σ n bs e r' σ' (Hr & Hworld) Hn Hread.
    destruct (MemFile_Read_regular kp d0 r n σ bs e r' σ' Hr Hn Hread)
      as (-> & Hr' & Hrest).
    split; [done|]. destruct Hrest as (? & ? & ? & ? & ?). done.
  - intros r w σ p n e w' σ' Hinv. unfold Write, bytes_Buffer_Writer.
    intros [= <- <- <- <-]. done.
Qed.

(** [CopyToFile] in the in-memory file system: it returns, and when it
    reports no error both paths hold the same data afterwards, the number
    of bytes being the count. *)
Lemma CopyToFile_MemFS (w : MemFS) (p q : Path) (bufferSize : nat) :
  1 ≤ bufferSize →
  ∃ fuel0, ∀ fuel, fuel0 ≤ fuel →
    ∃ n err w', CopyToFile fuel p q bufferSize w = Ret (n, err, w') ∧
      (err = None →
       ∃ data, MemFS_ReadFile p w' = inl data ∧ MemFS_ReadFile q w' = inl data ∧
               n = wrap64 (Z.of_nat (length data))).
Proof.
  intros HB. unfold CopyToFile.
  destruct (MkdirAll (Dir q) DEFAULT_PERM w) as [merr w1].
  destruct (match merr with Some _ => negb (errors_Is merr ErrExist) | None => false end)
    eqn:Hguard.
  { exists 0. intros fuel _. eexists _, _, _. split; [done|]. by destruct merr. }
  destruct (Open p w1) as [[source|e] w2] eqn:Ho.
  2:{ exists 0. intros fuel _. eexists _, _, _. split; [done|]. done. }
  apply Open_MemFS in Ho as (-> & Hsource & n & Hp).
  destruct (Create q w1) as [[destination|e] w3] eqn:Hc.
  2:{ exists 0. intros fuel _. eexists _, _, _. split; [done|]. done. }
  apply Create_MemFS in Hc as (Hdest & Hw3 & Hq & Hext).
  set (kp := f_key source) in *. set (kd := f_key destination) in *.
  assert (Hcwd : cwd w3 = cwd w1) by (by rewrite Hw3).
  destruct (resolve_extends w1 w3 p kp n Hext Hcwd Hp) as (n3 & Hp3 & Hkp & Hdir).
  assert (Hkd : nodes w3 !! kd = Some (RegFile [])).
  { rewrite Hw3. cbn [nodes]. apply lookup_insert_eq. }
  assert (Hflag_r : accmode (f_flag source) ≠ O_WRONLY) by (by rewrite Hsource).
  destruct n3 as [d3|].
  - destruct (decide (kp = kd)) as [Heq|Hne].
    + (* Source and destination are the same file, now empty. *)
      assert (d3 = []) as -> by (rewrite Heq in Hkp; congruence).
      exists 1. intros [|fuel] Hfuel; [lia|].
      rewrite (buffedCopy_first_read fuel bufferSize source destination w3 EOF HB).
      2:{ intros m Hm. unfold Read, File_Reader. cbn [MemFS_OS]. unfold MemFile_Read.
          rewrite (proj2 (Z.eqb_neq _ _) Hflag_r). fold kp. rewrite Hkp.
          destruct m; [lia|]. by rewrite drop_nil. }
      cbn. eexists _, _, _. split; [done|]. intros _. exists [].
      unfold MemFS_ReadFile. by rewrite Hp3, Hq.
    + (* Two files: the streams are well-behaved. *)
      assert (Hinv : file_inv (nodes w3) (cwd w3) kp kd d3 [] source destination w3).
      { split; [done|]. split; [|split; [done|split; [apply extends_refl|done]]].
        split; [done|]. rewrite Hdest. split; [done|]. split; [done|].
        exists []. cbn [f_off]. by rewrite Hkd. }
      exists (length d3 + 2). intros fuel Hfuel.
      destruct (buffedCopy_lawful _ _ _ (file_streams (nodes w3) (cwd w3) kp kd d3 [])
                  fuel bufferSize source destination w3 Hinv HB)
        as (run & Hrun & Hsize & Herr & Hfin & Hdst & _).
      { unfold file_left. fold kp. rewrite Hkp, Hsource. cbn [f_off]. by rewrite drop_0. }
      rewrite Hrun. cbn. eexists _, _, _. split; [done|]. intros _. exists d3.
      destruct Hfin as ((_ & _ & Hpf) & Hwf & _ & Hextf & Hcwdf).
      apply writing_data in Hwf. rewrite drop_nil, app_nil_r in Hwf.
      unfold file_left in Hsize, Hdst. fold kp in Hsize, Hdst.
      rewrite Hkp, Hsource in Hsize, Hdst. cbn [f_off] in Hsize, Hdst.
      rewrite drop_0 in Hsize, Hdst.
      unfold file_written at 2 in Hdst. rewrite Hdest in Hdst. cbn [f_off] in Hdst.
      rewrite take_0 in Hdst. cbn [app] in Hdst. rewrite Hdst in Hwf.
      destruct (resolve_extends w3 (run_world run) p kp (RegFile d3) Hextf Hcwdf Hp3)
        as (n' & Hpf' & Hkpf & _).
      destruct (resolve_extends w3 (run_world run) q kd (RegFile []) Hextf Hcwdf Hq)
        as (n'' & Hqf' & Hkdf & _).
      unfold MemFS_ReadFile. rewrite Hpf', Hqf'.
      rewrite Hpf in Hkpf. rewrite Hwf in Hkdf. simplify_eq. done.
  - (* The source is a directory: the first read fails. *)
    exists 1. intros [|fuel] Hfuel; [lia|].
    rewrite (buffedCopy_first_read fuel bufferSize source destination w3
               (PathError "read" (f_name source) EISDIR) HB).
    2:{ intros m Hm. unfold Read, File_Reader. cbn [MemFS_OS]. unfold MemFile_Read.
        rewrite (proj2 (Z.eqb_neq _ _) Hflag_r). fold kp. by rewrite Hkp. }
    cbn. eexists _, _, _. split; [done|]. done.
Qed.

(** Opening a path that names a regular file, without [O_EXCL] and
    [O_TRUNC], changes nothing. *)
Lemma OpenFile_regular (w : MemFS) (p : Path) (flag perm : Z) (key : list string)
    (d : list byte) :
  resolve w p = inr (key, RegFile d) →
  has_flag flag O_EXCL = false → has_flag flag O_TRUNC = false →
  OpenFile p flag perm w = (inl (mkMemFile p key flag 0), w).
Proof.
  intros Hres Hexcl Htrunc. unfold OpenFile, os_OpenFile, String. cbn [MemFS_OS].
  unfold MemFS_OpenFile. by rewrite Hres, Hexcl, Htrunc, andb_false_r.
Qed.

(** [BuffedWriteFile] on a path that names a regular file holding [old]:
    the file holds the data afterwards, followed by what it held before
    past the length of the data. *)
Lemma BuffedWriteFile_MemFS (w : MemFS) (p : Path) (key : list string)
    (data old : list byte) (bufferSize fuel : nat) :
  resolve w p = inr (key, RegFile old) →
  1 ≤ bufferSize → length data + 2 ≤ fuel →
  ∃ w', BuffedWriteFile fuel p data bufferSize w
        = Ret (wrap64 (Z.of_nat (length data)), None, w') ∧
    resolve w' p = inr (key, RegFile (data ++ drop (length data) old)).
Proof.
  intros Hres HB Hfuel. unfold BuffedWriteFile.
  rewrite (OpenFile_regular w p _ _ key old Hres) by done.
  set (file := mkMemFile p key (Z.lor O_WRONLY O_CREATE) 0).
  assert (Hkey : nodes w !! key = Some (RegFile old)).
  { destruct (resolve_extends w w p key _ (extends_refl _) eq_refl Hres)
      as (n' & Hres' & Hk & _). congruence. }
  assert (Hinv : write_inv (nodes w) (cwd w) key old (bytes_NewReader data) file w).
  { split; [|split; [apply extends_refl|done]].
    split; [done|]. split; [done|]. split; [done|]. exists old.
    split; [done|]. cbn [file f_off]. split; [lia|done]. }
  destruct (buffedCopy_lawful _ _ _ (write_streams (nodes w) (cwd w) key old)
              fuel bufferSize (bytes_NewReader data) file w Hinv HB)
    as (run & Hrun & Hsize & Herr & (Hwf & Hextf & Hcwdf) & Hdst & _).
  { unfold bytes_left. simpl. done. }
  rewrite Hrun. cbn. rewrite Hsize, Herr. unfold bytes_left. cbn [bytes_NewReader br_i br_s].
  rewrite drop_0. eexists. split; [done|].
  apply writing_data in Hwf. rewrite Hdst in Hwf.
  unfold file_written in Hwf at 1 2. cbn [file f_off] in Hwf. rewrite take_0 in Hwf.
  unfold bytes_left in Hwf. cbn [bytes_NewReader br_i br_s app] in Hwf.
  rewrite drop_0 in Hwf.
  destruct (resolve_extends w (run_world run) p key _ Hextf Hcwdf Hres)
    as (n' & Hres' & Hk & _).
  rewrite Hres'. congruence.
Qed.

(** [BuffedReadFile] on a path that names a regular file returns what the
    file holds. *)
Lemma BuffedReadFile_MemFS (w : MemFS) (p : Path) (key : list string)
    (data : list byte) (bufferSize fuel : nat) :
  resolve w p = inr (key, RegFile data) →
  1 ≤ bufferSize → length data + 2 ≤ fuel →
  ∃ w', BuffedReadFile fuel p bufferSize w
        = Ret (data, wrap64 (Z.of_nat (length data)), None, w').
Proof.
  intros Hres HB Hfuel. unfold BuffedReadFile.
  rewrite (OpenFile_regular w p _ _ key data Hres) by done.
  set (file := mkMemFile p key (Z.lor O_RDONLY O_CREATE) 0).
  assert (Hkey : nodes w !! key = Some (RegFile data)).
  { destruct (resolve_extends w w p key _ (extends_refl _) eq_refl Hres)
      as (n' & Hres' & Hk & _). congruence. }
  assert (Hleft : file_left file w = data).
  { unfold file_left. cbn [file f_key f_off]. by rewrite Hkey, drop_0. }
  assert (Hinv : read_inv (nodes w) (cwd w) key data file (mkbytes_Buffer []) w).
  { split; [done|]. split; [apply extends_refl|done]. }
  destruct (buffedCopy_lawful _ _ _ (read_streams (nodes w) (cwd w) key data)
              fuel bufferSize file (mkbytes_Buffer []) w Hinv HB)
    as (run & Hrun & Hsize & Herr & _ & Hdst & _).
  { by rewrite Hleft. }
  rewrite Hrun. cbn. rewrite Hsize, Herr, Hdst, Hleft. eauto.
Qed.

(** Writing [data] to a regular file holding [old] and reading the path
    back returns [data] followed by the rest of [old]: [data] itself exactly
    when [old] is no longer than [data]. *)
Lemma BuffedWriteFile_BuffedReadFile (w : MemFS) (p : Path) (key : list string)
    (data old : list byte) (bufferSize fuel : nat) :
  resolve w p = inr (key, RegFile old) →
  1 ≤ bufferSize → length data + length old + 2 ≤ fuel →
  ∃ w' w'' n, BuffedWriteFile fuel p data bufferSize w
        = Ret (wrap64 (Z.of_nat (length data)), None, w') ∧
    BuffedReadFile fuel p bufferSize w'
    = Ret (data ++ drop (length data) old, n, None, w'').
Proof.
  intros Hres HB Hfuel.
  destruct (BuffedWriteFile_MemFS w p key data old bufferSize fuel Hres HB)
    as (w' & Hwrite & Hres'); [lia|].
  destruct (BuffedReadFile_MemFS w' p key _ bufferSize fuel Hres' HB) as (w'' & Hread).
  { rewrite length_app, length_drop. lia. }
  eauto.
Qed.

(** Opening with [O_CREATE] a path that names nothing, in a directory that
    exists, puts an empty file there; opening it again finds that file. *)
Lemma OpenFile_fresh (w : MemFS) (p : Path) (flag perm : Z) (key : list string) :
  resolve w p = inl ENOENT → resolve_new w p = inr key →
  has_flag flag O_CREATE = true →
  OpenFile p flag perm w
  = (inl (mkMemFile p key flag 0), mkMemFS (cwd w) (<[key := RegFile []]> (nodes w))).
Proof.
  intros Hres Hnew Hcreate. unfold OpenFile, os_OpenFile, String. cbn [MemFS_OS].
  unfold MemFS_OpenFile. by rewrite Hres, Hcreate, Hnew.
Qed.

(** The round trip on a path where [BuffedWriteFile] starts from nothing or
    from a file no longer than the data: the data comes back unchanged. *)
Lemma BuffedWriteFile_BuffedReadFile_new (w : MemFS) (p : Path) (key : list string)
    (data : list byte) (bufferSize fuel : nat) :
  resolve w p = inl ENOENT → resolve_new w p = inr key →
  1 ≤ bufferSize → length data + 2 ≤ fuel →
  ∃ w' w'' n, BuffedWriteFile fuel p data bufferSize w
        = Ret (wrap64 (Z.of_nat (length data)), None, w') ∧
    BuffedReadFile fuel p bufferSize w' = Ret (data, n, None, w'').
Proof.
  intros Hres Hnew HB Hfuel.
  destruct (resolve_after_create w p key Hnew) as [_ Hres1].
  set (w1 := mkMemFS (cwd w) (<[key := RegFile []]> (nodes w))) in *.
  assert (Hsame : BuffedWriteFile fuel p data bufferSize w
                  = BuffedWriteFile fuel p data bufferSize w1).
  { unfold BuffedWriteFile.
    rewrite (OpenFile_fresh w p _ _ key Hres Hnew) by done.
    by rewrite (OpenFile_regular w1 p _ _ key [] Hres1) by done. }
  destruct (BuffedWriteFile_BuffedReadFile w1 p key data [] bufferSize fuel Hres1 HB)
    as (w' & w'' & n & Hwrite & Hread); [simpl; lia|].
  rewrite drop_nil, app_nil_r in Hread. rewrite Hsame. eauto.
Qed.

(** ** Claims about the queries *)

(** C7, the code on every path.  [IsDir] tests the error of [Stat] against
    [fs.ErrExist]: without an error, and with any error that is no
    "already exists", it returns [false]; with such an error it calls
    [IsDir] on a nil [info].  It returns [true] for no path. *)
Lemma IsDir_false_or_panic {World File : Type} `{!OS World File} (p : Path) (w : World) :
  IsDir p w = Ret false ∨ IsDir p w = Panic.
Proof.
  unfold IsDir. destruct (Stat p w) as [info|e]; [by left|].
  destruct (errors_Is (Some e) ErrExist); auto.
Qed.

(** C7, the code at the failing input: [/src] is a directory, [IsDir]
    returns [false]; the older revision returned [true]. *)
Lemma IsDir_of_directory_is_false :
  Stat "/src" demo_fs = inl (mkFileInfo "src" 0 true) ∧
  IsDir "/src" demo_fs = Ret false ∧
  Legacy.IsDir "/src" demo_fs = Ret true.
Proof. by vm_compute. Qed.

(** C8.  [IsExist] returns [false] exactly when [Stat] fails with an error
    that is [fs.ErrNotExist]; it returns [true] when [Stat] succeeds and
    when it fails with any other error, permission denied included.  The
    older revision, with [os.IsNotExist], does the same. *)
Theorem IsExist_false_iff_not_exist {World File : Type} `{!OS World File}
    (p : Path) (w : World) :
  (IsExist p w = false ↔ ∃ e, Stat p w = inr e ∧ errors_Is (Some e) ErrNotExist = true) ∧
  (∀ info, Stat p w = inl info → IsExist p w = true) ∧
  (∀ e, Stat p w = inr e → errors_Is (Some e) ErrNotExist = false → IsExist p w = true) ∧
  (∀ op path errno, Stat p w = inr (PathError op path errno) →
     errno = EACCES ∨ errno = EPERM → IsExist p w = true) ∧
  Legacy.IsExist p w = IsExist p w.
Proof.
  unfold IsExist, Legacy.IsExist, Legacy.open, Stat, String.
  destruct (os_Stat p w) as [info|e].
  - repeat split; try done.
    intros (e & He & _). done.
  - repeat split; try done.
    + intros He. exists e. split; [done|]. by destruct (errors_Is (Some e) ErrNotExist).
    + intros (e' & [= <-] & ->). done.
    + intros e' [= <-] ->. done.
    + intros op path errno [= ->] [-> | ->]; done.
Qed.

(** ** Claims about the buffered file operations *)



(** C5, the code at the failing input.  [/src/report.txt] holds the eleven
    bytes of "hello world"; writing the three bytes "abc" to it with
    [BuffedWriteFile], which opens without [O_TRUNC], replaces the first
    three bytes only, and [BuffedReadFile] returns "abclo world".  [Create],
    which [CopyToFile] uses, leaves the file empty. *)
Lemma BuffedWriteFile_keeps_old_tail :
  ∃ w', BuffedWriteFile 10 "/src/report.txt" (bytes_of "abc") 8 demo_fs
        = Ret (3%Z, None, w') ∧
    BuffedReadFile 10 "/src/report.txt" 8 w'
    = Ret (bytes_of "abclo world", 11%Z, None, w') ∧
    ∃ f w'', Create "/src/report.txt" demo_fs = (inl f, w'') ∧
             MemFS_ReadFile "/src/report.txt" w'' = inl [].
Proof.
  eexists. split; [vm_compute; reflexivity|]. split; [vm_compute; reflexivity|].
  eexists _, _. split; vm_compute; reflexivity.
Qed.




(** * Further properties of the package *)

(** ** The transfer engine on any streams *)

Lemma loop_log_flush (t : list event) (c c' : Z) (err : option error) :
  loop_log t c c' err →
  match err with
  | None => ∃ t0 ferr, t = t0 ++ [EvFlush ferr] ∧ Forall (λ ev, is_flush ev = false) t0
  | Some _ => Forall (λ ev, is_flush ev = false) t
  end.
Proof.
  induction 1 as [size nr e c Heof|size e ferr c He|size nr e nw e' c He Hnr Hle
                 |size nr e t c c' err He Hnr Hlog IH].
  - by repeat constructor.
  - exists [EvRead size 0 e], ferr. split; [done|]. by repeat constructor.
  - by repeat constructor.
  - destruct err as [e0|].
    + by repeat constructor.
    + destruct IH as (t0 & ferr & -> & Ht0).
      exists (EvRead size nr e :: EvWrite nr nr None :: t0), ferr.
      split; [done|]. by repeat constructor.
Qed.

(** X1.  A run of [buffedCopy] that reports no error ends with its one
    flush of the buffered writer; a run that reports an error never
    flushes, so what the buffered writer holds at that point is dropped. *)
Theorem buffedCopy_flushes_on_success_only {Σ R W : Type} `{!Reader Σ R} `{!Writer Σ W}
    (fuel bufferSize : nat) (reader : R) (writer : W) (σ : Σ) (run : Run Σ R W) :
  buffedCopy fuel reader writer bufferSize σ = Ret run →
  match run_err run with
  | None => ∃ t0 ferr, run_trace run = t0 ++ [EvFlush ferr] ∧
                       Forall (λ ev, is_flush ev = false) t0
  | Some _ => Forall (λ ev, is_flush ev = false) (run_trace run)
  end.
Proof. intros Hrun. apply buffedCopy_log in Hrun. by apply loop_log_flush in Hrun. Qed.

Lemma buffedCopy_flushes_on_success_only_witness :
  ∃ run, buffedCopy 10 (mkScriptedReader [(bytes_of "hello", None); ([], Some (ErrorString "reset"))])
           (mkbytes_Buffer []) 4 ()
         = Ret run ∧
    (copiedSize run = 5%Z ∧ run_err run = Some (ErrorString "reset") ∧
     Bytes (run_writer run) = []) ∧
    match run_err run with
    | None => ∃ t0 ferr, run_trace run = t0 ++ [EvFlush ferr] ∧
                         Forall (λ ev, is_flush ev = false) t0
    | Some _ => Forall (λ ev, is_flush ev = false) (run_trace run)
    end.
Proof.
  eexists. split; [vm_compute; reflexivity|]. split; [by vm_compute|].
  apply (buffedCopy_flushes_on_success_only 10 4
           (mkScriptedReader [(bytes_of "hello", None); ([], Some (ErrorString "reset"))])
           (mkbytes_Buffer []) ()).
  vm_compute. reflexivity.
Defined.

Lemma loop_log_read_error_last (t : list event) (c c' : Z) (err : option error) :
  loop_log t c c' err →
  ∀ size nr e, EvRead size nr (Some e) ∈ t → is_EOF e = false →
    last t = Some (EvRead size nr (Some e)) ∧ err = Some e.
Proof.
  induction 1 as [size0 nr0 e0 c Heof|size0 e0 ferr c He|size0 nr0 e0 nw e' c He Hnr Hle
                 |size0 nr0 e0 t c c' err He Hnr Hlog IH]; intros size nr e Hev Heof'.
  - apply list_elem_of_singleton in Hev. by simplify_eq.
  - apply elem_of_cons in Hev as [Hev|Hev].
    + destruct He; simplify_eq; cbn in *; congruence.
    + by apply list_elem_of_singleton in Hev.
  - apply elem_of_cons in Hev as [Hev|Hev].
    + destruct He; simplify_eq; cbn in *; congruence.
    + by apply list_elem_of_singleton in Hev.
  - apply elem_of_cons in Hev as [Hev|Hev].
    { destruct He; simplify_eq; cbn in *; congruence. }
    apply elem_of_cons in Hev as [?|Hev]; [done|].
    destruct (IH size nr e Hev Heof') as [Hlast ->]. split; [|done].
    destruct t; [done|]. exact Hlast.
Qed.

(** X2.  A read of the loop that returns an error other than [io.EOF] ends
    the run there: it is the last call of the run, also when it returned
    bytes with the error, and those bytes are neither written nor counted. *)
Theorem buffedCopy_read_error_drops_bytes {Σ R W : Type} `{!Reader Σ R} `{!Writer Σ W}
    (fuel bufferSize : nat) (reader : R) (writer : W) (σ : Σ) (run : Run Σ R W)
    (size nr : nat) (e : error) :
  buffedCopy fuel reader writer bufferSize σ = Ret run →
  EvRead size nr (Some e) ∈ run_trace run → is_EOF e = false →
  last (run_trace run) = Some (EvRead size nr (Some e)) ∧
  run_err run = Some e ∧
  copiedSize run = wrap64 (written (run_trace run)).
Proof.
  intros Hrun Hev Heof. apply buffedCopy_log in Hrun.
  destruct (loop_log_read_error_last _ _ _ _ Hrun size nr e Hev Heof) as [Hlast Herr].
  apply loop_log_count in Hrun; [|lia]. by rewrite Z.add_0_l in Hrun.
Qed.

Lemma buffedCopy_read_error_drops_bytes_witness :
  ∃ run, buffedCopy 10 (mkScriptedReader [(bytes_of "hello", Some (ErrorString "reset"))])
           (mkbytes_Buffer []) 4096 ()
         = Ret run ∧
    (copiedSize run = 0%Z ∧ Bytes (run_writer run) = []) ∧
    last (run_trace run) = Some (EvRead 4096 5 (Some (ErrorString "reset"))) ∧
    run_err run = Some (ErrorString "reset") ∧
    copiedSize run = wrap64 (written (run_trace run)).
Proof.
  eexists. split; [vm_compute; reflexivity|]. split; [by vm_compute|].
  apply (buffedCopy_read_error_drops_bytes 10 4096
           (mkScriptedReader [(bytes_of "hello", Some (ErrorString "reset"))])
           (mkbytes_Buffer []) ()).
  - vm_compute. reflexivity.
  - vm_compute. apply list_elem_of_here.
  - reflexivity.
Defined.



Lemma read_total_app (t1 t2 : list event) :
  read_total (t1 ++ t2) = read_total t1 + read_total t2.
Proof. induction t1 as [|ev t1 IH]; simpl; [done|]. rewrite IH. lia. Qed.

Section Untouched.
Context {Σ R W : Type} `{!Reader Σ R} `{!Writer Σ W}.
Hypothesis Read_keeps_world : ∀ (r : R) (n : nat) (s : Σ), (Read r n s).2 = s.

Lemma bufio_Read_keeps_world (b : bufio_Reader R) (n : nat) (σ : Σ) res b' σ' :
  bufio_Read b n σ = Ret (res, b', σ') → σ' = σ.
Proof.
  unfold bufio_Read. destruct (n =? 0).
  { destruct (0 <? length (r_buf b)); by intros [= _ _ <-]. }
  destruct (r_buf b) as [|x buf]; [|by intros [= _ _ <-]].
  destruct (r_err b); [by intros [= _ _ <-]|].
  destruct (defaultBufSize <=? n).
  - pose proof (Read_keeps_world (rd b) n σ) as Hw.
    destruct (Read (rd b) n σ) as [[[bs e] rd'] σ1]. simpl in Hw. subst σ1.
    destruct (n <? length bs); [done|]. by intros [= _ _ <-].
  - pose proof (Read_keeps_world (rd b) defaultBufSize σ) as Hw.
    destruct (Read (rd b) defaultBufSize σ) as [[[bs e] rd'] σ1]. simpl in Hw. subst σ1.
    destruct (defaultBufSize <? length bs); [done|].
    destruct (length bs =? 0); by intros [= _ _ <-].
Qed.

Lemma buffedCopy_loop_untouched (wfuel fuel bufferSize : nat) (bR : bufio_Reader R)
    (bW : bufio_Writer W) (copied : Z) (trace : list event) (σ : Σ) run e :
  w_err bW = None →
  buffedCopy_loop wfuel fuel bufferSize bR bW copied trace σ = Ret run →
  run_err run = Some e →
  read_total (run_trace run) + length (w_buf bW) ≤ defaultBufSize + read_total trace →
  run_writer run = wr bW ∧ run_world run = σ.
Proof.
  revert bR bW copied trace σ.
  induction fuel as [|fuel IH]; intros bR bW copied trace σ Hwerr Hrun; [done|].
  pose proof Hrun as Hlog. apply buffedCopy_loop_log in Hlog as (t & Ht & _).
  revert Hrun. cbn [buffedCopy_loop].
  destruct (bufio_Read bR bufferSize σ) as [[[[bs er] bR'] σ1]| |] eqn:Hread; [|done..].
  apply bufio_Read_keeps_world in Hread as ->.
  cbn [mbind Outcome_bind].
  destruct (match er with Some e0 => negb (is_EOF e0) | None => false end).
  { intros [= <-]. done. }
  destruct (length bs =? 0) eqn:Hbs.
  { destruct (bufio_Flush bW σ) as [[ferr bW'] σ2]. by intros [= <-]. }
  destruct wfuel as [|wfuel]; cbn [bufio_Write]; rewrite Hwerr.
  - destruct (Available bW <? length bs) eqn:Hav; [done|].
    cbn [mbind Outcome_bind]. rewrite Nat.add_0_l, Nat.eqb_refl. cbn [negb].
    intros Hrun Herr Htot.
    destruct (IH _ (mkbufio_Writer (wr bW) (w_buf bW ++ bs) None) _ _ _ eq_refl Hrun Herr)
        as [-> ->]; [|done].
    cbn [w_buf]. rewrite length_app, !read_total_app.
      unfold read_total at 3 4; cbn [foldr event_read]. lia.
  - destruct (Available bW <? length bs) eqn:Hav.
    + (* the bytes do not fit: ruled out by the bound on what was read *)
      intros Hrun Herr Htot. exfalso.
      apply Nat.ltb_lt in Hav. unfold Available in Hav.
      assert (Hhead : ∃ t', run_trace run = (trace ++ [EvRead bufferSize (length bs) er]) ++ t').
      { destruct (length (w_buf bW) =? 0).
        - destruct (Write (wr bW) bs σ) as [[[n e'] wr'] σ'].
          destruct (length bs <? n); [done|].
          destruct (bufio_Write wfuel _ _ _ σ') as [[[[nw werr] bW'] σ2]| |]; [|done..].
          cbn [mbind Outcome_bind] in Hrun.
          destruct werr; [injection Hrun as <-; by eexists [_]|].
          destruct (negb (length bs =? nw)); [injection Hrun as <-; by eexists [_]|].
          apply buffedCopy_loop_log in Hrun as (t' & Ht' & _).
          rewrite Ht', <- app_assoc. by eexists.
        - destruct (bufio_Flush _ σ) as [[ferr bW1] σ'].
          destruct (bufio_Write wfuel _ _ _ σ') as [[[[nw werr] bW'] σ2]| |]; [|done..].
          cbn [mbind Outcome_bind] in Hrun.
          destruct werr; [injection Hrun as <-; by eexists [_]|].
          destruct (negb (length bs =? nw)); [injection Hrun as <-; by eexists [_]|].
          apply buffedCopy_loop_log in Hrun as (t' & Ht' & _).
          rewrite Ht', <- app_assoc. by eexists. }
      destruct Hhead as (t' & Ht'). rewrite Ht', !read_total_app in Htot. simpl in Htot.
      unfold defaultBufSize in *. lia.
    + cbn [mbind Outcome_bind]. rewrite Nat.add_0_l, Nat.eqb_refl. cbn [negb].
      intros Hrun Herr Htot.
      destruct (IH _ (mkbufio_Writer (wr bW) (w_buf bW ++ bs) None) _ _ _ eq_refl Hrun Herr)
        as [-> ->]; [|done].
      cbn [w_buf]. rewrite length_app, !read_total_app.
      unfold read_total at 3 4; cbn [foldr event_read]. lia.
Qed.

(** X4.  When the reads do not act on the world, a run of [buffedCopy] that
    reports an error after reading at most 4096 bytes has made no call on the
    destination: the writer object and the world are as before the call,
    whatever count the run returns. *)
Theorem buffedCopy_failure_leaves_destination (fuel bufferSize : nat) (reader : R)
    (writer : W) (σ : Σ) (run : Run Σ R W) (e : error) :
  buffedCopy fuel reader writer bufferSize σ = Ret run →
  run_err run = Some e →
  read_total (run_trace run) ≤ defaultBufSize →
  run_writer run = writer ∧ run_world run = σ.
Proof.
  intros Hrun Herr Htot.
  apply (buffedCopy_loop_untouched fuel fuel bufferSize (bufio_NewReader reader)
           (bufio_NewWriter writer) 0%Z [] σ run e eq_refl Hrun Herr).
  change (read_total (run_trace run) + 0 ≤ defaultBufSize + 0). lia.
Qed.

End Untouched.

Lemma ScriptedReader_keeps_world {Σ : Type} (r : ScriptedReader) (n : nat) (s : Σ) :
  (Read r n s).2 = s.
Proof. unfold Read, ScriptedReader_Reader. by destruct (sr_script r) as [|[bs e] script]. Qed.

Lemma buffedCopy_failure_leaves_destination_witness :
  ∃ run, buffedCopy 10 (mkScriptedReader [(bytes_of "hello", None); ([], Some (ErrorString "reset"))])
           (mkScriptedWriter [] []) 4 ()
         = Ret run ∧
    copiedSize run = 5%Z ∧
    run_writer run = mkScriptedWriter [] [] ∧ run_world run = ().
Proof.
  eexists. split; [vm_compute; reflexivity|]. split; [by vm_compute|].
  apply (buffedCopy_failure_leaves_destination (R := ScriptedReader) (W := ScriptedWriter)
           ScriptedReader_keeps_world 10 4
           (mkScriptedReader [(bytes_of "hello", None); ([], Some (ErrorString "reset"))])
           (mkScriptedWriter [] []) () _ (ErrorString "reset")).
  - vm_compute. reflexivity.
  - reflexivity.
  - vm_compute. lia.
Defined.

(** ** Appending, loading and storing in the in-memory file system *)

Lemma strings_Reader_Read_ok {Σ} (r : strings_Reader) (n : nat) (σ : Σ) bs e r' σ' :
  0 < n → Read r n σ = ((bs, e), r', σ') →
  σ' = σ ∧ strings_left r = bs ++ strings_left r' ∧ length bs ≤ n ∧
  (strings_left r ≠ [] → bs ≠ []) ∧ (bs = [] → e = Some EOF) ∧
  (e = None ∨ (e = Some EOF ∧ strings_left r' = [])).
Proof.
  intros Hn. unfold Read, strings_Reader_Reader, strings_Reader_Read, strings_left, bytes_of.
  set (s := String.list_byte_of_string (sr_s r)).
  destruct (length s <=? sr_i r) eqn:Hend.
  - apply Nat.leb_le in Hend. intros [= <- <- <- <-]. fold s.
    rewrite drop_ge by done. repeat split; auto. simpl. lia.
  - apply Nat.leb_gt in Hend. intros [= <- <- <- <-]. cbn [sr_s sr_i]. fold s.
    split; [done|]. split.
    { rewrite <- drop_drop, take_drop_length. by rewrite take_drop. }
    split; [rewrite length_take; lia|].
    split.
    { intros _. destruct (drop (sr_i r) s) eqn:Hd.
      - apply (f_equal length) in Hd. rewrite length_drop in Hd. simpl in Hd. lia.
      - destruct n; [lia|done]. }
    split; [|by auto].
    intros Ht. apply (f_equal length) in Ht. rewrite length_take, length_drop in Ht.
    simpl in Ht. lia.
Qed.

Lemma append_streams (m0 : gmap (list string) node) (c0 kd : list string) :
  Streams (append_inv m0 c0 kd) (λ r _, strings_left r) file_data.
Proof.
  split.
  - intros r w σ n bs e r' σ' Hinv Hn Hread.
    destruct (strings_Reader_Read_ok r n σ bs e r' σ' Hn Hread)
      as (-> & ? & ? & ? & ? & ?). done.
  - intros r w σ p n e w' σ' (Hk & Hacc & Happ & Hcwd & d & Hnodes).
    unfold Write, File_Writer. cbn [MemFS_OS]. unfold MemFile_Write, file_data.
    rewrite (proj2 (Z.eqb_neq _ _) Hacc), Hk, Hnodes, lookup_insert_eq, Happ.
    rewrite take_ge by lia. rewrite Nat.sub_diag. cbn [replicate app].
    rewrite drop_ge by lia. rewrite app_nil_r.
    intros [= <- <- <- <-]. cbn [f_key f_flag nodes cwd].
    rewrite insert_insert_eq, !lookup_insert_eq.
    split; [|done]. split; [done|]. split; [done|]. split; [done|]. split; [done|].
    by eexists.
Qed.

Lemma append_run (w : MemFS) (key : list string) (old : list byte) (data : string)
    (name : string) (flag : Z) (bufferSize fuel : nat) :
  nodes w !! key = Some (RegFile old) →
  accmode flag ≠ O_RDONLY → has_flag flag O_APPEND = true →
  1 ≤ bufferSize → length (bytes_of data) + 2 ≤ fuel →
  ∃ run, buffedCopy fuel (strings_NewReader data) (mkMemFile name key flag 0) bufferSize w
         = Ret run ∧
    copiedSize run = wrap64 (Z.of_nat (length (bytes_of data))) ∧
    run_err run = None ∧
    run_world run = mkMemFS (cwd w) (<[key := RegFile (old ++ bytes_of data)]> (nodes w)).
Proof.
  intros Hkey Hacc Happ HB Hfuel.
  set (file := mkMemFile name key flag 0).
  assert (Hinv : append_inv (nodes w) (cwd w) key (strings_NewReader data) file w).
  { split; [done|]. split; [done|]. split; [done|]. split; [done|].
    exists old. by rewrite insert_id. }
  assert (Hleft : strings_left (strings_NewReader data) = bytes_of data).
  { unfold strings_left. cbn [strings_NewReader sr_i sr_s]. by rewrite drop_0. }
  destruct (buffedCopy_lawful _ _ _ (append_streams (nodes w) (cwd w) key)
              fuel bufferSize (strings_NewReader data) file w Hinv HB)
    as (run & Hrun & Hsize & Herr & (Hk & _ & _ & Hcwd & d & Hnodes) & Hdst & _).
  { by rewrite Hleft. }
  exists run. rewrite Hleft in Hsize, Hdst. split; [done|]. split; [done|]. split; [done|].
  unfold file_data in Hdst. rewrite Hk, Hnodes, lookup_insert_eq in Hdst.
  cbn [file f_key] in Hdst. rewrite Hkey in Hdst.
  destruct (run_world run) as [c m]. simpl in *. by subst.
Qed.

Lemma resolve_lookup (w : MemFS) (path : string) (key : list string) (n : node) :
  resolve w path = inr (key, n) → nodes w !! key = Some n.
Proof.
  intros Hres.
  destruct (resolve_extends w w path key n (extends_refl _) eq_refl Hres)
    as (n' & Hres' & Hk & _). congruence.
Qed.

Lemma resolve_insert_file (w : MemFS) (path : string) (key k : list string)
    (d d' : list byte) (n : node) :
  resolve w path = inr (key, n) → nodes w !! k = Some (RegFile d) →
  resolve (mkMemFS (cwd w) (<[k := RegFile d']> (nodes w))) path
  = inr (key, if decide (key = k) then RegFile d' else n).
Proof.
  intros Hres Hk.
  destruct (resolve_extends w (mkMemFS (cwd w) (<[k := RegFile d']> (nodes w))) path key n)
    as (n' & Hres' & Hn' & _); [by eapply extends_insert_file|done|done|].
  rewrite Hres'. cbn [nodes] in Hn'. destruct (decide (key = k)) as [->|Hne].
  - rewrite lookup_insert_eq in Hn'. congruence.
  - rewrite lookup_insert_ne in Hn' by done.
    apply resolve_lookup in Hres. congruence.
Qed.

Lemma AppendFile_MemFS (w : MemFS) (p : Path) (key : list string) (data : string)
    (old : list byte) (bufferSize fuel : nat) :
  resolve w p = inr (key, RegFile old) →
  1 ≤ bufferSize → length (bytes_of data) + 2 ≤ fuel →
  AppendFile fuel p data bufferSize w
  = Ret (wrap64 (Z.of_nat (length (bytes_of data))), None,
         mkMemFS (cwd w) (<[key := RegFile (old ++ bytes_of data)]> (nodes w))).
Proof.
  intros Hres HB Hfuel. unfold AppendFile.
  rewrite (OpenFile_regular w p _ _ key old Hres) by done.
  destruct (append_run w key old data p (Z.lor O_WRONLY (Z.lor O_CREATE O_APPEND))
              bufferSize fuel) as (run & Hrun & Hsize & Herr & Hworld);
    [by eapply resolve_lookup|done|done|done|done|].
  rewrite Hrun. cbn. by rewrite Hsize, Herr, Hworld.
Qed.

Lemma bytes_of_app (s1 s2 : string) : bytes_of (s1 +:+ s2) = bytes_of s1 ++ bytes_of s2.
Proof.
  unfold bytes_of, String.list_byte_of_string.
  induction s1 as [|c s1 IH]; [done|]. simpl. by rewrite IH.
Qed.





Lemma store_streams (m0 : gmap (list string) node) (c0 kd : list string) (old : list byte) :
  Streams (store_inv m0 c0 kd old) (λ r _, bytes_left r) file_written.
Proof.
  split.
  - intros r w σ n bs e r' σ' Hinv Hn Hread.
    assert (σ' = σ) as ->.
    { revert Hread. unfold Read, bytes_Reader_Reader.
      destruct (bytes_Reader_Read r n). by intros [= _ _ <-]. }
    destruct (read_ok _ _ _ (bytes_streams (Σ:=MemFS)) r (mkbytes_Buffer []) σ n bs e r' σ
                I Hn Hread) as (_ & Hrest).
    split; [done|]. destruct Hrest as (? & ? & ? & ? & ? & _). done.
  - intros r w σ p n e w' σ' (Hw & Hcwd & d & Hnodes) Hwrite.
    destruct (MemFile_Write_regular kd old w p σ n e w' σ' Hw Hwrite)
      as (-> & -> & Hw' & Hdst & Hcwd' & Hext & Hother).
    split; [|done]. split; [done|]. split; [congruence|].
    destruct Hw' as (Hk' & Hacc' & Happ' & d' & Hd' & Hrest).
    exists d'. apply map_eq. intros k. destruct (decide (k = kd)) as [->|Hne].
    + by rewrite lookup_insert_eq.
    + rewrite lookup_insert_ne by done. rewrite (Hother k Hne), Hnodes.
      by rewrite lookup_insert_ne.
Qed.

Lemma store_run (w : MemFS) (key : list string) (old data : list byte)
    (name : string) (flag : Z) (bufferSize fuel : nat) :
  nodes w !! key = Some (RegFile old) →
  accmode flag ≠ O_RDONLY → has_flag flag O_APPEND = false →
  1 ≤ bufferSize → length data + 2 ≤ fuel →
  ∃ run, buffedCopy fuel (bytes_NewReader data) (mkMemFile name key flag 0) bufferSize w
         = Ret run ∧
    copiedSize run = wrap64 (Z.of_nat (length data)) ∧
    run_err run = None ∧
    run_world run
    = mkMemFS (cwd w) (<[key := RegFile (data ++ drop (length data) old)]> (nodes w)).
Proof.
  intros Hkey Hacc Happ HB Hfuel.
  set (file := mkMemFile name key flag 0).
  assert (Hinv : store_inv (nodes w) (cwd w) key old (bytes_NewReader data) file w).
  { split; [|split; [done|exists old; by rewrite insert_id]].
    split; [done|]. split; [done|]. split; [done|]. exists old.
    split; [done|]. cbn [file f_off]. split; [lia|done]. }
  assert (Hleft : bytes_left (bytes_NewReader data) = data).
  { unfold bytes_left. cbn [bytes_NewReader br_i br_s]. by rewrite drop_0. }
  destruct (buffedCopy_lawful _ _ _ (store_streams (nodes w) (cwd w) key old)
              fuel bufferSize (bytes_NewReader data) file w Hinv HB)
    as (run & Hrun & Hsize & Herr & (Hwf & Hcwd & d & Hnodes) & Hdst & _).
  { by rewrite Hleft. }
  exists run. rewrite Hleft in Hsize, Hdst. split; [done|]. split; [done|]. split; [done|].
  apply writing_data in Hwf. rewrite Hdst in Hwf.
  unfold file_written in Hwf at 1 2. cbn [file f_off] in Hwf. rewrite take_0 in Hwf.
  cbn [app] in Hwf. rewrite Hnodes, lookup_insert_eq in Hwf.
  injection Hwf as Hd.
  destruct (run_world run) as [c m]. cbn [cwd nodes] in *. by rewrite Hcwd, Hnodes, Hd.
Qed.

Lemma load_streams (w0 : MemFS) (kp : list string) (d0 : list byte) :
  Streams (load_inv w0 kp d0) file_left (λ w _, Bytes w).
Proof.
  split.
  - intros r w σ n bs e r' σ' (Hr & Hworld) Hn Hread.
    destruct (MemFile_Read_regular kp d0 r n σ bs e r' σ' Hr Hn Hread)
      as (-> & Hr' & Hrest).
    split; [done|]. destruct Hrest as (? & ? & ? & ? & ?). done.
  - intros r w σ p n e w' σ' Hinv. unfold Write, bytes_Buffer_Writer.
    intros [= <- <- <- <-]. done.
Qed.

Lemma BuffedReadFile_MemFS_world (w : MemFS) (p : Path) (key : list string)
    (data : list byte) (bufferSize fuel : nat) :
  resolve w p = inr (key, RegFile data) →
  1 ≤ bufferSize → length data + 2 ≤ fuel →
  BuffedReadFile fuel p bufferSize w
  = Ret (data, wrap64 (Z.of_nat (length data)), None, w).
Proof.
  intros Hres HB Hfuel. unfold BuffedReadFile.
  rewrite (OpenFile_regular w p _ _ key data Hres) by done.
  set (file := mkMemFile p key (Z.lor O_RDONLY O_CREATE) 0).
  assert (Hkey : nodes w !! key = Some (RegFile data)) by (by eapply resolve_lookup).
  assert (Hleft : file_left file w = data).
  { unfold file_left. cbn [file f_key f_off]. by rewrite Hkey, drop_0. }
  assert (Hinv : load_inv w key data file (mkbytes_Buffer []) w) by done.
  destruct (buffedCopy_lawful _ _ _ (load_streams w key data)
              fuel bufferSize file (mkbytes_Buffer []) w Hinv HB)
    as (run & Hrun & Hsize & Herr & (_ & Hworld) & Hdst & _).
  { by rewrite Hleft. }
  rewrite Hrun. cbn. by rewrite Hsize, Herr, Hdst, Hleft, Hworld.
Qed.

Lemma BuffedWriteFile_MemFS_world (w : MemFS) (p : Path) (key : list string)
    (data old : list byte) (bufferSize fuel : nat) :
  resolve w p = inr (key, RegFile old) →
  1 ≤ bufferSize → length data + 2 ≤ fuel →
  BuffedWriteFile fuel p data bufferSize w
  = Ret (wrap64 (Z.of_nat (length data)), None,
         mkMemFS (cwd w) (<[key := RegFile (data ++ drop (length data) old)]> (nodes w))).
Proof.
  intros Hres HB Hfuel. unfold BuffedWriteFile.
  rewrite (OpenFile_regular w p _ _ key old Hres) by done.
  destruct (store_run w key old data p (Z.lor O_WRONLY O_CREATE) bufferSize fuel)
    as (run & Hrun & Hsize & Herr & Hworld);
    [by eapply resolve_lookup|done|done|done|done|].
  rewrite Hrun. cbn. by rewrite Hsize, Herr, Hworld.
Qed.

(** The same calls on a path that names nothing yet, in a directory that
    exists: the file is created empty at [key] and the transfer goes on as
    on that file. *)
Lemma BuffedWriteFile_MemFS_new (w : MemFS) (p : Path) (key : list string)
    (data : list byte) (bufferSize fuel : nat) :
  resolve w p = inl ENOENT → resolve_new w p = inr key →
  1 ≤ bufferSize → length data + 2 ≤ fuel →
  BuffedWriteFile fuel p data bufferSize w
  = Ret (wrap64 (Z.of_nat (length data)), None,
         mkMemFS (cwd w) (<[key := RegFile data]> (nodes w))).
Proof.
  intros Hres Hnew HB Hfuel. unfold BuffedWriteFile.
  rewrite (OpenFile_fresh w p _ _ key Hres Hnew) by done.
  destruct (store_run (mkMemFS (cwd w) (<[key := RegFile []]> (nodes w))) key [] data p
              (Z.lor O_WRONLY O_CREATE) bufferSize fuel)
    as (run & Hrun & Hsize & Herr & Hworld);
    [by cbn [nodes]; rewrite lookup_insert_eq|done|done|done|done|].
  rewrite Hrun. cbn. rewrite Hsize, Herr, Hworld. cbn [cwd nodes].
  by rewrite insert_insert_eq, drop_nil, app_nil_r.
Qed.

Lemma AppendFile_MemFS_new (w : MemFS) (p : Path) (key : list string)
    (data : string) (bufferSize fuel : nat) :
  resolve w p = inl ENOENT → resolve_new w p = inr key →
  1 ≤ bufferSize → length (bytes_of data) + 2 ≤ fuel →
  AppendFile fuel p data bufferSize w
  = Ret (wrap64 (Z.of_nat (length (bytes_of data))), None,
         mkMemFS (cwd w) (<[key := RegFile (bytes_of data)]> (nodes w))).
Proof.
  intros Hres Hnew HB Hfuel. unfold AppendFile.
  rewrite (OpenFile_fresh w p _ _ key Hres Hnew) by done.
  destruct (append_run (mkMemFS (cwd w) (<[key := RegFile []]> (nodes w))) key [] data p
              (Z.lor O_WRONLY (Z.lor O_CREATE O_APPEND)) bufferSize fuel)
    as (run & Hrun & Hsize & Herr & Hworld);
    [by cbn [nodes]; rewrite lookup_insert_eq|done|done|done|done|].
  rewrite Hrun. cbn. rewrite Hsize, Herr, Hworld. cbn [cwd nodes].
  by rewrite insert_insert_eq.
Qed.

Lemma resolve_new_file (w : MemFS) (path : string) (key : list string) (d : list byte) :
  resolve_new w path = inr key →
  resolve (mkMemFS (cwd w) (<[key := RegFile d]> (nodes w))) path = inr (key, RegFile d).
Proof.
  intros Hnew. destruct (resolve_after_create w path key Hnew) as [_ Hres1].
  pose proof (resolve_insert_file _ path key key [] d _ Hres1) as Hres.
  cbn [cwd nodes] in Hres. rewrite lookup_insert_eq, insert_insert_eq in Hres.
  rewrite Hres by done. by rewrite decide_True.
Qed.









(** ** What a transfer may do to the world *)

Section WorldRelation.
Context {Σ R W : Type} `{!Reader Σ R} `{!Writer Σ W}.
Context (rel : Σ → Σ → Prop).
Hypothesis rel_refl : ∀ σ, rel σ σ.
Hypothesis rel_trans : ∀ σ1 σ2 σ3, rel σ1 σ2 → rel σ2 σ3 → rel σ1 σ3.
Hypothesis rel_Read : ∀ (r : R) (n : nat) (σ : Σ), rel σ (Read r n σ).2.
Hypothesis rel_Write : ∀ (w : W) (p : list byte) (σ : Σ), rel σ (Write w p σ).2.

Lemma bufio_Read_rel (b : bufio_Reader R) (n : nat) (σ : Σ) res b' σ' :
  bufio_Read b n σ = Ret (res, b', σ') → rel σ σ'.
Proof.
  unfold bufio_Read. destruct (n =? 0).
  { destruct (0 <? length (r_buf b)); intros [= _ _ <-]; apply rel_refl. }
  destruct (r_buf b) as [|x buf]; [|intros [= _ _ <-]; apply rel_refl].
  destruct (r_err b); [intros [= _ _ <-]; apply rel_refl|].
  destruct (defaultBufSize <=? n).
  - pose proof (rel_Read (rd b) n σ) as Hr.
    destruct (Read (rd b) n σ) as [[[bs e] rd'] σ1]. simpl in Hr.
    destruct (n <? length bs); [done|]. by intros [= _ _ <-].
  - pose proof (rel_Read (rd b) defaultBufSize σ) as Hr.
    destruct (Read (rd b) defaultBufSize σ) as [[[bs e] rd'] σ1]. simpl in Hr.
    destruct (defaultBufSize <? length bs); [done|].
    destruct (length bs =? 0); by intros [= _ _ <-].
Qed.

Lemma bufio_Flush_rel (b : bufio_Writer W) (σ : Σ) : rel σ (bufio_Flush b σ).2.
Proof.
  unfold bufio_Flush. destruct (w_err b); [apply rel_refl|].
  destruct (length (w_buf b) =? 0); [apply rel_refl|].
  pose proof (rel_Write (wr b) (w_buf b) σ) as Hw.
  destruct (Write (wr b) (w_buf b) σ) as [[[n [e|]] wr'] σ1]; simpl in Hw; [done|].
  by destruct (n <? length (w_buf b)).
Qed.

Lemma bufio_Write_rel (fuel : nat) (b : bufio_Writer W) (p : list byte) (nn : nat) (σ : Σ)
    res b' σ' :
  bufio_Write fuel b p nn σ = Ret (res, b', σ') → rel σ σ'.
Proof.
  revert b p nn σ. induction fuel as [|fuel IH]; intros b p nn σ; cbn [bufio_Write].
  - destruct (w_err b); [intros [= _ _ <-]; apply rel_refl|].
    destruct (Available b <? length p); [done|]. intros [= _ _ <-]. apply rel_refl.
  - destruct (w_err b); [intros [= _ _ <-]; apply rel_refl|].
    destruct (Available b <? length p); [|intros [= _ _ <-]; apply rel_refl].
    destruct (length (w_buf b) =? 0).
    + pose proof (rel_Write (wr b) p σ) as Hw.
      destruct (Write (wr b) p σ) as [[[n e] wr'] σ1]. simpl in Hw.
      destruct (length p <? n); [done|]. intros Hrec. apply IH in Hrec. eauto.
    + pose proof (bufio_Flush_rel
                    (mkbufio_Writer (wr b)
                       (w_buf b ++ take (Nat.min (Available b) (length p)) p) None) σ) as Hf.
      destruct (bufio_Flush _ σ) as [[ferr b1] σ1]. simpl in Hf.
      intros Hrec. apply IH in Hrec. eauto.
Qed.

Lemma buffedCopy_loop_rel (wfuel fuel bufferSize : nat) (bR : bufio_Reader R)
    (bW : bufio_Writer W) (copied : Z) (trace : list event) (σ : Σ) run :
  buffedCopy_loop wfuel fuel bufferSize bR bW copied trace σ = Ret run →
  rel σ (run_world run).
Proof.
  revert bR bW copied trace σ.
  induction fuel as [|fuel IH]; intros bR bW copied trace σ; cbn [buffedCopy_loop]; [done|].
  destruct (bufio_Read bR bufferSize σ) as [[[[bs e] bR'] σ1]| |] eqn:Hread; [|done..].
  apply bufio_Read_rel in Hread. cbn [mbind Outcome_bind].
  destruct (match e with Some e0 => negb (is_EOF e0) | None => false end).
  { by intros [= <-]. }
  destruct (length bs =? 0).
  { pose proof (bufio_Flush_rel bW σ1) as Hf.
    destruct (bufio_Flush bW σ1) as [[ferr bW'] σ2]. simpl in Hf.
    intros [= <-]. simpl. eauto. }
  destruct (bufio_Write wfuel bW bs 0 σ1) as [[[[nw werr] bW'] σ2]| |] eqn:Hw; [|done..].
  apply bufio_Write_rel in Hw. cbn [mbind Outcome_bind].
  destruct werr; [intros [= <-]; simpl; eauto|].
  destruct (negb (length bs =? nw)); [intros [= <-]; simpl; eauto|].
  intros Hrec. apply IH in Hrec. eauto.
Qed.

Lemma buffedCopy_rel (fuel bufferSize : nat) (reader : R) (writer : W) (σ : Σ) run :
  buffedCopy fuel reader writer bufferSize σ = Ret run → rel σ (run_world run).
Proof. apply buffedCopy_loop_rel. Qed.

End WorldRelation.

(** ** [CopyToFile] and the tree *)

Lemma grows_refl (σ : MemFS) : grows σ σ.
Proof. split; [apply extends_refl|done]. Qed.

Lemma grows_trans (σ1 σ2 σ3 : MemFS) : grows σ1 σ2 → grows σ2 σ3 → grows σ1 σ3.
Proof. intros [H12 Hc12] [H23 Hc23]. split; [by eapply extends_trans|congruence]. Qed.

Lemma MemFile_Read_grows (f : MemFile) (n : nat) (σ : MemFS) : grows σ (Read f n σ).2.
Proof.
  unfold Read, File_Reader. cbn [MemFS_OS]. unfold MemFile_Read.
  destruct (accmode (f_flag f) =? O_WRONLY)%Z; [apply grows_refl|].
  destruct (nodes σ !! f_key f) as [[d|]|]; try apply grows_refl.
  destruct (n =? 0); [apply grows_refl|].
  destruct (length (take n (drop (f_off f) d)) =? 0); apply grows_refl.
Qed.

Lemma MemFile_Write_grows (f : MemFile) (p : list byte) (σ : MemFS) :
  grows σ (Write f p σ).2.
Proof.
  unfold Write, File_Writer. cbn [MemFS_OS]. unfold MemFile_Write.
  destruct (accmode (f_flag f) =? O_RDONLY)%Z; [apply grows_refl|].
  destruct (nodes σ !! f_key f) as [[d|]|] eqn:Hk; try apply grows_refl.
  split; [|done]. cbn [snd nodes]. by eapply extends_insert_file.
Qed.

Lemma OpenFile_grows (p : Path) (flag perm : Z) (w w' : MemFS) (r : MemFile + error) :
  OpenFile p flag perm w = (r, w') → grows w w'.
Proof.
  unfold OpenFile, os_OpenFile, String. cbn [MemFS_OS]. unfold MemFS_OpenFile.
  destruct (resolve w p) as [errno|[key [d|]]] eqn:Hres.
  - destruct errno; try (intros [= _ <-]; apply grows_refl).
    destruct (has_flag flag O_CREATE); [|intros [= _ <-]; apply grows_refl].
    destruct (resolve_new w p) as [e|key] eqn:Hnew; [intros [= _ <-]; apply grows_refl|].
    intros [= _ <-]. destruct (resolve_after_create w p key Hnew) as [Hfresh _].
    split; [|done]. by apply extends_insert_fresh.
  - destruct (has_flag flag O_CREATE && has_flag flag O_EXCL);
      [intros [= _ <-]; apply grows_refl|].
    destruct (has_flag flag O_TRUNC); [|intros [= _ <-]; apply grows_refl].
    intros [= _ <-]. split; [|done]. cbn [nodes].
    eapply extends_insert_file. by eapply resolve_lookup.
  - destruct (negb (accmode flag =? O_RDONLY)%Z || has_flag flag O_CREATE);
      intros [= _ <-]; apply grows_refl.
Qed.

Lemma mkdir_walk_extends (m m' : gmap (list string) node) (cur rest : list string) :
  mkdir_walk m cur rest = inr m' → extends m m'.
Proof.
  revert m cur. induction rest as [|c rest IH]; intros m cur; cbn [mkdir_walk].
  - destruct (m !! cur) as [[d|]|]; try done. intros [= <-]. apply extends_refl.
  - destruct (m !! cur) as [[d|]|]; try done.
    destruct (String.eqb c "."); [apply IH|].
    destruct (String.eqb c ".."); [apply IH|].
    destruct (m !! (cur ++ [c])) eqn:Hk; [apply IH|].
    intros Hrec. apply IH in Hrec.
    eapply extends_trans; [|done]. by apply extends_insert_fresh.
Qed.

Lemma mkdir_walk_walk (m m' : gmap (list string) node) (cur rest : list string) :
  mkdir_walk m cur rest = inr m' → ∃ key, walk m' cur rest = inr (key, Directory).
Proof.
  revert m cur. induction rest as [|c rest IH]; intros m cur Hmk.
  - revert Hmk. cbn [mkdir_walk walk].
    destruct (m !! cur) as [[d|]|] eqn:Hcur; try done. intros [= <-].
    rewrite Hcur. eauto.
  - pose proof (mkdir_walk_extends _ _ _ _ Hmk) as Hext.
    revert Hmk. cbn [mkdir_walk walk].
    destruct (m !! cur) as [[d|]|] eqn:Hcur; try done.
    destruct (Hext _ _ Hcur) as (n' & -> & Hdir). destruct n'; [done|].
    destruct (String.eqb c "."); [apply IH|].
    destruct (String.eqb c ".."); [apply IH|].
    destruct (m !! (cur ++ [c])); apply IH.
Qed.

Lemma MkdirAll_MemFS (d : Path) (perm : Z) (w w1 : MemFS) (merr : option error) :
  MkdirAll d perm w = (merr, w1) →
  grows w w1 ∧ errors_Is merr ErrExist = false ∧
  (merr = None → ∃ key, resolve w1 d = inr (key, Directory)) ∧
  (∀ e, merr = Some e → w1 = w).
Proof.
  unfold MkdirAll, os_MkdirAll, String. cbn [MemFS_OS]. unfold MemFS_MkdirAll.
  destruct (String.eqb d "") eqn:Hd.
  { intros [= <- <-]. split; [apply grows_refl|]. by repeat split. }
  destruct (mkdir_walk (nodes w) (start_dir w d) (names d)) as [errno|m'] eqn:Hmk.
  - intros [= <- <-]. split; [apply grows_refl|]. split; [|by split].
    clear Hd. revert Hmk. generalize (nodes w) (start_dir w d).
    induction (names d) as [|c rest IH]; intros m cur; cbn [mkdir_walk].
    + destruct (m !! cur) as [[?|]|]; by intros [= <-].
    + destruct (m !! cur) as [[?|]|]; try by intros [= <-].
      destruct (String.eqb c "."); [apply IH|].
      destruct (String.eqb c ".."); [apply IH|].
      destruct (m !! (cur ++ [c])); apply IH.
  - intros [= <- <-]. split; [split; [by eapply mkdir_walk_extends|done]|].
    split; [done|]. split; [|done]. intros _.
    destruct (mkdir_walk_walk _ _ _ _ Hmk) as (key & Hwalk).
    exists key. unfold resolve. rewrite Hd. unfold start_dir in *. cbn [cwd nodes].
    by rewrite Hwalk.
Qed.

Lemma grows_resolve (w w' : MemFS) (path : string) (key : list string) (n : node) :
  grows w w' → resolve w path = inr (key, n) →
  ∃ n', resolve w' path = inr (key, n') ∧ is_dir n' = is_dir n.
Proof.
  intros [Hext Hcwd] Hres.
  destruct (resolve_extends w w' path key n Hext Hcwd Hres) as (n' & ? & _ & ?). eauto.
Qed.

Lemma CopyToFile_grows (fuel : nat) (p q : Path) (bufferSize : nat) (w w' : MemFS)
    (n : Z) (err : option error) :
  CopyToFile fuel p q bufferSize w = Ret (n, err, w') →
  grows w w' ∧ (err = None → ∃ key, resolve w' (Dir q) = inr (key, Directory)).
Proof.
  unfold CopyToFile.
  destruct (MkdirAll (Dir q) DEFAULT_PERM w) as [merr w1] eqn:Hmk.
  apply MkdirAll_MemFS in Hmk as (Hg1 & Hexist & Hdir & _).
  destruct merr as [e|].
  { rewrite Hexist. cbn [negb]. intros [= <- <- <-]. by split. }
  destruct (Hdir eq_refl) as (key & Hres1).
  destruct (Open p w1) as [[source|e] w2] eqn:Ho.
  2:{ apply (OpenFile_grows p O_RDONLY 0) in Ho. intros [= <- <- <-].
      split; [by eapply grows_trans|done]. }
  apply (OpenFile_grows p O_RDONLY 0) in Ho.
  destruct (Create q w2) as [[destination|e] w3] eqn:Hc.
  2:{ apply (OpenFile_grows q (Z.lor O_RDWR (Z.lor O_CREATE O_TRUNC)) 438) in Hc. cbn. intros [= <- <- <-].
      split; [eauto using grows_trans|done]. }
  apply (OpenFile_grows q (Z.lor O_RDWR (Z.lor O_CREATE O_TRUNC)) 438) in Hc.
  destruct (buffedCopy fuel source destination bufferSize w3) as [run| |] eqn:Hrun; [|done..].
  apply (buffedCopy_rel grows grows_refl grows_trans MemFile_Read_grows MemFile_Write_grows)
    in Hrun.
  cbn. intros [= <- <- <-].
  assert (Hg : grows w1 (run_world run)) by eauto using grows_trans.
  split; [by eapply grows_trans|]. intros _.
  destruct (grows_resolve _ _ _ _ _ Hg Hres1) as ([|] & Hres' & Hd); [done|]. eauto.
Qed.

Lemma CopyToFile_returns (w : MemFS) (p q : Path) (bufferSize : nat) :
  ∃ fuel0, ∀ fuel, fuel0 ≤ fuel →
    ∃ n err w', CopyToFile fuel p q bufferSize w = Ret (n, err, w').
Proof.
  destruct bufferSize as [|B].
  - exists 1. intros [|fuel] Hfuel; [lia|]. unfold CopyToFile.
    destruct (MkdirAll (Dir q) DEFAULT_PERM w) as [merr w1].
    destruct (match merr with Some _ => negb (errors_Is merr ErrExist) | None => false end);
      [eauto|].
    destruct (Open p w1) as [[source|e] w2]; [|eauto].
    destruct (Create q w2) as [[destination|e] w3]; [|cbn; eauto].
    rewrite buffedCopy_zero. cbn. eauto.
  - destruct (CopyToFile_MemFS w p q (S B)) as (fuel0 & Hcopy); [lia|].
    exists fuel0. intros fuel Hfuel.
    destruct (Hcopy fuel Hfuel) as (n & err & w' & Hrun & _). eauto.
Qed.


Lemma OpenFile_truncate (w : MemFS) (p : Path) (flag perm : Z) (key : list string)
    (d : list byte) :
  resolve w p = inr (key, RegFile d) →
  has_flag flag O_EXCL = false → has_flag flag O_TRUNC = true →
  OpenFile p flag perm w
  = (inl (mkMemFile p key flag 0), mkMemFS (cwd w) (<[key := RegFile []]> (nodes w))).
Proof.
  intros Hres Hexcl Htrunc. unfold OpenFile, os_OpenFile, String. cbn [MemFS_OS].
  unfold MemFS_OpenFile. by rewrite Hres, Hexcl, Htrunc, andb_false_r.
Qed.

Lemma buffedCopy_empty_file (fuel bufferSize : nat) (source : MemFile) (W : Type)
    `{!Writer MemFS W} (writer : W) (σ : MemFS) :
  accmode (f_flag source) ≠ O_WRONLY → nodes σ !! f_key source = Some (RegFile []) →
  ∃ t, buffedCopy (S fuel) source writer bufferSize σ
       = Ret (mkRun 0%Z None t source writer σ).
Proof.
  intros Hacc Hk. destruct bufferSize as [|B].
  - rewrite buffedCopy_zero. eauto.
  - rewrite (buffedCopy_first_read fuel (S B) source writer σ EOF); [cbn; eauto|lia|].
    intros n Hn. unfold Read, File_Reader. cbn [MemFS_OS]. unfold MemFile_Read.
    rewrite (proj2 (Z.eqb_neq _ _) Hacc), Hk. destruct n; [lia|]. by rewrite drop_nil.
Qed.

(** ** Splitting a path and renaming its file *)

Lemma str_chars (s : string) : str (chars s) = s.
Proof. apply String.string_of_list_ascii_of_string. Qed.

Lemma chars_str (cs : list ascii) : chars (str cs) = cs.
Proof. apply String.list_ascii_of_string_of_list_ascii. Qed.

Lemma str_app (a b : list ascii) : str (a ++ b) = str a +:+ str b.
Proof. induction a as [|c a IH]; [done|]. simpl. by rewrite IH. Qed.

Lemma chars_app (s t : string) : chars (s +:+ t) = chars s ++ chars t.
Proof. induction s as [|c s IH]; [done|]. simpl. by rewrite IH. Qed.

Lemma length_chars (s : string) : length (chars s) = String.length s.
Proof. induction s as [|c s IH]; [done|]. simpl. by rewrite IH. Qed.

Lemma str_nil_inv (cs : list ascii) : String.eqb (str cs) "" = true → cs = [].
Proof. by destruct cs. Qed.

Lemma is_sep_eq (c : ascii) : is_sep c = true → c = "/"%char.
Proof. apply Ascii.eqb_eq. Qed.

Lemma until_from_sep (r : list ascii) : until_sep r ++ from_sep r = r.
Proof.
  induction r as [|c r IH]; [done|]. simpl. destruct (is_sep c); [done|].
  simpl. by rewrite IH.
Qed.

Lemma upto_after_last_sep (cs : list ascii) : upto_last_sep cs ++ after_last_sep cs = cs.
Proof.
  unfold upto_last_sep, after_last_sep.
  by rewrite <- rev_app_distr, until_from_sep, rev_involutive.
Qed.

Lemma until_sep_no_sep (r : list ascii) : forallb (λ c, negb (is_sep c)) (until_sep r) = true.
Proof.
  induction r as [|c r IH]; [done|]. simpl. destruct (is_sep c) eqn:Hc; [done|].
  simpl. by rewrite Hc.
Qed.

Lemma from_sep_head (r : list ascii) : from_sep r = [] ∨ ∃ r', from_sep r = "/"%char :: r'.
Proof.
  induction r as [|c r IH]; [by left|]. simpl. destruct (is_sep c) eqn:Hc; [|done].
  right. apply is_sep_eq in Hc as ->. eauto.
Qed.

Lemma upto_last_sep_shape (cs : list ascii) :
  upto_last_sep cs = [] ∨ ∃ a, upto_last_sep cs = a ++ ["/"%char].
Proof.
  unfold upto_last_sep. destruct (from_sep_head (rev cs)) as [->|[r' ->]]; [by left|].
  right. exists (rev r'). done.
Qed.

Lemma ext_from_until_sep (r acc : list ascii) : ext_from (until_sep r) acc = ext_from r acc.
Proof.
  revert acc. induction r as [|c r IH]; intros acc; [done|]. simpl.
  destruct (is_sep c) eqn:Hc; [done|]. simpl. rewrite Hc.
  destruct (Ascii.eqb c "."); [done|]. apply IH.
Qed.

Lemma ext_from_suffix (r acc : list ascii) : ∃ pre, rev r ++ acc = pre ++ ext_from r acc.
Proof.
  revert acc. induction r as [|c r IH]; intros acc.
  - exists acc. simpl. by rewrite app_nil_r.
  - simpl. destruct (is_sep c).
    { eexists. by rewrite app_nil_r. }
    destruct (Ascii.eqb c ".").
    { exists (rev r). by rewrite <- app_assoc. }
    destruct (IH (c :: acc)) as [pre Hpre]. exists pre. by rewrite <- app_assoc.
Qed.

Lemma strings_TrimSuffix_app (s1 s2 : string) : strings_TrimSuffix (s1 +:+ s2) s2 = s1.
Proof.
  unfold strings_TrimSuffix, strings_HasSuffix.
  rewrite <- !length_chars, chars_app, length_app.
  replace (length (chars s1) + length (chars s2) - length (chars s2))
    with (length (chars s1)) by lia.
  rewrite drop_app_length, take_app_length, !str_chars, String.eqb_refl.
  replace (length (chars s2) <=? length (chars s1) + length (chars s2)) with true
    by (symmetry; apply Nat.leb_le; lia).
  done.
Qed.

Lemma filepath_Ext_after_last_sep (cs : list ascii) :
  filepath_Ext (str (after_last_sep cs)) = filepath_Ext (str cs).
Proof.
  unfold filepath_Ext. rewrite !chars_str. unfold after_last_sep.
  by rewrite rev_involutive, ext_from_until_sep.
Qed.

Lemma filepath_Ext_suffix (s : string) : ∃ pre, s = pre +:+ filepath_Ext s.
Proof.
  destruct (ext_from_suffix (rev (chars s)) []) as [pre Hpre].
  rewrite rev_involutive, app_nil_r in Hpre. exists (str pre).
  unfold filepath_Ext. by rewrite <- str_app, <- Hpre, str_chars.
Qed.

Lemma strings_TrimSuffix_Ext (s : string) :
  strings_TrimSuffix s (filepath_Ext s) +:+ filepath_Ext s = s.
Proof.
  destruct (filepath_Ext_suffix s) as [pre Hpre].
  generalize dependent (filepath_Ext s). intros e ->.
  by rewrite strings_TrimSuffix_app.
Qed.

Lemma filepath_Split_parts (s : string) :
  (filepath_Split s).1 +:+ (filepath_Split s).2 = s.
Proof.
  unfold filepath_Split. cbn [fst snd].
  by rewrite <- str_app, upto_after_last_sep, str_chars.
Qed.

(** X12.  [SplitAll] cuts the path into three parts that give it back when
    put together, and the third is the extension of the whole path; so do
    the two parts of [Split]. *)
Theorem SplitAll_parts_give_path (p : Path) :
  (SplitAll p).1.1 +:+ (SplitAll p).1.2 +:+ (SplitAll p).2 = p ∧
  (SplitAll p).2 = Ext p ∧
  (SplitAll p).1.1 = (Split p).1 ∧
  (Split p).1 +:+ (Split p).2 = p.
Proof.
  pose proof (filepath_Split_parts p) as Hsplit.
  unfold SplitAll, Split, Ext, String.
  destruct (filepath_Split p) as [dir file] eqn:Hs. cbn [fst snd] in *.
  split; [by rewrite strings_TrimSuffix_Ext|]. split; [|done].
  unfold filepath_Split in Hs. injection Hs as _ <-.
  by rewrite filepath_Ext_after_last_sep, str_chars.
Qed.

Lemma fields_nonempty (cs : list ascii) : fields cs ≠ [].
Proof.
  induction cs as [|c cs IH]; [done|]. simpl. destruct (is_sep c); [done|].
  by destruct (fields cs).
Qed.

Lemma fields_app_sep (a b : list ascii) :
  fields (a ++ "/"%char :: b) = fields a ++ fields b.
Proof.
  induction a as [|c a IH]; [done|]. simpl. rewrite IH.
  destruct (is_sep c); [done|].
  pose proof (fields_nonempty a). by destruct (fields a).
Qed.

Lemma filepath_Clean_str (cs : list ascii) :
  filepath_Clean (str cs)
  = match cs with
    | [] => "."
    | _ =>
        let out := rev (foldl (clean_step (rooted cs)) [] (fields cs)) in
        if rooted cs then str ("/"%char :: join_sep out)
        else match out with
             | [] => "."
             | _ => str (join_sep out)
             end
    end.
Proof. unfold filepath_Clean. by rewrite chars_str. Qed.

Lemma filepath_Clean_double_sep_chars (a cs : list ascii) :
  filepath_Clean (str (a ++ "/"%char :: "/"%char :: cs))
  = filepath_Clean (str (a ++ "/"%char :: cs)).
Proof.
  rewrite !filepath_Clean_str.
  assert (Hr : rooted (a ++ "/"%char :: "/"%char :: cs) = rooted (a ++ "/"%char :: cs))
    by (by destruct a).
  assert (Hf : foldl (clean_step (rooted (a ++ "/"%char :: "/"%char :: cs))) []
                 (fields (a ++ "/"%char :: "/"%char :: cs))
               = foldl (clean_step (rooted (a ++ "/"%char :: cs))) []
                   (fields (a ++ "/"%char :: cs))).
  { rewrite Hr, !fields_app_sep, !foldl_app.
    change (fields ("/"%char :: cs)) with ([] :: fields cs). done. }
  cbv zeta. rewrite Hf, Hr. by destruct a.
Qed.

Lemma filepath_Clean_double_sep (a : list ascii) (s : string) :
  filepath_Clean (str (a ++ ["/"%char]) +:+ "/" +:+ s)
  = filepath_Clean (str (a ++ ["/"%char]) +:+ s).
Proof.
  replace (str (a ++ ["/"%char]) +:+ "/" +:+ s)
    with (str (a ++ "/"%char :: "/"%char :: chars s)).
  2:{ change (a ++ "/"%char :: "/"%char :: chars s)
        with (a ++ ["/"%char] ++ chars ("/" +:+ s)).
      by rewrite app_assoc, str_app, str_chars. }
  replace (str (a ++ ["/"%char]) +:+ s) with (str (a ++ "/"%char :: chars s)).
  2:{ change (a ++ "/"%char :: chars s) with (a ++ ["/"%char] ++ chars s).
      by rewrite app_assoc, str_app, str_chars. }
  apply filepath_Clean_double_sep_chars.
Qed.

Lemma string_app_nil_r (s : string) : s +:+ "" = s.
Proof.
  induction s as [|c s IH]; [done|].
  change (String.String c (s +:+ "") = String.String c s). by rewrite IH.
Qed.

Lemma Join_dir_name (D : list ascii) (name : string) :
  D = [] ∨ (∃ a, D = a ++ ["/"%char]) →
  Join (str D) [name]
  = if String.eqb (str D +:+ name) "" then "" else filepath_Clean (str D +:+ name).
Proof.
  intros [->|[a ->]]; unfold Join, String; cbn [filepath_Join].
  - change (str []) with "". change ("" +:+ name) with name.
    change (String.eqb "" "") with true. cbn [strings_Join_sep].
    by destruct (String.eqb name "").
  - assert (Hne : ∀ t, String.eqb (str (a ++ ["/"%char]) +:+ t) "" = false)
      by (intros t; by destruct a).
    pose proof (Hne "") as Hne0. rewrite string_app_nil_r in Hne0.
    rewrite Hne0, Hne. cbn [strings_Join_sep].
    apply filepath_Clean_double_sep.
Qed.

(** X13.  [AddPrefix] puts the prefix into the text of the path, right
    after its last separator, and cleans the result; only for an empty path
    with an empty prefix it returns the empty string. *)
Theorem AddPrefix_inserts_then_cleans (p : Path) (prefix : string) :
  AddPrefix p prefix
  = let s := (Split p).1 +:+ prefix +:+ (Split p).2 in
    if String.eqb s "" then "" else Clean s.
Proof.
  unfold AddPrefix, Split, filepath_Split, Clean, String. cbn [fst snd].
  apply Join_dir_name, upto_last_sep_shape.
Qed.

(** X14.  [AddPostfix] puts the postfix into the text of the path, right
    before the extension of its file name (at the end when there is none),
    and cleans the result; only for an empty path with an empty postfix it
    returns the empty string. *)
Theorem AddPostfix_inserts_then_cleans (p : Path) (postfix : string) :
  AddPostfix p postfix
  = let s := (SplitAll p).1.1 +:+ (SplitAll p).1.2 +:+ postfix +:+ (SplitAll p).2 in
    if String.eqb s "" then "" else Clean s.
Proof.
  unfold AddPostfix, SplitAll, Split, filepath_Split, Clean, String. cbn [fst snd].
  apply Join_dir_name, upto_last_sep_shape.
Qed.

Lemma plain_name_chars (s : string) :
  plain_name s = true →
  Forall (λ c, is_sep c = false) (chars s) ∧ chars s ≠ [] ∧
  clean_step false [] (chars s) = [chars s] ∧
  ∀ r out, clean_step r out (chars s) = chars s :: out.
Proof.
  unfold plain_name. rewrite !andb_true_iff, !negb_true_iff.
  intros [[[Hsep Hempty] Hdot] Hdotdot].
  assert (Hstep : ∀ r out, clean_step r out (chars s) = chars s :: out).
  { intros r out. unfold clean_step, chars_eqb. rewrite str_chars.
    change (str []) with "". change (str dot) with ".". change (str dotdot) with "..".
    by rewrite Hempty, Hdot, Hdotdot. }
  split; [|split; [|split; [apply Hstep|done]]].
  - apply Forall_forall. intros c Hc. rewrite forallb_forall in Hsep.
    apply negb_true_iff, Hsep. by apply list_elem_of_In.
  - intros Hnil. rewrite <- (str_chars s), Hnil in Hempty. done.
Qed.

Lemma fields_plain (cs : list ascii) :
  Forall (λ c, is_sep c = false) cs → fields cs = [cs].
Proof.
  induction 1 as [|c cs Hc _ IH]; [done|]. simpl. by rewrite Hc, IH.
Qed.

Lemma join_sep_snoc (l : list (list ascii)) (f : list ascii) :
  join_sep (l ++ [f]) = match l with [] => f | _ => join_sep l ++ "/"%char :: f end.
Proof.
  induction l as [|g l IH]; [done|]. cbn [app join_sep]. rewrite IH.
  destruct l as [|h l]; [done|]. cbn [app]. by rewrite <- app_assoc.
Qed.

Lemma until_sep_app (x y : list ascii) :
  Forall (λ c, is_sep c = false) x → until_sep (x ++ y) = x ++ until_sep y.
Proof. induction 1 as [|c x Hc _ IH]; [done|]. simpl. by rewrite Hc, IH. Qed.

Lemma after_last_sep_dir_plain (Y cs : list ascii) :
  Y = [] ∨ (∃ b, Y = b ++ ["/"%char]) → Forall (λ c, is_sep c = false) cs →
  after_last_sep (Y ++ cs) = cs.
Proof.
  intros HY Hcs. unfold after_last_sep.
  rewrite rev_app_distr, until_sep_app by (by apply Forall_rev).
  destruct HY as [->|[b ->]].
  - simpl. by rewrite app_nil_r, rev_involutive.
  - rewrite (rev_app_distr b ["/"%char]). simpl. by rewrite app_nil_r, rev_involutive.
Qed.

Lemma strip_trailing_seps_plain (Y cs : list ascii) :
  Forall (λ c, is_sep c = false) cs → cs ≠ [] →
  rev (strip_trailing_seps_rev (rev (Y ++ cs))) = Y ++ cs.
Proof.
  intros Hcs Hne. rewrite rev_app_distr.
  apply Forall_rev in Hcs. destruct (rev cs) as [|c r] eqn:Hrev.
  { apply (f_equal (@rev _)) in Hrev. rewrite rev_involutive in Hrev. done. }
  cbn [app strip_trailing_seps_rev]. inversion Hcs as [|? ? Hc _]; subst. rewrite Hc.
  change (c :: r ++ rev Y) with ((c :: r) ++ rev Y).
  by rewrite <- Hrev, <- rev_app_distr, rev_involutive.
Qed.


(** The elements that [filepath.Clean] keeps: names without a separator that
    are neither empty nor [.], with [..] only at the start of a path that is
    not rooted.  [out] is the stack of the loop, the last element first. *)
Lemma chars_eqb_eq (a b : list ascii) : chars_eqb a b = true → a = b.
Proof.
  unfold chars_eqb. intros H. apply String.eqb_eq in H.
  apply (f_equal chars) in H. by rewrite !chars_str in H.
Qed.

Lemma chars_eqb_refl (a : list ascii) : chars_eqb a a = true.
Proof. unfold chars_eqb. apply String.eqb_refl. Qed.

Lemma fields_sep_free (cs : list ascii) :
  Forall (Forall (λ c, is_sep c = false)) (fields cs).
Proof.
  induction cs as [|c cs IH]; [by repeat constructor|]. simpl.
  destruct (is_sep c) eqn:Hc; [by constructor|].
  destruct (fields cs) as [|f fs]; [by repeat constructor|].
  inversion IH; subst. by repeat constructor.
Qed.

Lemma clean_step_canonical (r : bool) (out : list (list ascii)) (f : list ascii) :
  canonical r out → Forall (λ c, is_sep c = false) f → canonical r (clean_step r out f).
Proof.
  intros Hout Hf. unfold clean_step.
  destruct (chars_eqb f [] || chars_eqb f dot) eqn:Hskip; [done|].
  apply orb_false_elim in Hskip as [Hnil Hdot].
  destruct (chars_eqb f dotdot) eqn:Hdd.
  - apply chars_eqb_eq in Hdd as ->.
    destruct out as [|top out'].
    + destruct r; [done|]. by apply canonical_dotdot.
    + destruct (chars_eqb top dotdot) eqn:Htop.
      * apply chars_eqb_eq in Htop as ->.
        inversion Hout as [|? Hr Hall|? ? Hplain _]; subst.
        -- apply canonical_dotdot; [done|]. by constructor.
        -- unfold plain in Hplain. destruct Hplain as (_ & _ & _ & Hne).
           by rewrite chars_eqb_refl in Hne.
      * inversion Hout as [|? Hr Hall|? ? Hplain Hout']; subst; [|done].
        by rewrite chars_eqb_refl in Htop.
  - by apply canonical_plain.
Qed.

Lemma foldl_clean_step_canonical (r : bool) (out : list (list ascii))
    (fs : list (list ascii)) :
  canonical r out → Forall (Forall (λ c, is_sep c = false)) fs →
  canonical r (foldl (clean_step r) out fs).
Proof.
  intros Hout Hfs. revert out Hout.
  induction Hfs as [|f fs Hf _ IH]; intros out Hout; [done|].
  cbn [foldl]. apply IH. by apply clean_step_canonical.
Qed.

Lemma canonical_dotdots (out : list (list ascii)) :
  Forall (λ f, f = dotdot) out → foldl (clean_step false) [] (rev out) = out.
Proof.
  induction 1 as [|f out -> Hall IH]; [done|].
  cbn [rev]. rewrite foldl_app, IH. cbn [foldl].
  destruct out as [|top out']; [done|].
  unfold clean_step.
  change (chars_eqb dotdot [] || chars_eqb dotdot dot) with false.
  change (chars_eqb dotdot dotdot) with true. cbv iota.
  assert (top = dotdot) as -> by (by inversion Hall).
  by change (chars_eqb dotdot dotdot) with true.
Qed.

Lemma canonical_replay (r : bool) (out : list (list ascii)) :
  canonical r out → foldl (clean_step r) [] (rev out) = out.
Proof.
  induction 1 as [|out Hr Hall|f out Hplain Hout IH]; [done| |].
  - subst r. apply (canonical_dotdots (dotdot :: out)). by constructor.
  - cbn [rev]. rewrite foldl_app, IH. cbn [foldl].
    destruct Hplain as (_ & Hnil & Hdot & Hdd).
    unfold clean_step. by rewrite Hnil, Hdot, Hdd.
Qed.

Lemma canonical_elements (r : bool) (out : list (list ascii)) :
  canonical r out → Forall (λ f, Forall (λ c, is_sep c = false) f ∧ f ≠ []) out.
Proof.
  induction 1 as [|out Hr Hall|f out Hplain Hout IH]; [done| |].
  - constructor; [by split; [repeat constructor|]|].
    eapply Forall_impl; [done|]. intros f ->. by split; [repeat constructor|].
  - constructor; [|done]. destruct Hplain as (Hsep & Hnil & _). split; [done|].
    intros ->. by rewrite chars_eqb_refl in Hnil.
Qed.

Lemma fields_join_sep (l : list (list ascii)) :
  l ≠ [] → Forall (Forall (λ c, is_sep c = false)) l → fields (join_sep l) = l.
Proof.
  intros Hne Hl. induction Hl as [|f l Hf Hl IH]; [done|].
  destruct l as [|g l]; [by apply fields_plain|].
  change (join_sep (f :: g :: l)) with (f ++ "/"%char :: join_sep (g :: l)).
  rewrite fields_app_sep, (fields_plain f Hf), IH by done. done.
Qed.

Lemma rooted_join_sep (l : list (list ascii)) (x : list ascii) :
  l ≠ [] → Forall (λ f, Forall (λ c, is_sep c = false) f ∧ f ≠ []) l →
  rooted (join_sep l ++ x) = false ∧ join_sep l ++ x ≠ [].
Proof.
  intros Hne Hl. destruct Hl as [|f l [Hf Hfne] Hl]; [done|].
  destruct f as [|c f]; [done|]. inversion Hf; subst.
  by destruct l.
Qed.

Lemma filepath_Clean_str_nonempty (cs : list ascii) :
  cs ≠ [] →
  filepath_Clean (str cs)
  = if rooted cs
    then str ("/"%char :: join_sep (rev (foldl (clean_step (rooted cs)) [] (fields cs))))
    else match rev (foldl (clean_step (rooted cs)) [] (fields cs)) with
         | [] => "."
         | _ => str (join_sep (rev (foldl (clean_step (rooted cs)) [] (fields cs))))
         end.
Proof. intros Hne. rewrite filepath_Clean_str. destruct cs; [done|reflexivity]. Qed.

(** What [filepath.Clean] returns for the stack [out] of its loop. *)
Lemma filepath_Clean_render (r : bool) (out : list (list ascii)) (tail : list ascii) :
  canonical r out → tail = [] ∨ tail = ["/"%char] →
  filepath_Clean (str ((if r then ["/"%char] else [])
                       ++ match rev out with [] => [] | l => join_sep l ++ tail end))
  = if r then str ("/"%char :: join_sep (rev out))
    else match rev out with [] => "." | l => str (join_sep l) end.
Proof.
  intros Hout Htail.
  pose proof (canonical_elements r out Hout) as Hel. apply Forall_rev in Hel.
  pose proof (canonical_replay r out Hout) as Hreplay.
  assert (Hsep : Forall (Forall (λ c, is_sep c = false)) (rev out)).
  { eapply Forall_impl; [done|]. by intros f [? _]. }
  destruct (rev out) as [|g l] eqn:Hrev.
  - apply (f_equal (@rev _)) in Hrev. rewrite rev_involutive in Hrev. subst out.
    by destruct r.
  - assert (Hfields : ∀ x, x = [] ∨ x = ["/"%char] →
              foldl (clean_step r) [] (fields (join_sep (g :: l) ++ x)) = out).
    { intros x [-> | ->].
      - by rewrite app_nil_r, fields_join_sep.
      - rewrite fields_app_sep, foldl_app, fields_join_sep, Hreplay by done. done. }
    destruct (rooted_join_sep (g :: l) tail) as [Hroot Hne]; [done|done|].
    destruct r; cbn [app].
    + rewrite filepath_Clean_str_nonempty by done.
      cbn [rooted]. change (is_sep "/"%char) with true. cbv iota.
      change (fields ("/"%char :: join_sep (g :: l) ++ tail))
        with ([] :: fields (join_sep (g :: l) ++ tail)).
      cbn [foldl]. change (clean_step true [] []) with (@nil (list ascii)).
      by rewrite (Hfields tail Htail), Hrev.
    + rewrite filepath_Clean_str_nonempty by done.
      by rewrite Hroot, (Hfields tail Htail), Hrev.
Qed.

Lemma SplitAll_parts (p : Path) :
  (SplitAll p).1.1 +:+ (SplitAll p).1.2 +:+ (SplitAll p).2 = p ∧
  (SplitAll p).2 = Ext p ∧
  (SplitAll p).1.1 = (Split p).1.
Proof.
  pose proof (filepath_Split_parts p) as Hsplit.
  unfold SplitAll, Split, Ext, String.
  destruct (filepath_Split p) as [dir file] eqn:Hs. cbn [fst snd] in *.
  split; [by rewrite strings_TrimSuffix_Ext|]. split; [|done].
  unfold filepath_Split in Hs. injection Hs as _ <-.
  by rewrite filepath_Ext_after_last_sep, str_chars.
Qed.

Lemma upto_last_sep_dir_plain (Y cs : list ascii) :
  Y = [] ∨ (∃ b, Y = b ++ ["/"%char]) → Forall (λ c, is_sep c = false) cs →
  upto_last_sep (Y ++ cs) = Y.
Proof.
  intros HY Hcs. pose proof (upto_after_last_sep (Y ++ cs)) as Hparts.
  rewrite after_last_sep_dir_plain in Hparts by done. by apply app_inv_tail in Hparts.
Qed.

(** The path [D] up to a separator, or empty, followed by a plain name:
    cleaned, it is a directory part [Y] that cleans to what [D] cleans to,
    followed by the name. *)
Lemma filepath_Clean_dir_plain (D : list ascii) (name : string) :
  D = [] ∨ (∃ a, D = a ++ ["/"%char]) → plain_name name = true →
  ∃ Y, (Y = [] ∨ ∃ b, Y = b ++ ["/"%char]) ∧
       filepath_Clean (str D +:+ name) = str (Y ++ chars name) ∧
       filepath_Clean (str Y) = filepath_Clean (str D).
Proof.
  intros HD Hname. destruct (plain_name_chars name Hname) as (Hsep & Hne & _ & Hstep).
  assert (Hs : str D +:+ name = str (D ++ chars name)) by (by rewrite str_app, str_chars).
  rewrite Hs. clear Hs.
  destruct HD as [->|[a ->]].
  - exists []. split; [by left|]. split; [|done].
    cbn [app]. rewrite filepath_Clean_str_nonempty by done.
    assert (Hr : rooted (chars name) = false).
    { destruct (chars name); [done|]. by inversion Hsep. }
    rewrite Hr, fields_plain by done. cbn [foldl]. by rewrite Hstep.
  - rewrite <- app_assoc. cbn [app].
    assert (Hnonempty : a ++ "/"%char :: chars name ≠ []) by (by destruct a).
    assert (Hroot : rooted (a ++ "/"%char :: chars name) = rooted (a ++ ["/"%char]))
      by (by destruct a).
    rewrite filepath_Clean_str_nonempty by done. rewrite Hroot.
    set (r := rooted (a ++ ["/"%char])).
    rewrite fields_app_sep, foldl_app, (fields_plain (chars name)) by done.
    cbn [foldl]. rewrite Hstep. cbn [rev]. rewrite join_sep_snoc.
    set (out := foldl (clean_step r) [] (fields a)).
    assert (Hout : canonical r out).
    { apply foldl_clean_step_canonical; [constructor|apply fields_sep_free]. }
    exists ((if r then ["/"%char] else [])
            ++ match rev out with [] => [] | l => join_sep l ++ ["/"%char] end).
    split; [|split].
    + destruct r, (rev out) as [|g l].
      * right. by exists [].
      * right. exists ("/"%char :: join_sep (g :: l)). done.
      * by left.
      * right. by eexists.
    + destruct r, (rev out) as [|g l] eqn:Hrev; cbn [app].
      * done.
      * by rewrite <- app_assoc.
      * by destruct (chars name).
      * rewrite <- app_assoc. cbn [app].
        by destruct ((g :: l) ++ [chars name]) eqn:Hx; [destruct l|].
    + rewrite (filepath_Clean_render r out ["/"%char] Hout) by (by right).
      rewrite filepath_Clean_str_nonempty by (by destruct a).
      fold r. change (a ++ ["/"%char]) with (a ++ "/"%char :: []).
      rewrite fields_app_sep, foldl_app. fold out.
      change (fields []) with [@nil ascii]. cbn [foldl].
      change (clean_step r out []) with out.
      by destruct r, (rev out).
Qed.

Lemma filepath_Base_dir_plain (Y : list ascii) (name : string) :
  Y = [] ∨ (∃ b, Y = b ++ ["/"%char]) → plain_name name = true →
  filepath_Base (str (Y ++ chars name)) = name ∧
  filepath_Ext (str (Y ++ chars name)) = filepath_Ext name.
Proof.
  intros HY Hname. destruct (plain_name_chars name Hname) as (Hsep & Hne & _).
  split.
  - unfold filepath_Base. rewrite chars_str.
    destruct (Y ++ chars name) as [|c cs] eqn:Hcs.
    { apply app_eq_nil in Hcs as [_ ?]. done. }
    rewrite <- Hcs. rewrite strip_trailing_seps_plain, after_last_sep_dir_plain by done.
    destruct (chars name) eqn:Hn; [done|]. by rewrite <- Hn, str_chars.
  - rewrite <- (filepath_Ext_after_last_sep (Y ++ chars name)).
    by rewrite after_last_sep_dir_plain, str_chars.
Qed.


Lemma filepath_Dir_dir_plain (Y : list ascii) (name : string) :
  Y = [] ∨ (∃ b, Y = b ++ ["/"%char]) → plain_name name = true →
  filepath_Dir (str (Y ++ chars name)) = filepath_Clean (str Y).
Proof.
  intros HY Hname. destruct (plain_name_chars name Hname) as (Hsep & _).
  unfold filepath_Dir. by rewrite chars_str, upto_last_sep_dir_plain.
Qed.

Lemma Join_dir_plain (D : list ascii) (name : string) :
  D = [] ∨ (∃ a, D = a ++ ["/"%char]) → plain_name name = true →
  Dir (Join (str D) [name]) = filepath_Clean (str D) ∧
  Base (Join (str D) [name]) = name ∧
  Ext (Join (str D) [name]) = filepath_Ext name.
Proof.
  intros HD Hname. rewrite Join_dir_name by done.
  destruct (plain_name_chars name Hname) as (_ & Hne & _).
  assert (Hs : String.eqb (str D +:+ name) "" = false).
  { destruct (String.eqb (str D +:+ name) "") eqn:He; [|done].
    apply String.eqb_eq in He. apply (f_equal chars) in He.
    rewrite chars_app in He. apply app_eq_nil in He as [_ ?]. done. }
  rewrite Hs.
  destruct (filepath_Clean_dir_plain D name HD Hname) as (Y & HY & -> & <-).
  unfold Dir, Base, Ext, String.
  split; [by apply filepath_Dir_dir_plain|by apply filepath_Base_dir_plain].
Qed.

Lemma string_app_assoc (s t u : string) : (s +:+ t) +:+ u = s +:+ (t +:+ u).
Proof.
  rewrite <- (str_chars ((s +:+ t) +:+ u)), <- (str_chars (s +:+ (t +:+ u))).
  by rewrite !chars_app, app_assoc.
Qed.

Lemma ext_from_app (r r2 acc : list ascii) :
  ext_from r acc ≠ [] → ext_from (r ++ r2) acc = ext_from r acc.
Proof.
  revert acc. induction r as [|c r IH]; intros acc; [done|]. cbn [app ext_from].
  destruct (is_sep c); [done|]. destruct (Ascii.eqb c "."); [done|]. apply IH.
Qed.

Lemma filepath_Ext_app (x s : string) :
  filepath_Ext s ≠ "" → filepath_Ext (x +:+ s) = filepath_Ext s.
Proof.
  unfold filepath_Ext. intros Hne. rewrite chars_app, rev_app_distr, ext_from_app; [done|].
  intros Hnil. by rewrite Hnil in Hne.
Qed.

Lemma ext_from_pass (t r acc : list ascii) :
  Forall (λ c, is_sep c = false ∧ Ascii.eqb c "." = false) t →
  ext_from (t ++ r) acc = ext_from r (rev t ++ acc).
Proof.
  intros Ht. revert acc. induction Ht as [|c t [Hsep Hdot] _ IH]; intros acc; [done|].
  cbn [app ext_from rev]. rewrite Hsep, Hdot, IH. by rewrite <- app_assoc.
Qed.

Lemma ext_from_shape (r acc : list ascii) :
  ext_from r acc = [] ∨
  ∃ t, Forall (λ c, is_sep c = false ∧ Ascii.eqb c "." = false) t ∧
       ext_from r acc = "."%char :: rev t ++ acc.
Proof.
  revert acc. induction r as [|c r IH]; intros acc; [by left|]. cbn [ext_from].
  destruct (is_sep c) eqn:Hsep; [by left|].
  destruct (Ascii.eqb c ".") eqn:Hdot.
  { right. exists []. apply Ascii.eqb_eq in Hdot as ->. by split. }
  destruct (IH (c :: acc)) as [->|(t & Ht & ->)]; [by left|].
  right. exists (c :: t). split; [by constructor|].
  cbn [rev]. by rewrite <- app_assoc.
Qed.

Lemma filepath_Ext_Ext (s : string) : filepath_Ext (filepath_Ext s) = filepath_Ext s.
Proof.
  unfold filepath_Ext at 2 3.
  destruct (ext_from_shape (rev (chars s)) []) as [->|(t & Ht & ->)]; [done|].
  rewrite app_nil_r. unfold filepath_Ext. rewrite chars_str.
  change (rev ("."%char :: rev t)) with (rev (rev t) ++ ["."%char]).
  rewrite rev_involutive, ext_from_pass by done. by rewrite app_nil_r.
Qed.

Lemma filepath_Ext_app_Ext (x s : string) :
  filepath_Ext s ≠ "" → filepath_Ext (x +:+ filepath_Ext s) = filepath_Ext s.
Proof.
  intros Hne. rewrite filepath_Ext_app; rewrite filepath_Ext_Ext; done.
Qed.

Lemma filepath_Clean_Clean (s : string) :
  filepath_Clean (filepath_Clean s) = filepath_Clean s.
Proof.
  rewrite <- (str_chars s). generalize (chars s). intros cs.
  destruct (decide (cs = [])) as [->|Hne]; [done|].
  rewrite (filepath_Clean_str_nonempty cs Hne).
  set (r := rooted cs). set (out := foldl (clean_step r) [] (fields cs)).
  assert (Hout : canonical r out).
  { apply foldl_clean_step_canonical; [constructor|apply fields_sep_free]. }
  pose proof (filepath_Clean_render r out [] Hout (or_introl eq_refl)) as Hrender.
  destruct r, (rev out) as [|g l]; cbn [app] in Hrender; rewrite ?app_nil_r in Hrender; done.
Qed.

(** X15.  When the prefix and the file name give a plain name (not empty,
    no separator in it, neither [.] nor [..]), [AddPrefix] renames the file
    where it is: the directory of the result is the directory of the path,
    its base name is the prefix followed by the file name, and an extension
    the path has is kept. *)
Theorem AddPrefix_renames_in_place (p : Path) (prefix : string) :
  plain_name (prefix +:+ (Split p).2) = true →
  Dir (AddPrefix p prefix) = Dir p ∧
  Base (AddPrefix p prefix) = prefix +:+ (Split p).2 ∧
  (Ext p ≠ "" → Ext (AddPrefix p prefix) = Ext p).
Proof.
  unfold AddPrefix, Split, filepath_Split, String. cbn [fst snd]. intros Hname.
  destruct (Join_dir_plain _ _ (upto_last_sep_shape (chars p)) Hname) as (HDir & HBase & HExt).
  split; [done|]. split; [done|]. intros Hext. rewrite HExt.
  unfold Ext, String in *.
  assert (He : filepath_Ext (str (after_last_sep (chars p))) = filepath_Ext p)
    by (by rewrite filepath_Ext_after_last_sep, str_chars).
  rewrite filepath_Ext_app; [done|]. by rewrite He.
Qed.

Lemma AddPrefix_renames_in_place_witness :
  AddPrefix "/a/b/file.txt" "tmp_" = "/a/b/tmp_file.txt" ∧
  Dir (AddPrefix "/a/b/file.txt" "tmp_") = Dir "/a/b/file.txt" ∧
  Base (AddPrefix "/a/b/file.txt" "tmp_") = "tmp_" +:+ (Split "/a/b/file.txt").2 ∧
  (Ext "/a/b/file.txt" ≠ "" → Ext (AddPrefix "/a/b/file.txt" "tmp_") = Ext "/a/b/file.txt").
Proof.
  split; [vm_compute; reflexivity|].
  apply (AddPrefix_renames_in_place "/a/b/file.txt" "tmp_"). vm_compute. reflexivity.
Defined.

(** X16.  When the file name with the postfix in it is a plain name,
    [AddPostfix] renames the file where it is: the directory of the result
    is the directory of the path, its base name is the name, the postfix
    and the extension in this order, and an extension the path has is
    kept. *)
Theorem AddPostfix_renames_in_place (p : Path) (postfix : string) :
  plain_name ((SplitAll p).1.2 +:+ postfix +:+ (SplitAll p).2) = true →
  Dir (AddPostfix p postfix) = Dir p ∧
  Base (AddPostfix p postfix) = (SplitAll p).1.2 +:+ postfix +:+ (SplitAll p).2 ∧
  (Ext p ≠ "" → Ext (AddPostfix p postfix) = Ext p).
Proof.
  destruct (SplitAll_parts p) as (_ & Hext_p & _).
  revert Hext_p.
  unfold AddPostfix, SplitAll, Split, filepath_Split, String. cbn [fst snd].
  intros Hext_p Hname.
  destruct (Join_dir_plain _ _ (upto_last_sep_shape (chars p)) Hname) as (HDir & HBase & HExt).
  split; [done|]. split; [done|]. intros Hext. rewrite HExt, <- Hext_p in *.
  rewrite <- string_app_assoc. by apply filepath_Ext_app_Ext.
Qed.

Lemma AddPostfix_renames_in_place_witness :
  AddPostfix "/a/b/file.tar.gz" "_old" = "/a/b/file.tar_old.gz" ∧
  Dir (AddPostfix "/a/b/file.tar.gz" "_old") = Dir "/a/b/file.tar.gz" ∧
  Base (AddPostfix "/a/b/file.tar.gz" "_old")
  = (SplitAll "/a/b/file.tar.gz").1.2 +:+ "_old" +:+ (SplitAll "/a/b/file.tar.gz").2 ∧
  (Ext "/a/b/file.tar.gz" ≠ "" →
   Ext (AddPostfix "/a/b/file.tar.gz" "_old") = Ext "/a/b/file.tar.gz").
Proof.
  split; [vm_compute; reflexivity|].
  apply (AddPostfix_renames_in_place "/a/b/file.tar.gz" "_old"). vm_compute. reflexivity.
Defined.

Lemma filepath_Clean_cases (cs : list ascii) :
  cs ≠ [] →
  ∃ out, canonical (rooted cs) out ∧
    filepath_Clean (str cs)
    = if rooted cs then str ("/"%char :: join_sep (rev out))
      else match rev out with [] => "." | _ => str (join_sep (rev out)) end.
Proof.
  intros Hne. exists (foldl (clean_step (rooted cs)) [] (fields cs)).
  split; [|by apply filepath_Clean_str_nonempty].
  apply foldl_clean_step_canonical; [constructor|apply fields_sep_free].
Qed.

Lemma filepath_Clean_rooted (s : string) :
  rooted (chars (filepath_Clean s)) = rooted (chars s) ∧ filepath_Clean s ≠ "".
Proof.
  rewrite <- (str_chars s) at 1 3. generalize (chars s). intros cs.
  destruct (decide (cs = [])) as [->|Hne]; [done|].
  destruct (filepath_Clean_cases cs Hne) as (out & Hout & ->).
  pose proof (canonical_elements _ _ Hout) as Hel. apply Forall_rev in Hel.
  destruct (rooted cs); [by rewrite chars_str|].
  destruct (rev out) as [|g l] eqn:Hrev; [done|].
  destruct (rooted_join_sep (g :: l) [] ltac:(done) Hel) as [Hroot Hnil].
  rewrite app_nil_r in Hroot, Hnil. rewrite chars_str. split; [done|].
  intros Hs. apply (f_equal chars) in Hs. by rewrite chars_str in Hs.
Qed.

(** X17.  [Clean] changes nothing in a path it has returned, never returns
    the empty string, and returns an absolute path exactly for an absolute
    one. *)
Theorem Clean_idempotent (p : Path) :
  Clean (Clean p) = Clean p ∧ String.eqb (Clean p) "" = false ∧ IsAbs (Clean p) = IsAbs p.
Proof.
  unfold Clean, IsAbs, filepath_IsAbs, String.
  destruct (filepath_Clean_rooted p) as [Hroot Hne].
  split; [apply filepath_Clean_Clean|]. split; [|done].
  by apply String.eqb_neq.
Qed.

(** X18.  When the working directory that the system reports is an absolute
    path, a path that [Abs] returns without an error is absolute and clean,
    and [Abs] returns it unchanged when called on it; the older [Abs]
    returns the same path. *)
Theorem Abs_absolute_and_stable {World File : Type} `{!OS World File}
    (p q : Path) (w : World) :
  (∀ wd, os_Getwd w = inl wd → filepath_IsAbs wd = true) →
  Abs p w = (q, None) →
  IsAbs q = true ∧ Clean q = q ∧ Abs q w = (q, None) ∧ Legacy.Abs p w = q.
Proof.
  intros Hwd. unfold Legacy.Abs, Abs, pathWrapper, String.
  assert (Hstable : ∀ s, filepath_IsAbs s = true →
            filepath_IsAbs (filepath_Clean s) = true ∧
            filepath_Clean (filepath_Clean s) = filepath_Clean s ∧
            filepath_Abs (filepath_Clean s) w = (filepath_Clean s, None)).
  { intros s Hs. destruct (filepath_Clean_rooted s) as [Hroot _].
    unfold filepath_Abs, filepath_IsAbs in *. rewrite Hroot, Hs.
    by rewrite filepath_Clean_Clean. }
  unfold filepath_Abs at 1 3.
  destruct (filepath_IsAbs p) eqn:Habs.
  - intros [= <-]. destruct (Hstable p Habs) as (? & ? & ?). done.
  - destruct (os_Getwd w) as [wd|e] eqn:Hgetwd; [|done].
    intros [= <-]. specialize (Hwd wd eq_refl).
    assert (Hne : String.eqb wd "" = false) by (by destruct wd).
    cbn [filepath_Join strings_Join_sep]. rewrite Hne.
    assert (Hjoin : filepath_IsAbs (wd +:+ "/" +:+ p) = true).
    { unfold filepath_IsAbs in *. rewrite chars_app. by destruct (chars wd). }
    destruct (Hstable _ Hjoin) as (? & ? & ?). done.
Qed.

Lemma Abs_absolute_and_stable_witness :
  Abs "report.txt" (mkMemFS ["src"] (nodes demo_fs)) = ("/src/report.txt", None) ∧
  IsAbs "/src/report.txt" = true ∧ Clean "/src/report.txt" = "/src/report.txt" ∧
  Abs "/src/report.txt" (mkMemFS ["src"] (nodes demo_fs)) = ("/src/report.txt", None) ∧
  Legacy.Abs "report.txt" (mkMemFS ["src"] (nodes demo_fs)) = "/src/report.txt".
Proof.
  split; [vm_compute; reflexivity|].
  apply (Abs_absolute_and_stable "report.txt" "/src/report.txt"
           (mkMemFS ["src"] (nodes demo_fs))).
  - intros wd Hwd. vm_compute in Hwd. injection Hwd as <-. reflexivity.
  - vm_compute. reflexivity.
Defined.

(** X19.  The older [IsDir] returns what the file information says when
    [os.Stat] succeeds and [false] when it fails because the path does not
    exist; when [os.Stat] fails for another reason, the path counts as
    existing and [IsDir] is called on a nil [FileInfo]: the call panics. *)
Theorem Legacy_IsDir_cases {World File : Type} `{!OS World File} (path : Path) (w : World) :
  match os_Stat path w with
  | inl info => Legacy.IsDir path w = Ret (fi_IsDir info)
  | inr e =>
      Legacy.IsDir path w
      = if errors_Is (Some e) ErrNotExist then Ret false else Panic
  end ∧
  (Legacy.IsDir path w = Ret true ↔ ∃ info, os_Stat path w = inl info ∧ fi_IsDir info = true).
Proof.
  unfold Legacy.IsDir, Legacy.IsExist, Legacy.open.
  destruct (os_Stat path w) as [info|e].
  - split; [done|]. cbn. split; [intros [= Hd]; eauto|]. by intros (info' & [= <-] & ->).
  - assert (Hsame : os_IsNotExist (Some e) = errors_Is (Some e) ErrNotExist) by done.
    rewrite Hsame. split; [by destruct (errors_Is (Some e) ErrNotExist)|].
    split; [by destruct (errors_Is (Some e) ErrNotExist)|]. by intros (info' & [= ] & _).
Qed.

(** ** Cleaning a path and resolving it *)

Lemma walk_app_gen (m : gmap (list string) node) (cur A R : list string) :
  walk m cur (A ++ R)
  = match walk m cur A with
    | inr (d, _) => walk m d R
    | inl e => inl e
    end.
Proof.
  revert cur. induction A as [|c A IH]; intros cur; cbn [app walk].
  - destruct (m !! cur) as [n|] eqn:Hcur; [|by destruct R; cbn; rewrite Hcur].
    done.
  - destruct (m !! cur) as [[d|]|] eqn:Hcur; [done| |done].
    destruct (String.eqb c "."); [apply IH|].
    destruct (String.eqb c ".."); apply IH.
Qed.

Lemma walk_start_dir (m : gmap (list string) node) (cur : list string) (c : string)
    (R : list string) x :
  walk m cur (c :: R) = inr x → m !! cur = Some Directory.
Proof. cbn [walk]. by destruct (m !! cur) as [[d|]|]. Qed.

Lemma walk_skip_dot (m : gmap (list string) node) (cur A R : list string) x :
  walk m cur (A ++ "." :: R) = inr x → walk m cur (A ++ R) = inr x.
Proof.
  rewrite !walk_app_gen. destruct (walk m cur A) as [e|[d nd]]; [done|].
  intros Hw. pose proof (walk_start_dir _ _ _ _ _ Hw) as Hd.
  revert Hw. cbn [walk]. rewrite Hd. cbn. intros <-.
  destruct R; cbn [walk]; by rewrite Hd.
Qed.

Lemma filter_nonempty_one (f : list ascii) :
  filter (λ f : list ascii, f ≠ []) [f] = if decide (f = []) then [] else [f].
Proof.
  rewrite filter_cons, filter_nil. destruct (decide (f = [])) as [->|Hne].
  - by rewrite decide_False by (by intros ?).
  - by rewrite decide_True.
Qed.

Lemma plain_not_dots (f : list ascii) :
  plain f → f ≠ [] ∧ String.eqb (str f) "." = false ∧ String.eqb (str f) ".." = false.
Proof.
  intros (_ & Hnil & Hdot & Hdd). split; [|by split].
  intros ->. by rewrite chars_eqb_refl in Hnil.
Qed.

Lemma clean_walk_step (m : gmap (list string) node) (start : list string) (r : bool)
    (out : list (list ascii)) (f : list ascii) (R : list string) x :
  (r = true → start = []) → canonical r out →
  walk m start ((str <$> rev out) ++ (str <$> filter (λ f : list ascii, f ≠ []) [f]) ++ R)
  = inr x →
  walk m start ((str <$> rev (clean_step r out f)) ++ R) = inr x.
Proof.
  intros Hstart Hout. rewrite filter_nonempty_one. unfold clean_step.
  destruct (chars_eqb f []) eqn:Hnil.
  { apply chars_eqb_eq in Hnil as ->. by rewrite decide_True. }
  assert (Hne : f ≠ []) by (intros ->; by rewrite chars_eqb_refl in Hnil).
  rewrite decide_False by done. cbn [orb fmap list_fmap app].
  destruct (chars_eqb f dot) eqn:Hdot.
  { apply chars_eqb_eq in Hdot as ->. apply walk_skip_dot. }
  destruct (chars_eqb f dotdot) eqn:Hdd.
  2:{ cbn [rev]. by rewrite fmap_app, <- app_assoc. }
  apply chars_eqb_eq in Hdd as ->. change (str dotdot) with "..".
  destruct out as [|top out'].
  - destruct r; [|done]. rewrite (Hstart eq_refl). cbn [rev fmap list_fmap app].
    intros Hw. pose proof (walk_start_dir _ _ _ _ _ Hw) as Hd.
    revert Hw. cbn [walk]. by rewrite Hd.
  - destruct (chars_eqb top dotdot) eqn:Htop.
    { cbn [rev]. by rewrite !fmap_app, <- !app_assoc. }
    inversion Hout as [|? Hr Hall|? ? Hplain Hout']; subst;
      [by rewrite chars_eqb_refl in Htop|].
    destruct (plain_not_dots top Hplain) as (_ & Htd & Htdd).
    cbn [rev]. rewrite fmap_app, <- app_assoc, !walk_app_gen.
    destruct (walk m start (str <$> rev out')) as [e|[d nd]]; [done|].
    cbn [fmap list_fmap app]. intros Hw.
    pose proof (walk_start_dir _ _ _ _ _ Hw) as Hd.
    revert Hw. cbn [walk]. rewrite Hd, Htd, Htdd.
    destruct (m !! (d ++ [str top])) as [[?|]|]; try done.
    change (String.eqb ".." ".") with false. change (String.eqb ".." "..") with true.
    cbv iota. by rewrite removelast_last.
Qed.

Lemma clean_walk_fold (m : gmap (list string) node) (start : list string) (r : bool)
    (fs : list (list ascii)) (out : list (list ascii)) x :
  (r = true → start = []) → canonical r out →
  Forall (Forall (λ c, is_sep c = false)) fs →
  walk m start ((str <$> rev out) ++ (str <$> filter (λ f : list ascii, f ≠ []) fs)) = inr x →
  walk m start (str <$> rev (foldl (clean_step r) out fs)) = inr x.
Proof.
  intros Hstart Hout Hfs. revert out Hout.
  induction Hfs as [|f fs Hf _ IH]; intros out Hout.
  - cbn. by rewrite app_nil_r.
  - change (f :: fs) with ([f] ++ fs). rewrite filter_app, fmap_app. intros Hw.
    apply (clean_walk_step m start r out f) in Hw; [|done..]. cbn [app foldl].
    apply IH; [by apply clean_step_canonical|done].
Qed.

Lemma names_str (cs : list ascii) :
  names (str cs) = str <$> filter (λ f : list ascii, f ≠ []) (fields cs).
Proof. unfold names. by rewrite chars_str. Qed.

Lemma filter_nonempty_id (l : list (list ascii)) :
  Forall (λ f, Forall (λ c, is_sep c = false) f ∧ f ≠ []) l →
  filter (λ f : list ascii, f ≠ []) l = l.
Proof.
  induction 1 as [|f l [_ Hf] _ IH]; [done|].
  by rewrite filter_cons, decide_True, IH.
Qed.

Lemma names_rendered (r : bool) (out : list (list ascii)) :
  canonical r out →
  names (if r then str ("/"%char :: join_sep (rev out))
         else match rev out with [] => "." | _ => str (join_sep (rev out)) end)
  = if r then str <$> rev out
    else match rev out with [] => ["."] | _ => str <$> rev out end.
Proof.
  intros Hout. pose proof (canonical_elements _ _ Hout) as Hel. apply Forall_rev in Hel.
  assert (Hsep : Forall (Forall (λ c, is_sep c = false)) (rev out)).
  { eapply Forall_impl; [done|]. by intros f [? _]. }
  destruct (rev out) as [|g l] eqn:Hrev.
  - by destruct r.
  - assert (Hn : names (str (join_sep (g :: l))) = str <$> g :: l).
    { by rewrite names_str, fields_join_sep, filter_nonempty_id. }
    destruct r; [|done].
    rewrite names_str.
    change (fields ("/"%char :: join_sep (g :: l))) with ([] :: fields (join_sep (g :: l))).
    rewrite filter_cons, decide_False by (by intros ?).
    by rewrite fields_join_sep, filter_nonempty_id.
Qed.

Lemma resolve_directory (w : MemFS) (path : string) (key : list string) :
  resolve w path = inr (key, Directory) ↔
  String.eqb path "" = false ∧
  walk (nodes w) (start_dir w path) (names path) = inr (key, Directory).
Proof.
  unfold resolve. destruct (String.eqb path ""); [by split; [|intros []]|].
  destruct (walk (nodes w) (start_dir w path) (names path)) as [e|[k [d|]]].
  - by split; [|intros []].
  - destruct (trailing_sep path); by split; [|intros []].
  - split; [by intros [= ->]|by intros [_ [= ->]]].
Qed.

Lemma names_not_rooted (cs : list ascii) :
  rooted cs = false → cs ≠ [] → ∃ n R, names (str cs) = n :: R.
Proof.
  intros Hr Hne. rewrite names_str. destruct cs as [|c cs]; [done|].
  cbn [rooted] in Hr. cbn [fields]. rewrite Hr.
  destruct (fields cs) as [|f fs];
    rewrite filter_cons, decide_True by done; cbn; eauto.
Qed.

Lemma walk_Clean (m : gmap (list string) node) (start : list string) (s : string) x :
  (rooted (chars s) = true → start = []) → s ≠ "" →
  walk m start (names s) = inr x →
  walk m start (names (filepath_Clean s)) = inr x.
Proof.
  rewrite <- (str_chars s). generalize (chars s). intros cs. rewrite chars_str.
  intros Hstart Hs Hw0.
  assert (Hne : cs ≠ []) by (by intros ->).
  rewrite filepath_Clean_str_nonempty by done.
  destruct (rooted cs) eqn:Hr.
  - set (out := foldl (clean_step true) [] (fields cs)).
    assert (Hout : canonical true out).
    { apply foldl_clean_step_canonical; [constructor|apply fields_sep_free]. }
    pose proof (names_rendered true out Hout) as Hn. cbv iota in Hn. rewrite Hn.
    rewrite names_str in Hw0.
    by apply (clean_walk_fold m start true (fields cs) [] x Hstart (canonical_nil true)
                (fields_sep_free cs)).
  - set (out := foldl (clean_step false) [] (fields cs)).
    assert (Hout : canonical false out).
    { apply foldl_clean_step_canonical; [constructor|apply fields_sep_free]. }
    pose proof (names_rendered false out Hout) as Hn. cbv iota in Hn.
    pose proof Hw0 as Hw. rewrite names_str in Hw.
    apply (clean_walk_fold m start false (fields cs) [] x Hstart (canonical_nil false)
             (fields_sep_free cs)) in Hw. fold out in Hw.
    destruct (rev out) as [|g l]; [|by rewrite Hn].
    destruct (names_not_rooted cs Hr Hne) as (n & R & Hnames).
    rewrite Hnames in Hw0. apply walk_start_dir in Hw0.
    change (names ".") with ["."]. revert Hw. cbn [fmap list_fmap walk].
    rewrite Hw0. done.
Qed.

Lemma resolve_Clean_directory (w : MemFS) (path : string) (key : list string) :
  resolve w path = inr (key, Directory) →
  resolve w (filepath_Clean path) = inr (key, Directory).
Proof.
  rewrite !resolve_directory. intros [Hne Hwalk].
  destruct (filepath_Clean_rooted path) as [Hroot Hnonempty].
  split; [by apply String.eqb_neq|].
  unfold start_dir in *. rewrite Hroot.
  apply walk_Clean; [|by apply String.eqb_neq|done].
  by intros ->.
Qed.

Lemma until_sep_sep_free (r : list ascii) : Forall (λ c, is_sep c = false) (until_sep r).
Proof.
  induction r as [|c r IH]; [done|]. simpl. destruct (is_sep c) eqn:Hc; [done|].
  by constructor.
Qed.

Lemma after_last_sep_sep_free (cs : list ascii) :
  Forall (λ c, is_sep c = false) (after_last_sep cs).
Proof. apply Forall_rev, until_sep_sep_free. Qed.

Lemma after_last_sep_nonempty (path : string) :
  path ≠ "" → trailing_sep path = false → after_last_sep (chars path) ≠ [].
Proof.
  unfold trailing_sep, after_last_sep. intros Hne Htrail.
  destruct (rev (chars path)) as [|c r] eqn:Hrev.
  { apply (f_equal (@rev _)) in Hrev. rewrite rev_involutive in Hrev.
    apply (f_equal str) in Hrev. by rewrite str_chars in Hrev. }
  cbn [until_sep]. rewrite Htrail. cbn [rev]. by destruct (rev (until_sep r)).
Qed.

(** The names of a path are those of its directory part and its file name. *)
Lemma names_dir_file (D F : list ascii) :
  D = [] ∨ (∃ a, D = a ++ ["/"%char]) → Forall (λ c, is_sep c = false) F →
  names (str (D ++ F))
  = names (str D) ++ (str <$> filter (λ f : list ascii, f ≠ []) [F]) ∧
  rooted D = rooted (D ++ F).
Proof.
  intros [->|[a ->]] HF; rewrite !names_str.
  - cbn [app]. rewrite fields_plain by done. split; [done|].
    by destruct HF as [|c F Hc _]; [|cbn; rewrite Hc].
  - rewrite <- app_assoc. cbn [app].
    rewrite fields_app_sep, (fields_plain _ HF), filter_app, fmap_app.
    change (a ++ ["/"%char]) with (a ++ "/"%char :: []).
    rewrite fields_app_sep, filter_app. change (fields []) with [@nil ascii].
    rewrite (filter_nonempty_one []), decide_True, app_nil_r by done.
    split; [done|]. by destruct a.
Qed.

Lemma names_split (path : string) :
  names path
  = names (str (upto_last_sep (chars path)))
    ++ (str <$> filter (λ f : list ascii, f ≠ []) [after_last_sep (chars path)]) ∧
  rooted (upto_last_sep (chars path)) = rooted (chars path).
Proof.
  pose proof (names_dir_file (upto_last_sep (chars path)) (after_last_sep (chars path))
                (upto_last_sep_shape _) (after_last_sep_sep_free _)) as H.
  by rewrite upto_after_last_sep, str_chars in H.
Qed.

Lemma resolve_Dir_from_walk (w : MemFS) (path : string) (kd : list string) :
  walk (nodes w) (start_dir w path) (names (str (upto_last_sep (chars path))))
  = inr (kd, Directory) →
  resolve w (Dir path) = inr (kd, Directory).
Proof.
  intros Hwalk. unfold Dir, filepath_Dir, String.
  destruct (names_split path) as [_ Hroot].
  destruct (upto_last_sep_shape (chars path)) as [HD|[a HD]]; rewrite HD in *.
  - change (filepath_Clean (str [])) with ".". apply resolve_directory.
    split; [done|]. unfold start_dir in *. rewrite <- Hroot in Hwalk.
    change (names (str [])) with (@nil string) in Hwalk. change (names ".") with ["."].
    revert Hwalk. cbn. destruct (nodes w !! cwd w) as [n|]; [|done].
    by intros [= <- ->].
  - apply resolve_Clean_directory, resolve_directory.
    split; [by destruct a|]. unfold start_dir in *. by rewrite chars_str, Hroot.
Qed.

Lemma parent_walk (m : gmap (list string) node) (start A : list string) (c : string) x :
  walk m start (A ++ [c]) = inr x → ∃ kd, walk m start A = inr (kd, Directory).
Proof.
  rewrite walk_app_gen. destruct (walk m start A) as [e|[kd nd]] eqn:HA; [done|].
  intros Hw. apply walk_start_dir in Hw. apply walk_lookup in HA.
  exists kd. congruence.
Qed.

Lemma resolve_Dir_of_file (w : MemFS) (path : string) (key : list string) (d : list byte) :
  resolve w path = inr (key, RegFile d) → ∃ kd, resolve w (Dir path) = inr (kd, Directory).
Proof.
  unfold resolve. destruct (String.eqb path "") eqn:Hne; [done|].
  apply String.eqb_neq in Hne.
  destruct (walk (nodes w) (start_dir w path) (names path)) as [e|[k [d1|]]] eqn:Hwalk;
    [done| |done].
  destruct (trailing_sep path) eqn:Htrail; [done|]. intros _.
  destruct (names_split path) as [Hnames _].
  rewrite filter_nonempty_one, decide_False in Hnames
    by (by apply after_last_sep_nonempty).
  rewrite Hnames in Hwalk. apply parent_walk in Hwalk as [kd Hkd].
  exists kd. by apply resolve_Dir_from_walk.
Qed.

Lemma resolve_Dir_of_new (w : MemFS) (path : string) (key : list string) :
  resolve_new w path = inr key → ∃ kd, resolve w (Dir path) = inr (kd, Directory).
Proof.
  unfold resolve_new.
  destruct (rev (names path)) as [|last rinit] eqn:Hrev; [done|].
  assert (Hnames : names path = rev rinit ++ [last]).
  { rewrite <- (rev_involutive (names path)), Hrev. done. }
  destruct (walk (nodes w) (start_dir w path) (rev rinit)) as [e|[dir [d|]]] eqn:Hwalk;
    try done.
  destruct (String.eqb last "." || String.eqb last ".."); [done|].
  destruct (trailing_sep path) eqn:Htrail; [done|]. intros _.
  assert (Hne : path ≠ "") by (intros ->; by destruct (rev rinit)).
  destruct (names_split path) as [Hsplit _].
  rewrite filter_nonempty_one, decide_False in Hsplit
    by (by apply after_last_sep_nonempty).
  rewrite Hnames in Hsplit. apply app_inj_tail in Hsplit as [Hinit _].
  exists dir. apply resolve_Dir_from_walk. by rewrite <- Hinit.
Qed.

Lemma mkdir_walk_existing (m : gmap (list string) node) (cur rest key : list string) :
  walk m cur rest = inr (key, Directory) → mkdir_walk m cur rest = inr m.
Proof.
  revert cur. induction rest as [|c rest IH]; intros cur; cbn [walk mkdir_walk].
  - destruct (m !! cur) as [[d|]|]; try done.
  - destruct (m !! cur) as [[d|]|]; try done.
    destruct (String.eqb c "."); [apply IH|].
    destruct (String.eqb c ".."); [apply IH|].
    intros Hw. destruct (m !! (cur ++ [c])) eqn:Hk; [by apply IH|].
    destruct rest; cbn [walk] in Hw; by rewrite Hk in Hw.
Qed.

Lemma MkdirAll_existing (w : MemFS) (d : Path) (perm : Z) (key : list string) :
  resolve w d = inr (key, Directory) → MkdirAll d perm w = (None, w).
Proof.
  intros [Hne Hwalk]%resolve_directory.
  unfold MkdirAll, os_MkdirAll, String. cbn [MemFS_OS]. unfold MemFS_MkdirAll.
  rewrite Hne, (mkdir_walk_existing _ _ _ _ Hwalk). by destruct w.
Qed.

Lemma mkdir_walk_lookup (m m' : gmap (list string) node) (cur rest k : list string)
    (n : node) :
  mkdir_walk m cur rest = inr m' → m !! k = Some n → m' !! k = Some n.
Proof.
  revert m cur. induction rest as [|c rest IH]; intros m cur; cbn [mkdir_walk].
  - destruct (m !! cur) as [[d|]|]; try done. by intros [= <-].
  - destruct (m !! cur) as [[d|]|]; try done.
    destruct (String.eqb c "."); [apply IH|].
    destruct (String.eqb c ".."); [apply IH|].
    destruct (m !! (cur ++ [c])) eqn:Hk; [apply IH|].
    intros Hrec Hlook. apply (IH _ _ Hrec).
    rewrite lookup_insert_ne; [done|]. intros <-. congruence.
Qed.

Lemma MkdirAll_keeps_file (w w1 : MemFS) (d p : Path) (perm : Z) (key : list string)
    (data : list byte) :
  MkdirAll d perm w = (None, w1) → resolve w p = inr (key, RegFile data) →
  resolve w1 p = inr (key, RegFile data).
Proof.
  intros Hmk Hres. pose proof (resolve_lookup _ _ _ _ Hres) as Hk.
  pose proof Hmk as Hg. apply MkdirAll_MemFS in Hg as (Hg & _).
  destruct (grows_resolve _ _ _ _ _ Hg Hres) as (n' & Hres' & _).
  rewrite Hres'. apply resolve_lookup in Hres'.
  revert Hmk. unfold MkdirAll, os_MkdirAll, String. cbn [MemFS_OS]. unfold MemFS_MkdirAll.
  destruct (String.eqb d ""); [done|].
  destruct (mkdir_walk (nodes w) (start_dir w d) (names d)) as [e|m'] eqn:Hwalk; [done|].
  intros [= <-]. cbn [nodes] in Hres'.
  rewrite (mkdir_walk_lookup _ _ _ _ _ _ Hwalk Hk) in Hres'. congruence.
Qed.

Lemma copy_streams (m0 : gmap (list string) node) (c0 kp kd : list string)
    (d0 old : list byte) :
  Streams (copy_inv m0 c0 kp kd d0 old) file_left file_written.
Proof.
  split.
  - intros r w σ n bs e r' σ' (Hr & Hw & Hne & Hworld) Hn Hread.
    destruct (MemFile_Read_regular kp d0 r n σ bs e r' σ' Hr Hn Hread)
      as (-> & Hr' & Hrest).
    split; [done|]. destruct Hrest as (? & ? & ? & ? & ?). done.
  - intros r w σ p n e w' σ' (Hr & Hw & Hne & Hcwd & d & Hnodes) Hwrite.
    destruct (MemFile_Write_regular kd old w p σ n e w' σ' Hw Hwrite)
      as (-> & -> & Hw' & Hdst & Hcwd' & Hext & Hother).
    destruct Hr as (Hkr & Hrm & Hp).
    assert (Hp' : nodes σ' !! kp = nodes σ !! kp) by (by apply Hother).
    split; [|split; [done|split; [done|split; [done|]]]].
    + split; [by split; [|split; [|rewrite Hp']]|].
      split; [done|]. split; [done|]. split; [congruence|].
      destruct Hw' as (_ & _ & _ & d' & Hd' & _).
      exists d'. apply map_eq. intros k. destruct (decide (k = kd)) as [->|Hk].
      * by rewrite lookup_insert_eq.
      * rewrite lookup_insert_ne by done. rewrite (Hother k Hk), Hnodes.
        by rewrite lookup_insert_ne.
    + unfold file_left. by rewrite Hkr, Hp'.
Qed.

Lemma copy_run (σ : MemFS) (kp kd : list string) (data old : list byte)
    (n1 n2 : string) (rflag wflag : Z) (bufferSize fuel : nat) :
  nodes σ !! kp = Some (RegFile data) → nodes σ !! kd = Some (RegFile old) → kp ≠ kd →
  accmode rflag ≠ O_WRONLY → accmode wflag ≠ O_RDONLY → has_flag wflag O_APPEND = false →
  1 ≤ bufferSize → length data + 2 ≤ fuel →
  ∃ run, buffedCopy fuel (mkMemFile n1 kp rflag 0) (mkMemFile n2 kd wflag 0) bufferSize σ
         = Ret run ∧
    copiedSize run = wrap64 (Z.of_nat (length data)) ∧
    run_err run = None ∧
    run_world run
    = mkMemFS (cwd σ) (<[kd := RegFile (data ++ drop (length data) old)]> (nodes σ)).
Proof.
  intros Hkp Hkd Hne Hracc Hwacc Happ HB Hfuel.
  set (source := mkMemFile n1 kp rflag 0). set (destination := mkMemFile n2 kd wflag 0).
  assert (Hinv : copy_inv (nodes σ) (cwd σ) kp kd data old source destination σ).
  { split; [done|]. split; [|split; [done|split; [done|exists old; by rewrite insert_id]]].
    split; [done|]. split; [done|]. split; [done|]. exists old.
    split; [done|]. cbn [destination f_off]. split; [lia|done]. }
  assert (Hleft : file_left source σ = data).
  { unfold file_left. cbn [source f_key f_off]. by rewrite Hkp, drop_0. }
  destruct (buffedCopy_lawful _ _ _ (copy_streams (nodes σ) (cwd σ) kp kd data old)
              fuel bufferSize source destination σ Hinv HB)
    as (run & Hrun & Hsize & Herr & (_ & Hwf & _ & Hcwd & d & Hnodes) & Hdst & _).
  { by rewrite Hleft. }
  exists run. rewrite Hleft in Hsize, Hdst. split; [done|]. split; [done|]. split; [done|].
  apply writing_data in Hwf. rewrite Hdst in Hwf.
  unfold file_written in Hwf at 1 2. cbn [destination f_off] in Hwf. rewrite take_0 in Hwf.
  cbn [app] in Hwf. rewrite Hnodes, lookup_insert_eq in Hwf.
  injection Hwf as Hd.
  destruct (run_world run) as [c m]. cbn [cwd nodes] in *. by rewrite Hcwd, Hnodes, Hd.
Qed.

(** X20.  A path that names a directory names the same directory after
    [Clean]: dropping [.], empty names and a name followed by [..] does not
    change where the path leads in a tree without links. *)
Theorem Clean_names_same_directory (w : MemFS) (p : Path) (key : list string) :
  resolve w p = inr (key, Directory) →
  resolve w (Clean p) = inr (key, Directory) ∧
  ∃ info, Stat (Clean p) w = inl info ∧ fi_IsDir info = true.
Proof.
  intros Hres. apply resolve_Clean_directory in Hres. split; [done|].
  unfold Stat, os_Stat, Clean, String in *. cbn [MemFS_OS]. unfold MemFS_Stat.
  rewrite Hres. eauto.
Qed.

Lemma Clean_names_same_directory_witness :
  Clean "/src/../src/./" = "/src" ∧
  resolve demo_fs (Clean "/src/../src/./") = inr (["src"], Directory) ∧
  ∃ info, Stat (Clean "/src/../src/./") demo_fs = inl info ∧ fi_IsDir info = true.
Proof.
  split; [vm_compute; reflexivity|].
  apply (Clean_names_same_directory demo_fs "/src/../src/./" ["src"]).
  vm_compute. reflexivity.
Defined.

(** X21.  The directory of a path that names a regular file, or that names
    nothing where a file could be created, exists: [Stat] on [Dir] of the
    path reports a directory and [MkdirAll] on it changes nothing. *)
Theorem Dir_of_file_is_directory (w : MemFS) (p : Path) (key : list string) (perm : Z) :
  (∃ d, resolve w p = inr (key, RegFile d)) ∨ resolve_new w p = inr key →
  (∃ info, Stat (Dir p) w = inl info ∧ fi_IsDir info = true) ∧
  MkdirAll (Dir p) perm w = (None, w).
Proof.
  intros Hp.
  assert (Hdir : ∃ kd, resolve w (Dir p) = inr (kd, Directory)).
  { destruct Hp as [[d Hres]|Hnew];
      [by eapply resolve_Dir_of_file|by eapply resolve_Dir_of_new]. }
  destruct Hdir as [kd Hdir]. split; [|by eapply MkdirAll_existing].
  unfold Stat, os_Stat, String. cbn [MemFS_OS]. unfold MemFS_Stat. rewrite Hdir. eauto.
Qed.

Lemma Dir_of_file_is_directory_witness :
  Dir "/src/./new.txt" = "/src" ∧
  (∃ info, Stat (Dir "/src/./new.txt") demo_fs = inl info ∧ fi_IsDir info = true) ∧
  MkdirAll (Dir "/src/./new.txt") DEFAULT_PERM demo_fs = (None, demo_fs).
Proof.
  split; [vm_compute; reflexivity|].
  apply (Dir_of_file_is_directory demo_fs "/src/./new.txt" ["src"; "new.txt"]).
  right. vm_compute. reflexivity.
Defined.





(** ** [SplitList] *)

Lemma fill_by_index {A} (acc l : list A) (d : A) :
  foldl (λ res (ip : nat * A), <[ip.1 := ip.2]> res) (acc ++ replicate (length l) d)
    (zip (seq (length acc) (length l)) l)
  = acc ++ l.
Proof.
  revert acc. induction l as [|x l IH]; intros acc; [done|].
  cbn [length seq zip zip_with foldl replicate fst snd].
  replace (<[length acc := x]> (acc ++ d :: replicate (length l) d))
    with ((acc ++ [x]) ++ replicate (length l) d).
  2:{ rewrite <- (Nat.add_0_r (length acc)), insert_app_r.
      by rewrite <- app_assoc. }
  replace (S (length acc)) with (length (acc ++ [x])) by (rewrite length_app; simpl; lia).
  rewrite IH. by rewrite <- app_assoc.
Qed.

Lemma list_fields_nonempty (cs : list ascii) : list_fields cs ≠ [].
Proof.
  induction cs as [|c cs IH]; [done|]. simpl.
  destruct (Ascii.eqb c ListSeparator); [done|]. by destruct (list_fields cs).
Qed.

Lemma list_fields_join (cs : list ascii) :
  strings_Join (str <$> list_fields cs) ":" = str cs ∧
  Forall (Forall (λ c, c ≠ ListSeparator)) (list_fields cs).
Proof.
  induction cs as [|c cs [IHj IHf]]; [by repeat constructor|]. cbn [list_fields].
  pose proof (list_fields_nonempty cs) as Hne.
  change (str (c :: cs)) with (String.String c (str cs)). rewrite <- IHj.
  destruct (Ascii.eqb c ListSeparator) eqn:Hc.
  - apply Ascii.eqb_eq in Hc as ->. split; [|by repeat constructor].
    by destruct (list_fields cs) as [|f fs].
  - apply Ascii.eqb_neq in Hc.
    destruct (list_fields cs) as [|f fs]; [done|].
    inversion IHf as [|? ? Hf Hfs]; subst. split; [|by repeat constructor].
    by destruct fs.
Qed.

(** X24.  [SplitList] returns the parts of the list between its colons, in
    order: none for the empty string; otherwise the parts, none of them
    with a colon in it, give the string back when joined by colons. *)
Theorem SplitList_parts (path : string) :
  SplitList path = filepath_SplitList path ∧
  SplitList "" = [] ∧
  (String.eqb path "" = false → strings_Join (SplitList path) ":" = path) ∧
  Forall (λ p : Path, Forall (λ c, c ≠ ListSeparator) (chars p)) (SplitList path).
Proof.
  assert (Hcopy : SplitList path = filepath_SplitList path).
  { unfold SplitList. apply (fill_by_index [] (filepath_SplitList path) ""). }
  split; [done|]. split; [done|]. rewrite Hcopy. unfold filepath_SplitList.
  destruct (list_fields_join (chars path)) as [Hjoin Hfree].
  destruct (String.eqb path ""); [by split|]. split.
  - intros _. by rewrite Hjoin, str_chars.
  - apply Forall_fmap. eapply Forall_impl; [done|]. intros f Hf. cbn. by rewrite chars_str.
Qed.
